(** * A-share review dashboard: indicator engine, backtest simulator, data sync

    A shallow embedding of the computational core of the application:
    - [calculateMA], [calculateHDY] and [runStrategy] (utils),
    - [syncData] (services), the cache/merge layer over localforage.

    JavaScript numbers are IEEE-754 binary64 values and are modelled by Rocq's
    primitive [float]; arrays are lists; an uncaught [TypeError] is [None] in
    the option monad; the asynchronous cache layer is a state-and-exception
    monad over the key/value store. *)

From Stdlib Require Import ZArith Floats String Ascii Sorting.Sorted.
From stdpp Require Import base option list gmap strings sorting.

Local Open Scope Z_scope.

(** ** JavaScript numbers *)

Module Number.

(** [a > b] and [a >= b] are evaluated as [b < a] and [b <= a]. *)
Definition gtb (a b : float) : bool := (b <? a)%float.
Definition geb (a b : float) : bool := (b <=? a)%float.

(** [a === b] and [a !== b] on numbers ([NaN] differs from itself). *)
Definition strict_eq (a b : float) : bool := (a =? b)%float.
Definition strict_ne (a b : float) : bool := negb (a =? b)%float.

(** [isNaN(x)]. *)
Definition isNaN (x : float) : bool := is_nan x.

(** Truthiness of a number: [0], [-0] and [NaN] are falsy. *)
Definition truthy (x : float) : bool := negb (is_zero x || is_nan x).

(** The number denoted by an integer (array lengths, loop bounds),
    correctly rounded when it exceeds 2^53. *)
Definition of_Z (z : Z) : float := SF2Prim (binary_normalize prec emax z 0 false).
Definition of_nat (n : nat) : float := of_Z (Z.of_nat n).

Definition pow10 (f : nat) : Z := 10 ^ Z.of_nat f.

(** [Number.prototype.toFixed], step "let n be an integer for which
    n / 10^f - x is as close to zero as possible; if there are two such n,
    pick the larger n", for x = m * 2^e > 0. *)
Definition toFixed_n (f : nat) (m : positive) (e : Z) : Z :=
  let num := Z.pos m * pow10 f in
  if 0 <=? e then num * 2 ^ e
  else (2 * num + 2 ^ (- e)) / 2 ^ (1 - e).

(** The outcome of [x.toFixed(f)] before it is laid out as text. *)
Inductive Fixed :=
| FixedNaN                                   (* "NaN" *)
| FixedInfinity (neg : bool)                 (* "Infinity", "-Infinity" *)
| FixedExponent (x : float)                  (* |x| >= 1e21 : ToString(x) *)
| FixedDecimal (neg : bool) (n : Z) (f : nat). (* [-] n / 10^f, f decimals *)

Definition toFixed_repr (f : nat) (x : float) : Fixed :=
  match Prim2SF x with
  | S754_nan => FixedNaN
  | S754_infinity s => FixedInfinity s
  | S754_zero _ => FixedDecimal false 0 f
  | S754_finite s m e =>
      if (1e21 <=? abs x)%float then FixedExponent x
      else FixedDecimal s (toFixed_n f m e) f
  end.

(** The double nearest to [n / d] (ties to even), signed. *)
Definition of_ratio (neg : bool) (n d : Z) : float :=
  match n, d with
  | Z.pos pn, Z.pos pd =>
      SF2Prim (SFdiv prec emax (S754_finite neg pn 0) (S754_finite false pd 0))
  | _, _ => if neg then PrimFloat.neg_zero else PrimFloat.zero
  end.

(** [parseFloat] of the text of a [toFixed] outcome. *)
Definition parseFloat_fixed (r : Fixed) : float :=
  match r with
  | FixedNaN => nan
  | FixedInfinity s => if s then neg_infinity else infinity
  | FixedExponent x => x
  | FixedDecimal s n f => of_ratio s n (pow10 f)
  end.

(** [parseFloat(x.toFixed(f))]. *)
Definition round_to (f : nat) (x : float) : float :=
  parseFloat_fixed (toFixed_repr f x).

(** *** Text of a [toFixed] outcome *)

Definition digit (d : Z) : ascii := ascii_of_nat (48 + Z.to_nat d).

Fixpoint digits_go (fuel : nat) (n : Z) (acc : string) : string :=
  match fuel with
  | O => acc
  | S k =>
      let acc' := String (digit (n mod 10)) acc in
      if n / 10 =? 0 then acc' else digits_go k (n / 10) acc'
  end.

(** Decimal digits of [n >= 0] ("0" for zero). *)
Definition digits (n : Z) : string :=
  digits_go (S (Z.to_nat (Z.log2 n))) n EmptyString.

Fixpoint zeros (k : nat) : string :=
  match k with O => EmptyString | S k' => String "0" (zeros k') end.

Fixpoint take_str (k : nat) (s : string) : string :=
  match k, s with
  | S k', String c s' => String c (take_str k' s')
  | _, _ => EmptyString
  end.

Fixpoint drop_str (k : nat) (s : string) : string :=
  match k, s with
  | S k', String _ s' => drop_str k' s'
  | _, _ => s
  end.

(** [n] printed with exactly [f] digits after the point. *)
Definition decimal_text (n : Z) (f : nat) : string :=
  let m := digits n in
  match f with
  | O => m
  | _ =>
      let k := String.length m in
      let m' := if (k <=? f)%nat then (zeros (f + 1 - k) ++ m)%string else m in
      let k' := String.length m' in
      (take_str (k' - f) m' ++ "." ++ drop_str (k' - f) m')%string
  end.

(** Shortest decimal significand that reads back as [x], for an integral
    [x >= 1e21]; [nd] is the number of decimal digits of [x]. *)
Definition reads_back (x : float) (v : Z) : bool := (of_Z v =? x)%float.

Definition closer (X : Z) (a b : Z * Z) : Z * Z :=
  if Z.abs (snd a - X) <=? Z.abs (snd b - X) then a else b.

Definition candidates (x : float) (X : Z) (n k : nat) : list (Z * Z) :=
  let scale := pow10 (n - k) in
  let lo := X / scale in
  List.filter
    (fun sv : Z * Z =>
       (pow10 (k - 1) <=? fst sv) && (fst sv <? pow10 k) && reads_back x (snd sv))
    [(lo, lo * scale); (lo + 1, (lo + 1) * scale)].

Fixpoint shortest (x : float) (X : Z) (nd : nat) (fuel k : nat) : Z * nat * nat :=
  match fuel with
  | O => (X, nd, nd)
  | S fuel' =>
      match candidates x X nd k ++ candidates x X (S nd) k with
      | [] => shortest x X nd fuel' (S k)
      | c :: cs =>
          let best := List.fold_left (closer X) cs c in
          (fst best, (if snd best <? pow10 nd then nd else S nd), k)
      end
  end.

(** [Number::toString(x)] for a finite [|x| >= 1e21] (exponential form). *)
Definition toString_large (x : float) : string :=
  match Prim2SF (abs x) with
  | S754_finite _ m e =>
      let X := Z.pos m * 2 ^ e in
      let nd := String.length (digits X) in
      let '(s, n, k) := shortest (abs x) X nd 20 1 in
      let ds := digits s in
      let mant :=
        if (k =? 1)%nat then ds
        else (take_str 1 ds ++ "." ++ drop_str 1 ds)%string in
      ((if (x <? 0)%float then "-" else "") ++ mant ++ "e+"
         ++ digits (Z.of_nat n - 1))%string
  | _ => EmptyString
  end.

Definition fixed_text (r : Fixed) : string :=
  match r with
  | FixedNaN => "NaN"
  | FixedInfinity s => if s then "-Infinity" else "Infinity"
  | FixedExponent x => toString_large x
  | FixedDecimal s n f => ((if s then "-" else "") ++ decimal_text n f)%string
  end.

(** [x.toFixed(f)]. *)
Definition toFixed (f : nat) (x : float) : string :=
  fixed_text (toFixed_repr f x).

End Number.

(** ** Data model (types.ts) *)

(** A value read from an object field or an array slot that holds a number,
    [null], or nothing at all. *)
Inductive JSValue :=
| Undefined
| Null
| Num (x : float).

(** [ToNumber]: what arithmetic and comparison operators see. *)
Definition to_number (v : JSValue) : float :=
  match v with
  | Undefined => nan
  | Null => 0%float
  | Num x => x
  end.

Definition of_optional (o : option float) : JSValue :=
  match o with Some x => Num x | None => Undefined end.

(** An entry of a [(number | null)[]] array. *)
Definition of_nullable (o : option float) : JSValue :=
  match o with Some x => Num x | None => Null end.

(** [v ?? d]. *)
Definition nullish_or (v : JSValue) (d : float) : float :=
  match v with Num x => x | _ => d end.

Record StockDataPoint := {
  date : string;
  close : float;
  open : option float;
  high : option float;
  low : option float;
  volume : float;
  index : option float;
  bondPrice : option float;
  maShort : option (option float);
  maLong : option (option float);
  maCustom : option (option float);
  hdy : option float
}.

(** The numeric keys of [StockDataPoint] that [data[i][field]] can select. *)
Inductive Field :=
| FClose | FOpen | FHigh | FLow | FVolume | FIndex | FBondPrice
| FMaShort | FMaLong | FMaCustom | FHdy.

Definition of_optional_nullable (o : option (option float)) : JSValue :=
  match o with Some v => of_nullable v | None => Undefined end.

Definition read_field (field : Field) (d : StockDataPoint) : JSValue :=
  match field with
  | FClose => Num (close d)
  | FOpen => of_optional (open d)
  | FHigh => of_optional (high d)
  | FLow => of_optional (low d)
  | FVolume => Num (volume d)
  | FIndex => of_optional (index d)
  | FBondPrice => of_optional (bondPrice d)
  | FMaShort => of_optional_nullable (maShort d)
  | FMaLong => of_optional_nullable (maLong d)
  | FMaCustom => of_optional_nullable (maCustom d)
  | FHdy => of_optional (hdy d)
  end.

Inductive TradeType := buy | sell.

Definition TradeType_eqb (a b : TradeType) : bool :=
  match a, b with
  | buy, buy | sell, sell => true
  | _, _ => false
  end.

Record Trade := {
  trade_date : string;
  type : TradeType;
  price : float;
  desc : string
}.

Record CurvePoint := {
  point_date : string;
  value : float
}.

Record BacktestResult := {
  trades : list Trade;
  capitalCurve : list CurvePoint;
  benchmarkCurve : list CurvePoint;
  finalNetValue : float;
  returnRate : string;
  benchmarkReturn : string;
  winRate : string;
  tradeCount : nat
}.

(** ** Arrays and loops *)

(** [a[z]] for an integral index: [None] stands for [undefined]. *)
Definition at_index {A} (a : list A) (z : Z) : option A :=
  if z <? 0 then None else a !! Z.to_nat z.

(** [for (let i = start; i < start + n; i++) body], threading the variables
    the body assigns; [None] is an exception thrown by the body. *)
Fixpoint for_range {St} (n start : nat) (body : nat → St → option St) (s : St)
  : option St :=
  match n with
  | O => Some s
  | S n' => s' ← body start s; for_range n' (S start) body s'
  end.

(** [for (let j = lo; j <= hi; j++) body]. *)
Definition for_from_to {St} (lo hi : nat) (body : nat → St → option St) (s : St)
  : option St :=
  for_range (S hi - lo) lo body s.

(** ** Moving average (utils: calculateMA) *)

(** The inner loop: [sum += data[i - j][field]] for [j = 0 .. dayCount - 1]. *)
Definition window_sum (dayCount : nat) (data : list StockDataPoint)
    (field : Field) (i : nat) : option float :=
  for_range dayCount 0
    (λ j sum,
       d ← at_index data (Z.of_nat i - Z.of_nat j);
       Some (sum + to_number (read_field field d))%float)
    0%float.

Definition calculateMA (dayCount : nat) (data : list StockDataPoint)
    (field : Field) : option (list (option float)) :=
  for_range (length data) 0
    (λ i result,
       if Z.of_nat i <? Z.of_nat dayCount - 1 then Some (result ++ [None])
       else
         sum ← window_sum dayCount data field i;
         Some (result ++ [Some (Number.round_to 4 (sum / Number.of_nat dayCount))]))
    [].

(** ** HDY oscillator (utils: calculateHDY) *)

(** The constants [N] and [M] of the source. *)
Definition HDY_N : nat := 34.
Definition HDY_M : float := 3%float.

(** One pass of the range scan:
    [if ((data[j].high ?? 0) > maxH) maxH = data[j].high ?? 0;] and the same
    for the low. *)
Definition range_step (data : list StockDataPoint) (j : nat)
    (acc : float * float) : option (float * float) :=
  d ← data !! j;
  let '(maxH, minL) := acc in
  let h := nullish_or (of_optional (high d)) 0%float in
  let l := nullish_or (of_optional (low d)) 0%float in
  Some (if Number.gtb h maxH then h else maxH,
        if (l <? minL)%float then l else minL).

Definition rsv_of (C maxH minL : float) : float :=
  if Number.strict_ne maxH minL && Number.strict_ne maxH neg_infinity
  then ((C - minL) / (maxH - minL) * 100)%float
  else 50%float.

(** The loop state is the output array and [lastEMA]. *)
Definition hdy_step (data : list StockDataPoint) (i : nat)
    (st : list float * float) : option (list float * float) :=
  let '(hdy, lastEMA) := st in
  if (i <? HDY_N)%nat then Some (hdy ++ [50%float], lastEMA)
  else
    '(maxH, minL) ← for_from_to (i - HDY_N + 1) i (range_step data)
                       (neg_infinity, infinity);
    d ← data !! i;
    let C := close d in
    let rsv := rsv_of C maxH minL in
    let stdEMA := ((2 * rsv + (HDY_M - 1) * lastEMA) / (HDY_M + 1))%float in
    Some (hdy ++ [Number.round_to 2 stdEMA], stdEMA).

Definition calculateHDY (data : list StockDataPoint) : option (list float) :=
  fst <$> for_range (length data) 0 (hdy_step data) ([], 50%float).

(** ** Backtest (utils: runStrategy) *)

Definition initialCapital : float := 100000%float.

Inductive Action := ABuy | ASell | AHold.

(** The variables the main loop assigns. *)
Record Sim := {
  cash : float;
  holdings : float;
  sim_capitalCurve : list CurvePoint;
  sim_benchmarkCurve : list CurvePoint;
  sim_trades : list Trade
}.

Definition is_null (v : JSValue) : bool :=
  match v with Null => true | _ => false end.

(** [ma[z]] as a JavaScript value: out of range reads give [undefined]. *)
Definition ma_at (ma : list (option float)) (z : Z) : JSValue :=
  match at_index ma z with
  | Some v => of_nullable v
  | None => Undefined
  end.

(** [while (startIndex < data.length &&
            (isNaN(data[startIndex].close) || ma100[startIndex] === null))
      startIndex++;]
    The loop runs at most [data.length] times, which bounds [fuel]. *)
Fixpoint find_start (fuel : nat) (data : list StockDataPoint)
    (ma100 : list (option float)) (startIndex : nat) : option nat :=
  match fuel with
  | O => Some startIndex
  | S fuel' =>
      if (startIndex <? length data)%nat then
        d ← data !! startIndex;
        if Number.isNaN (close d) || is_null (ma_at ma100 (Z.of_nat startIndex))
        then find_start fuel' data ma100 (S startIndex)
        else Some startIndex
      else Some startIndex
  end.

(** The crossover signal at index [i]. *)
Definition signal (ma10 ma100 : list (option float)) (i : nat) : Action :=
  let prevMA10 := ma_at ma10 (Z.of_nat i - 1) in
  let prevMA100 := ma_at ma100 (Z.of_nat i - 1) in
  let currMA10 := ma_at ma10 (Z.of_nat i) in
  let currMA100 := ma_at ma100 (Z.of_nat i) in
  if negb (is_null prevMA10) && negb (is_null prevMA100)
     && negb (is_null currMA10) && negb (is_null currMA100)
  then
    let action :=
      if (to_number prevMA10 <=? to_number prevMA100)%float
         && Number.gtb (to_number currMA10) (to_number currMA100)
      then ABuy else AHold in
    if Number.geb (to_number prevMA10) (to_number prevMA100)
       && (to_number currMA10 <? to_number currMA100)%float
    then ASell else action
  else AHold.

(** The trading branch of the loop body. *)
Definition trade (action : Action) (date : string) (price : float) (st : Sim)
  : Sim :=
  match action with
  | ABuy =>
      if Number.strict_eq (holdings st) 0%float then
        {| cash := 0%float;
           holdings := (cash st / price)%float;
           sim_capitalCurve := sim_capitalCurve st;
           sim_benchmarkCurve := sim_benchmarkCurve st;
           sim_trades := sim_trades st ++
             [{| trade_date := date; type := buy; price := price;
                 desc := "金叉买入" |}] |}
      else st
  | ASell =>
      if Number.gtb (holdings st) 0%float then
        {| cash := (holdings st * price)%float;
           holdings := 0%float;
           sim_capitalCurve := sim_capitalCurve st;
           sim_benchmarkCurve := sim_benchmarkCurve st;
           sim_trades := sim_trades st ++
             [{| trade_date := date; type := sell; price := price;
                 desc := "死叉卖出" |}] |}
      else st
  | AHold => st
  end.

Definition push_benchmark (p : CurvePoint) (st : Sim) : Sim :=
  {| cash := cash st; holdings := holdings st;
     sim_capitalCurve := sim_capitalCurve st;
     sim_benchmarkCurve := sim_benchmarkCurve st ++ [p];
     sim_trades := sim_trades st |}.

Definition push_capital (p : CurvePoint) (st : Sim) : Sim :=
  {| cash := cash st; holdings := holdings st;
     sim_capitalCurve := sim_capitalCurve st ++ [p];
     sim_benchmarkCurve := sim_benchmarkCurve st;
     sim_trades := sim_trades st |}.

(** The body of [for (let i = 0; i < data.length; i++)]. *)
Definition strategy_step (data : list StockDataPoint)
    (ma10 ma100 : list (option float)) (startIndex : nat)
    (initialPrice : float) (i : nat) (st : Sim) : option Sim :=
  d ← data !! i;
  if (i <? startIndex)%nat then
    Some (push_benchmark {| point_date := date d; value := 1%float |}
            (push_capital {| point_date := date d; value := 1%float |} st))
  else
    let price := close d in
    let date := date d in
    let benchmarkNetVal := (price / initialPrice)%float in
    let st := push_benchmark
                {| point_date := date;
                   value := Number.round_to 4 benchmarkNetVal |} st in
    let action := signal ma10 ma100 i in
    let st := trade action date price st in
    let totalAsset := (cash st + holdings st * price)%float in
    let strategyNetVal := (totalAsset / initialCapital)%float in
    Some (push_capital
            {| point_date := date;
               value := Number.round_to 4 strategyNetVal |} st).

(** [curve[curve.length - 1]?.value || 1]. *)
Definition last_value_or_1 (curve : list CurvePoint) : float :=
  match last curve with
  | Some p => if Number.truthy (value p) then value p else 1%float
  | None => 1%float
  end.

(** [xs.filter((x, i) => p(x, i))] for a callback that may throw. *)
Fixpoint filter_indexed {A} (p : A → nat → option bool) (xs : list A) (i : nat)
  : option (list A) :=
  match xs with
  | [] => Some []
  | x :: xs' =>
      b ← p x i;
      rest ← filter_indexed p xs' (S i);
      Some (if (b : bool) then x :: rest else rest)
  end.

Definition is_sell (t : Trade) : bool := TradeType_eqb (type t) sell.

(** [(t, i) => t.type === 'sell' && t.price > trades[i - 1].price];
    reading [.price] of [undefined] throws. *)
Definition is_win (trades : list Trade) (t : Trade) (i : nat) : option bool :=
  if is_sell t then
    prev ← at_index trades (Z.of_nat i - 1);
    Some (Number.gtb (price t) (price prev))
  else Some false.

Definition neutral_result : BacktestResult :=
  {| trades := []; capitalCurve := []; benchmarkCurve := [];
     finalNetValue := 1%float; returnRate := "0.00"; benchmarkReturn := "0.00";
     winRate := "0"; tradeCount := 0 |}.

Definition initial_sim : Sim :=
  {| cash := 100000%float; holdings := 0%float; sim_capitalCurve := [];
     sim_benchmarkCurve := []; sim_trades := [] |}.

(** The summary computed after the loop. *)
Definition summarize (st : Sim) : option BacktestResult :=
  let finalNetValue := last_value_or_1 (sim_capitalCurve st) in
  let returnRate := Number.toFixed 2 ((finalNetValue - 1) * 100) in
  let finalBenchmarkNetValue := last_value_or_1 (sim_benchmarkCurve st) in
  let benchmarkReturn := Number.toFixed 2 ((finalBenchmarkNetValue - 1) * 100) in
  let totalSellTrades := length (List.filter is_sell (sim_trades st)) in
  wins ← filter_indexed (is_win (sim_trades st)) (sim_trades st) 0;
  let winTrades := length wins in
  let winRate :=
    if (0 <? totalSellTrades)%nat
    then Number.toFixed 0
           (Number.of_nat winTrades / Number.of_nat totalSellTrades * 100)
    else "0"%string in
  Some {| trades := sim_trades st;
          capitalCurve := sim_capitalCurve st;
          benchmarkCurve := sim_benchmarkCurve st;
          finalNetValue := finalNetValue;
          returnRate := returnRate;
          benchmarkReturn := benchmarkReturn;
          winRate := winRate;
          tradeCount := length (sim_trades st) |}.

Definition runStrategy (data : list StockDataPoint) : option BacktestResult :=
  ma10 ← calculateMA 10 data FVolume;
  ma100 ← calculateMA 100 data FVolume;
  startIndex ← find_start (length data) data ma100 100;
  if (length data <=? startIndex)%nat then Some neutral_result
  else
    d0 ← data !! startIndex;
    let initialPrice := close d0 in
    st ← for_range (length data) 0
           (strategy_step data ma10 ma100 startIndex initialPrice) initial_sim;
    summarize st.

(** ** Data sync (services: syncData) *)

(** What a rejected promise carries. *)
Inductive Exn := GetItemFailed | SetItemFailed | FetchFailed.

Inductive Outcome (A : Type) :=
| Resolved (a : A)
| Rejected (e : Exn).
Arguments Resolved {A} a.
Arguments Rejected {A} e.

(** The localforage instance as one call of [syncData] meets it: for which
    keys a read or a write is rejected during that call. A store whose
    failures come and go is a different [Storage] from one call to the next.
    The stored content is the state threaded through [Async]. *)
Record Storage := {
  getItem_fails : string → bool;
  setItem_fails : string → bool
}.

(** Calls made to the store, oldest first. *)
Inductive CacheOp :=
| OpGet (key : string) (ok : bool)
| OpSet (key : string) (v : list StockDataPoint) (ok : bool).

(** An awaited computation over the store content: its outcome, the content
    it leaves, and the store calls it made. *)
Definition Async (A : Type) : Type :=
  gmap string (list StockDataPoint) →
  Outcome A * gmap string (list StockDataPoint) * list CacheOp.

Definition ret {A} (a : A) : Async A := λ items, (Resolved a, items, []).

Definition bind {A B} (m : Async A) (k : A → Async B) : Async B :=
  λ items,
    match m items with
    | (Resolved a, items', ops) =>
        let '(r, items'', ops') := k a items' in (r, items'', ops ++ ops')
    | (Rejected e, items', ops) => (Rejected e, items', ops)
    end.

(** [try { m } catch (e) { h(e) }]. *)
Definition try_catch {A} (m : Async A) (h : Exn → Async A) : Async A :=
  λ items,
    match m items with
    | (Resolved a, items', ops) => (Resolved a, items', ops)
    | (Rejected e, items', ops) =>
        let '(r, items'', ops') := h e items' in (r, items'', ops ++ ops')
    end.

(** Awaiting a promise that does not touch the store. *)
Definition await {A} (o : Outcome A) : Async A := λ items, (o, items, []).

Declare Scope async_scope.
Delimit Scope async_scope with async.
Notation "x <- m ;; k" := (bind m (λ x, k))
  (at level 100, m at next level, right associativity) : async_scope.
Notation "m ;; k" := (bind m (λ _, k))
  (at level 100, right associativity) : async_scope.

(** [localforage.getItem(key)]: the stored value, or [null]. *)
Definition getItem (sto : Storage) (key : string)
  : Async (option (list StockDataPoint)) :=
  λ items,
    if getItem_fails sto key then (Rejected GetItemFailed, items, [OpGet key false])
    else (Resolved (items !! key), items, [OpGet key true]).

(** [localforage.setItem(key, v)]. *)
Definition setItem (sto : Storage) (key : string) (v : list StockDataPoint)
  : Async unit :=
  λ items,
    if setItem_fails sto key then (Rejected SetItemFailed, items, [OpSet key v false])
    else (Resolved (), <[key := v]> items, [OpSet key v true]).

(** [d.date > lastDate] on strings. *)
Definition date_gtb (a b : string) : bool := String.ltb b a.

(** Truthiness of [lastDate : string | undefined]: the empty string and
    [undefined] are falsy. *)
Definition truthy_date (lastDate : option string) : bool :=
  match lastDate with
  | Some s => negb (String.eqb s "")
  | None => false
  end.

Definition last_date (cached : list StockDataPoint) : option string :=
  if (0 <? length cached)%nat then date <$> last cached else None.

(** The body of the [try] block. *)
Definition syncData_try (sto : Storage) (key : string)
    (fetchFn : option string → Outcome (list StockDataPoint))
  : Async (list StockDataPoint) :=
  (stored <- getItem sto key ;;
   let cached := default [] stored in
   let lastDate := last_date cached in
   newData <- await (fetchFn lastDate) ;;
   if (length newData =? 0)%nat then ret cached
   else if truthy_date lastDate then
     let freshData :=
       List.filter (λ d, date_gtb (date d) (default ""%string lastDate)) newData in
     if (0 <? length freshData)%nat then
       let finalData := cached ++ freshData in
       setItem sto key finalData ;;
       ret finalData
     else ret cached
   else
     setItem sto key newData ;;
     ret newData)%async.

Definition syncData (sto : Storage) (key : string)
    (fetchFn : option string → Outcome (list StockDataPoint))
  : Async (list StockDataPoint) :=
  try_catch (syncData_try sto key fetchFn) (λ _, await (fetchFn None)).

(** * Properties *)

(** ** Dates and their order *)

Definition bar_lt (a b : StockDataPoint) : Prop :=
  String.ltb (date a) (date b) = true.

(** Every bar is dated strictly before every later bar. *)
Definition strictly_increasing (bars : list StockDataPoint) : Prop :=
  StronglySorted bar_lt bars.

(** Ascending date order: no bar is dated before an earlier one; a date may
    repeat. *)
Definition bar_le (a b : StockDataPoint) : Prop :=
  String.leb (date a) (date b) = true.

Definition ascending (bars : list StockDataPoint) : Prop :=
  StronglySorted bar_le bars.

Lemma string_compare_refl (s : string) : String.compare s s = Eq.
Proof.
  induction s as [|c s IH]; simpl; [done|].
  unfold Ascii.compare. by rewrite N.compare_refl.
Qed.

Lemma string_compare_lt_trans (a b c : string) :
  String.compare a b = Lt → String.compare b c = Lt → String.compare a c = Lt.
Proof.
  revert b c. induction a as [|x a IH]; intros [|y b] [|z c]; simpl; try done.
  unfold Ascii.compare.
  destruct (N.compare_spec (N_of_ascii x) (N_of_ascii y)) as [Hxy|Hxy|Hxy];
    destruct (N.compare_spec (N_of_ascii y) (N_of_ascii z)) as [Hyz|Hyz|Hyz];
    try done; intros H1 H2.
  - rewrite Hxy, Hyz, N.compare_refl. eauto.
  - rewrite Hxy. by apply N.compare_lt_iff in Hyz as ->.
  - rewrite <- Hyz. by apply N.compare_lt_iff in Hxy as ->.
  - assert (N_of_ascii x < N_of_ascii z)%N as Hxz by lia.
    by apply N.compare_lt_iff in Hxz as ->.
Qed.

Lemma string_ltb_trans (a b c : string) :
  String.ltb a b = true → String.ltb b c = true → String.ltb a c = true.
Proof.
  unfold String.ltb. intros H1 H2.
  destruct (String.compare a b) eqn:Hab; try done.
  destruct (String.compare b c) eqn:Hbc; try done.
  by rewrite (string_compare_lt_trans a b c).
Qed.

Lemma string_ltb_irrefl (a : string) : String.ltb a a = false.
Proof. unfold String.ltb. by rewrite string_compare_refl. Qed.

Lemma string_ltb_empty (a : string) : String.ltb a "" = false.
Proof. by destruct a. Qed.

#[local] Instance bar_lt_trans : Transitive bar_lt.
Proof. intros a b c. apply string_ltb_trans. Qed.

#[local] Instance bar_lt_dec a b : Decision (bar_lt a b).
Proof. unfold bar_lt. apply _. Defined.

#[local] Instance strictly_increasing_dec bars : Decision (strictly_increasing bars).
Proof. unfold strictly_increasing. apply _. Defined.

Lemma bar_lt_irrefl (a : StockDataPoint) : ¬ bar_lt a a.
Proof. unfold bar_lt. by rewrite string_ltb_irrefl. Qed.

Lemma strictly_increasing_filter (p : StockDataPoint → bool) bars :
  strictly_increasing bars → strictly_increasing (List.filter p bars).
Proof.
  induction 1 as [|b bars Hs IH Hall]; simpl; [constructor|].
  destruct (p b); [|done].
  constructor; [done|].
  apply List.Forall_forall. intros x [Hx _]%filter_In.
  rewrite List.Forall_forall in Hall. by apply Hall.
Qed.

Lemma strictly_increasing_NoDup bars :
  strictly_increasing bars → NoDup (date <$> bars).
Proof.
  induction 1 as [|b bars Hs IH Hall]; simpl; constructor; [|done].
  intros (b' & Heq & Hin)%list_elem_of_fmap.
  rewrite List.Forall_forall in Hall.
  apply list_elem_of_In, Hall in Hin.
  unfold bar_lt in Hin. rewrite Heq in Hin.
  by rewrite string_ltb_irrefl in Hin.
Qed.

(** ** The paths of [syncData] *)

Definition fresh_after (lastDate : option string) (newData : list StockDataPoint)
  : list StockDataPoint :=
  List.filter (λ d, date_gtb (date d) (default ""%string lastDate)) newData.

(** [syncData] path by path: which outcome, store content and store calls each
    combination of cache state, fetch result and store failure leads to. *)
Lemma syncData_unfold sto key fetchFn items :
  syncData sto key fetchFn items =
    if getItem_fails sto key then (fetchFn None, items, [OpGet key false])
    else
      let cached := default [] (items !! key) in
      let lastDate := last_date cached in
      match fetchFn lastDate with
      | Rejected _ => (fetchFn None, items, [OpGet key true])
      | Resolved newData =>
          if (length newData =? 0)%nat then (Resolved cached, items, [OpGet key true])
          else if truthy_date lastDate then
            let freshData := fresh_after lastDate newData in
            if (0 <? length freshData)%nat then
              if setItem_fails sto key then
                (fetchFn None, items,
                 [OpGet key true; OpSet key (cached ++ freshData) false])
              else
                (Resolved (cached ++ freshData),
                 <[key := cached ++ freshData]> items,
                 [OpGet key true; OpSet key (cached ++ freshData) true])
            else (Resolved cached, items, [OpGet key true])
          else
            if setItem_fails sto key then
              (fetchFn None, items, [OpGet key true; OpSet key newData false])
            else
              (Resolved newData, <[key := newData]> items,
               [OpGet key true; OpSet key newData true])
      end.
Proof.
  unfold syncData, try_catch, syncData_try, bind, getItem, await, ret, setItem,
    fresh_after.
  destruct (getItem_fails sto key); [done|]. simpl.
  destruct (fetchFn (last_date (default [] (items !! key)))) as [newData|e];
    [|done]. simpl.
  destruct (length newData =? 0)%nat; [done|].
  destruct (truthy_date _).
  - destruct (0 <? length _)%nat; [|done].
    by destruct (setItem_fails sto key).
  - by destruct (setItem_fails sto key).
Qed.

(** Case analysis along the paths of [syncData], in source order: read
    fails; nothing fetched; fresh bars (write fails / succeeds); no fresh bar;
    initial fetch (write fails / succeeds); fetch rejected. *)
Ltac sync_cases :=
  rewrite syncData_unfold; cbv zeta;
  destruct (getItem_fails _ _) eqn:?;
  [|destruct (_ (last_date _)) as [?newData|?] eqn:?;
    [destruct (length _ =? 0)%nat eqn:?;
     [|destruct (truthy_date _) eqn:?;
       [destruct (0 <? _)%nat eqn:?; [destruct (setItem_fails _ _) eqn:?|]
       |destruct (setItem_fails _ _) eqn:?]]
    |]].

Lemma last_date_Some cached d :
  last_date cached = Some d →
  ∃ init b, cached = init ++ [b] ∧ date b = d.
Proof.
  unfold last_date. destruct (0 <? length cached)%nat; [|done].
  destruct (last cached) as [b|] eqn:Hlast; [|done].
  intros [= <-]. apply last_Some in Hlast as [init ->]. eauto.
Qed.

Lemma last_date_snoc init b : last_date (init ++ [b]) = Some (date b).
Proof.
  unfold last_date. rewrite length_app, last_snoc. simpl.
  by replace (0 <? length init + 1)%nat with true
    by (symmetry; apply Nat.ltb_lt; lia).
Qed.

Lemma last_date_nil_iff cached : last_date cached = None ↔ cached = [].
Proof.
  split; [|by intros ->].
  destruct cached as [|b cached _] using rev_ind; [done|].
  by rewrite last_date_snoc.
Qed.

(** Appending the bars dated after the last cached one keeps the order. *)
Lemma strictly_increasing_merge cached newData :
  strictly_increasing cached →
  strictly_increasing newData →
  strictly_increasing (cached ++ fresh_after (last_date cached) newData).
Proof.
  intros Hc Hn. apply StronglySorted_app_2.
  - intros x1 x2 Hx1 Hx2.
    apply list_elem_of_In, filter_In in Hx2 as [_ Hgt].
    destruct (last_date cached) as [d|] eqn:Hd.
    + apply last_date_Some in Hd as (init & b & -> & <-).
      simpl in Hgt. unfold date_gtb in Hgt.
      apply StronglySorted_app in Hc as (Hc & _ & _).
      apply elem_of_app in Hx1 as [Hx1|Hx1%list_elem_of_singleton].
      * etrans; [apply (Hc x1 b Hx1); by apply list_elem_of_singleton|done].
      * by subst.
    + apply last_date_nil_iff in Hd as ->. by apply elem_of_nil in Hx1.
  - exact Hc.
  - by apply strictly_increasing_filter.
Qed.

Lemma strictly_increasing_lookup bars i j a b :
  strictly_increasing bars → (i < j)%nat →
  bars !! i = Some a → bars !! j = Some b → bar_lt a b.
Proof.
  intros Hs. revert i j. induction Hs as [|x bars Hs IH Hall]; intros i j Hij Hi Hj.
  - done.
  - destruct j as [|j]; [lia|]. destruct i as [|i]; simpl in *.
    + injection Hi as <-. rewrite List.Forall_forall in Hall.
      apply Hall, list_elem_of_In. by eapply list_elem_of_lookup_2.
    + apply (IH i j); [lia|done..].
Qed.

Lemma bar_lt_asym a b : bar_lt a b → String.ltb (date b) (date a) = false.
Proof.
  intros Hab. destruct (String.ltb (date b) (date a)) eqn:Hba; [|done].
  exfalso. apply (bar_lt_irrefl a). by etrans.
Qed.

Lemma filter_none {A} (p : A → bool) (l : list A) :
  (∀ x, x ∈ l → p x = false) → List.filter p l = [].
Proof.
  induction l as [|x l IH]; intros H; simpl; [done|].
  rewrite (H x) by apply list_elem_of_here.
  apply IH. intros y Hy. apply H. by apply list_elem_of_further.
Qed.

Lemma filter_all {A} (p : A → bool) (l : list A) :
  (∀ x, x ∈ l → p x = true) → List.filter p l = l.
Proof.
  induction l as [|x l IH]; intros H; simpl; [done|].
  rewrite (H x) by apply list_elem_of_here.
  f_equal. apply IH. intros y Hy. apply H. by apply list_elem_of_further.
Qed.

(** A fetch that overlaps the cache: the cache holds the first [n] dates of
    [ds], the fetch returns the dates of [ds] from position [k] on. *)
Lemma fresh_after_overlap ds n k cached fetched :
  (k < n)%nat → (2 ≤ n ≤ length ds)%nat →
  date <$> cached = take n ds →
  date <$> fetched = drop k ds →
  strictly_increasing cached → strictly_increasing fetched →
  truthy_date (last_date cached) = true ∧
  fresh_after (last_date cached) fetched = drop (n - k) fetched.
Proof.
  intros Hk Hn Hc Hf Sc Sf.
  assert (length cached = n) as Hlen.
  { rewrite <- (length_fmap date cached), Hc, length_take. lia. }
  destruct cached as [|c cached _] using rev_ind; [simpl in Hlen; lia|].
  rewrite last_date_snoc.
  rewrite length_app in Hlen. simpl in Hlen.
  assert (ds !! (n - 1)%nat = Some (date c)) as Hd.
  { rewrite <- (lookup_take_lt ds n (n - 1)) by lia.
    rewrite <- Hc, list_lookup_fmap, lookup_app_r by lia.
    by replace (n - 1 - length cached)%nat with 0%nat by lia. }
  assert (∃ b, fetched !! (n - 1 - k)%nat = Some b ∧ date b = date c)
    as (b & Hb & Hbc).
  { assert ((date <$> fetched) !! (n - 1 - k)%nat = Some (date c)) as H.
    { rewrite Hf, lookup_drop. by replace (k + (n - 1 - k))%nat with (n - 1)%nat by lia. }
    rewrite list_lookup_fmap in H.
    destruct (fetched !! (n - 1 - k)%nat) as [b|]; [|done].
    injection H as H. eauto. }
  split.
  - destruct cached as [|c' cached _] using rev_ind; [simpl in Hlen; lia|].
    simpl. apply negb_true_iff, String.eqb_neq. intros Hempty.
    assert (bar_lt c' c) as Hlt.
    { apply (strictly_increasing_lookup _ (length cached) (S (length cached)) _ _ Sc);
        [lia| |].
      - rewrite <- app_assoc. by apply list_lookup_middle.
      - rewrite lookup_app_r; rewrite length_app; simpl; [|lia].
        by replace (S (length cached) - (length cached + 1))%nat with 0%nat by lia. }
    unfold bar_lt in Hlt. by rewrite Hempty, string_ltb_empty in Hlt.
  - unfold fresh_after. simpl.
    rewrite <- (take_drop (n - k) fetched) at 1.
    rewrite List.filter_app, filter_none, filter_all; [done| |].
    + intros x (i & Hx)%list_elem_of_lookup_1. rewrite lookup_drop in Hx.
      unfold date_gtb. rewrite <- Hbc.
      apply (strictly_increasing_lookup fetched (n - 1 - k) (n - k + i)); [done|lia|done..].
    + intros x (i & Hx)%list_elem_of_lookup_1.
      apply lookup_take_Some in Hx as [Hx Hi].
      unfold date_gtb. rewrite <- Hbc.
      destruct (decide (i = n - 1 - k)%nat) as [->|Hne].
      * rewrite Hb in Hx. injection Hx as <-. apply string_ltb_irrefl.
      * apply bar_lt_asym.
        apply (strictly_increasing_lookup fetched i (n - 1 - k)); [done|lia|done..].
Qed.

(** ** C1: merged sequences keep strictly increasing, duplicate-free dates *)

(** C1 (amended). For every cache state whose sequence under [key] has
    strictly increasing dates and every fetch function whose results have
    strictly increasing dates (ascending, no date repeated), whatever
    [syncData] returns has strictly increasing dates without duplicates; it
    does return when the fetch function does; and with cached dates
    [d1..d10] and a fetch returning the bars dated [d8..d15], the merged
    sequence is the cached one followed by the last five fetched bars, its
    dates being [d1..d15]. *)
Theorem syncData_strictly_increasing sto key fetchFn items :
  (∀ cached, items !! key = Some cached → strictly_increasing cached) →
  (∀ since bars, fetchFn since = Resolved bars → strictly_increasing bars) →
  (∀ merged items' ops,
     syncData sto key fetchFn items = (Resolved merged, items', ops) →
     strictly_increasing merged ∧ NoDup (date <$> merged))
  ∧ ((∀ since, ∃ bars, fetchFn since = Resolved bars) →
     ∃ merged items' ops,
       syncData sto key fetchFn items = (Resolved merged, items', ops))
  ∧ (∀ ds cached fetched,
       length ds = 15%nat →
       items !! key = Some cached →
       date <$> cached = take 10 ds →
       fetchFn (last_date cached) = Resolved fetched →
       date <$> fetched = drop 7 ds →
       getItem_fails sto key = false →
       setItem_fails sto key = false →
       ∃ items' ops,
         syncData sto key fetchFn items
           = (Resolved (cached ++ drop 3 fetched), items', ops)
         ∧ date <$> (cached ++ drop 3 fetched) = ds).
Proof.
  intros Hcache Hfetch.
  assert (strictly_increasing (default [] (items !! key))) as Hc.
  { destruct (items !! key) as [cached|] eqn:Hk; simpl; [eauto|constructor]. }
  split_and!.
  - intros merged items' ops Hrun.
    assert (strictly_increasing merged) as Hm;
      [|eauto using strictly_increasing_NoDup].
    revert Hrun. sync_cases; intros [= Hr _ _]; subst; eauto.
    apply strictly_increasing_merge; eauto.
  - intros Htotal. destruct (Htotal None) as [bars0 Hnone].
    sync_cases; rewrite ?Hnone; eauto.
  - intros ds cached fetched Hlen Hk Hdc Hf Hdf Hget Hset.
    rewrite Hk in Hc. simpl in Hc.
    assert (strictly_increasing fetched) as Hsf by eauto.
    destruct (fresh_after_overlap ds 10 7 cached fetched) as [Ht Hfresh];
      [lia|lia|done..|].
    simpl in Hfresh.
    assert (length fetched = 8%nat) as Hlf.
    { rewrite <- (length_fmap date fetched), Hdf, length_drop. lia. }
    rewrite syncData_unfold, Hget, Hk. simpl. rewrite Hf, Ht, Hfresh, Hset.
    replace (length fetched =? 0)%nat with false
      by (symmetry; apply Nat.eqb_neq; lia).
    replace (0 <? length (drop 3 fetched))%nat with true
      by (symmetry; apply Nat.ltb_lt; rewrite length_drop; lia).
    do 2 eexists. split; [done|].
    rewrite fmap_app, fmap_drop, Hdc, Hdf, drop_drop. simpl.
    apply (take_drop 10).
Qed.

(** ** C5: repeated sync without new bars *)

Definition is_write (op : CacheOp) : bool :=
  match op with OpSet _ _ _ => true | OpGet _ _ => false end.

(** The [setItem] calls among the store calls of a run. *)
Definition writes (ops : list CacheOp) : list CacheOp := List.filter is_write ops.

(** The fetch brings nothing beyond the cache: no bar dated after the last
    cached date, and no bar at all when the cache is empty. *)
Definition no_new_bars (lastDate : option string)
    (newData : list StockDataPoint) : Prop :=
  match lastDate with
  | Some d => Forall (λ b, date_gtb (date b) d = false) newData
  | None => newData = []
  end.



(** ** C6, C7: the uncached fallback *)

Definition op_failed (op : CacheOp) : bool :=
  match op with
  | OpGet _ ok => negb ok
  | OpSet _ _ ok => negb ok
  end.

(** A read or a write of the store was rejected during the run. *)
Definition cache_failed (ops : list CacheOp) : bool := existsb op_failed ops.

(** C6 (amended). If a read or a write of the store fails during
    [syncData], the call ends as [fetchFn(undefined)] ends: it resolves with
    the fetched sequence when that fetch resolves, and is rejected with the
    fetch's error when that fetch is rejected; the store content is left as
    it was, and no write was stored. *)
Theorem syncData_cache_failure_fallback sto key fetchFn items r items' ops :
  syncData sto key fetchFn items = (r, items', ops) →
  cache_failed ops = true →
  r = fetchFn None
  ∧ (∀ bars, fetchFn None = Resolved bars → r = Resolved bars)
  ∧ (∀ e, fetchFn None = Rejected e → r = Rejected e)
  ∧ items' = items
  ∧ (∀ k v, OpSet k v true ∉ ops).
Proof.
  sync_cases; intros [= <- <- <-]; simpl; try done; intros _;
    (split_and!; [done|by intros|by intros|done|]);
    intros k v Hin;
    repeat (apply elem_of_cons in Hin as [?|Hin]; [done|]);
    by apply elem_of_nil in Hin.
Qed.

(** C7 (amended). On the fallback path [syncData] hands back the sequence
    fetched without a since-date as it is: the returned sequence has strictly
    increasing, duplicate-free dates provided that fetch result has strictly
    increasing dates. *)
Theorem syncData_fallback_returns_fetch sto key fetchFn items merged items' ops :
  syncData sto key fetchFn items = (Resolved merged, items', ops) →
  cache_failed ops = true →
  fetchFn None = Resolved merged
  ∧ ((∀ bars, fetchFn None = Resolved bars → strictly_increasing bars) →
     strictly_increasing merged ∧ NoDup (date <$> merged)).
Proof.
  intros Hrun Hfail.
  assert (fetchFn None = Resolved merged) as Hf.
  { revert Hrun Hfail. sync_cases; intros [= Hr _ <-]; simpl; done. }
  split; [done|]. intros Hs. split; [|apply strictly_increasing_NoDup]; eauto.
Qed.

(** ** Sample runs of [syncData] *)

Module SyncExamples.

Definition bar (d : string) (c v : float) : StockDataPoint :=
  {| date := d; close := c; open := None; high := None; low := None;
     volume := v; index := None; bondPrice := None; maShort := None;
     maLong := None; maCustom := None; hdy := None |}.

(** A store that never fails, and one whose reads are rejected. *)
Definition sto_ok : Storage :=
  {| getItem_fails := λ _, false; setItem_fails := λ _, false |}.
Definition sto_unreadable : Storage :=
  {| getItem_fails := λ _, true; setItem_fails := λ _, false |}.

Definition days : list string :=
  ["2024-01-01"; "2024-01-02"; "2024-01-03"; "2024-01-04"; "2024-01-05";
   "2024-01-08"; "2024-01-09"; "2024-01-10"; "2024-01-11"; "2024-01-12";
   "2024-01-15"; "2024-01-16"; "2024-01-17"; "2024-01-18"; "2024-01-19"]%string.

Definition cached10 : list StockDataPoint :=
  (λ d, bar d 3000 1) <$> take 10 days.
Definition fetched8 : list StockDataPoint :=
  (λ d, bar d 3001 2) <$> drop 7 days.

(** A source that answers with the bars from the since-date on. *)
Definition fetch_overlap (since : option string)
  : Outcome (list StockDataPoint) :=
  match since with
  | Some _ => Resolved fetched8
  | None => Resolved ((λ d, bar d 3001 2) <$> days)
  end.

Definition items10 : gmap string (list StockDataPoint) :=
  {[ "volume_data_v2"%string := cached10 ]}.

(** The empty date: a cached bar whose date is the empty string. *)
Definition undated : StockDataPoint := bar "" 3000 1.

Definition fetch_undated (since : option string)
  : Outcome (list StockDataPoint) := Resolved [undated].

(** A source that repeats a date. *)
Definition twice : list StockDataPoint :=
  [bar "2024-01-02" 3000 1; bar "2024-01-02" 3000 1].
Definition fetch_twice (since : option string)
  : Outcome (list StockDataPoint) := Resolved twice.

(** A source that answers in ascending order with a date repeated, all its
    bars being dated after the cached ones. *)
Definition repeating : list StockDataPoint :=
  [bar "2024-01-15" 3001 2; bar "2024-01-15" 3002 2; bar "2024-01-16" 3003 2].
Definition fetch_repeating (since : option string)
  : Outcome (list StockDataPoint) := Resolved repeating.


(** A source that is down. *)
Definition fetch_down (since : option string)
  : Outcome (list StockDataPoint) := Rejected FetchFailed.

End SyncExamples.

(** C1, as stated, fails: a healthy store holds [d1..d10], the source answers
    in ascending order with a date repeated, and the merged sequence, returned
    and stored, holds that date twice. *)
Lemma syncData_repeated_date_counterexample :
  strictly_increasing SyncExamples.cached10
  ∧ ascending SyncExamples.repeating
  ∧ ∃ items',
      syncData SyncExamples.sto_ok "volume_data_v2"
        SyncExamples.fetch_repeating SyncExamples.items10
      = (Resolved (SyncExamples.cached10 ++ SyncExamples.repeating), items',
         [OpGet "volume_data_v2" true;
          OpSet "volume_data_v2"
            (SyncExamples.cached10 ++ SyncExamples.repeating) true])
      ∧ items' !! "volume_data_v2"%string
        = Some (SyncExamples.cached10 ++ SyncExamples.repeating)
      ∧ ¬ NoDup (date <$> (SyncExamples.cached10 ++ SyncExamples.repeating))
      ∧ ¬ strictly_increasing (SyncExamples.cached10 ++ SyncExamples.repeating).
Proof.
  assert (¬ NoDup (date <$> (SyncExamples.cached10 ++ SyncExamples.repeating)))
    as Hdup.
  { rewrite fmap_app. intros (_ & _ & H)%NoDup_app.
    apply NoDup_cons in H as [H _]. apply H. by left. }
  split_and!.
  - by apply (bool_decide_unpack _).
  - repeat constructor.
  - eexists. split_and!.
    + rewrite syncData_unfold. unfold SyncExamples.items10.
      rewrite lookup_singleton_eq. reflexivity.
    + apply lookup_insert_eq.
    + done.
    + intros H. by apply Hdup, strictly_increasing_NoDup.
Qed.

Lemma syncData_strictly_increasing_witness :
  ∃ items' ops,
    syncData SyncExamples.sto_ok "volume_data_v2" SyncExamples.fetch_overlap
      SyncExamples.items10
    = (Resolved (SyncExamples.cached10 ++ drop 3 SyncExamples.fetched8),
       items', ops)
    ∧ date <$> (SyncExamples.cached10 ++ drop 3 SyncExamples.fetched8)
      = SyncExamples.days.
Proof.
  refine (proj2 (proj2 (syncData_strictly_increasing
            SyncExamples.sto_ok "volume_data_v2" SyncExamples.fetch_overlap
            SyncExamples.items10 _ _))
            SyncExamples.days SyncExamples.cached10 SyncExamples.fetched8
            _ _ _ _ _ _ _).
  - intros cached. unfold SyncExamples.items10.
    rewrite lookup_singleton_eq. intros [= <-].
    by apply (bool_decide_unpack _).
  - intros [d|] bars [= <-]; by apply (bool_decide_unpack _).
  - reflexivity.
  - apply lookup_singleton_eq.
  - reflexivity.
  - reflexivity.
  - reflexivity.
  - reflexivity.
  - reflexivity.
Defined.


(** A cached bar dated with the empty string is taken for an empty cache by
    the test [if (lastDate)]: the fetched bars are written again on every
    call. *)
Example syncData_empty_date_rewrites :
  let items := {[ "k"%string := [SyncExamples.undated] ]} in
  no_new_bars (last_date [SyncExamples.undated]) [SyncExamples.undated]
  ∧ ∃ items1 ops1 items2,
      syncData SyncExamples.sto_ok "k" SyncExamples.fetch_undated items
      = (Resolved [SyncExamples.undated], items1, ops1)
      ∧ syncData SyncExamples.sto_ok "k" SyncExamples.fetch_undated items1
        = (Resolved [SyncExamples.undated], items2,
           [OpGet "k" true; OpSet "k" [SyncExamples.undated] true])
      ∧ writes [OpGet "k" true; OpSet "k" [SyncExamples.undated] true] ≠ [].
Proof.
  intros items. split; [by repeat constructor|].
  do 3 eexists. split_and!.
  - rewrite syncData_unfold. unfold items. rewrite lookup_singleton_eq.
    reflexivity.
  - rewrite syncData_unfold. rewrite lookup_insert_eq. reflexivity.
  - done.
Qed.


(** C6, as stated, fails: the read of the store is rejected and the source is
    down, so the fetch without since-date is rejected too and its error
    reaches the caller. *)
Lemma syncData_cache_failure_counterexample :
  syncData SyncExamples.sto_unreadable "volume_data_v2"
    SyncExamples.fetch_down SyncExamples.items10
  = (Rejected FetchFailed, SyncExamples.items10, [OpGet "volume_data_v2" false])
  ∧ cache_failed [OpGet "volume_data_v2" false] = true.
Proof. split; reflexivity. Qed.

Lemma syncData_cache_failure_fallback_witness :
  Resolved SyncExamples.twice = SyncExamples.fetch_twice None
  ∧ (∀ bars, SyncExamples.fetch_twice None = Resolved bars →
             Resolved SyncExamples.twice = Resolved bars)
  ∧ (∀ e, SyncExamples.fetch_twice None = Rejected e →
          Resolved SyncExamples.twice = Rejected e)
  ∧ SyncExamples.items10 = SyncExamples.items10
  ∧ (∀ k v, OpSet k v true ∉ [OpGet "volume_data_v2" false]).
Proof.
  apply (syncData_cache_failure_fallback SyncExamples.sto_unreadable
           "volume_data_v2" SyncExamples.fetch_twice SyncExamples.items10).
  - reflexivity.
  - reflexivity.
Defined.

(** C7, as stated, fails: with an unreadable store and a source that repeats
    a date, the returned sequence repeats it too. *)
Lemma syncData_fallback_counterexample :
  syncData SyncExamples.sto_unreadable "volume_data_v2"
    SyncExamples.fetch_twice ∅
  = (Resolved SyncExamples.twice, ∅, [OpGet "volume_data_v2" false])
  ∧ cache_failed [OpGet "volume_data_v2" false] = true
  ∧ ¬ NoDup (date <$> SyncExamples.twice)
  ∧ ¬ strictly_increasing SyncExamples.twice.
Proof.
  split_and!; [reflexivity|reflexivity| |].
  - intros H. apply NoDup_cons in H as [H _]. apply H. by left.
  - intros H. apply StronglySorted_inv in H as [_ H].
    apply Forall_inv in H. by vm_compute in H.
Qed.

Lemma syncData_fallback_returns_fetch_witness :
  SyncExamples.fetch_overlap None
  = Resolved ((λ d, SyncExamples.bar d 3001 2) <$> SyncExamples.days)
  ∧ ((∀ bars, SyncExamples.fetch_overlap None = Resolved bars →
              strictly_increasing bars) →
     strictly_increasing ((λ d, SyncExamples.bar d 3001 2) <$> SyncExamples.days)
     ∧ NoDup (date <$> ((λ d, SyncExamples.bar d 3001 2) <$> SyncExamples.days))).
Proof.
  apply (syncData_fallback_returns_fetch SyncExamples.sto_unreadable
           "volume_data_v2" SyncExamples.fetch_overlap SyncExamples.items10
           _ SyncExamples.items10 [OpGet "volume_data_v2" false]).
  - reflexivity.
  - reflexivity.
Defined.

(** ** Loops *)

Lemma for_range_app {St} (n m start : nat) (body : nat → St → option St) s :
  for_range (n + m) start body s
  = for_range n start body s ≫= for_range m (start + n) body.
Proof.
  revert start s. induction n as [|n IH]; intros start s; simpl.
  - by rewrite Nat.add_0_r.
  - destruct (body start s) as [s'|]; simpl; [|done].
    rewrite IH. by replace (S start + n)%nat with (start + S n)%nat by lia.
Qed.

(** A loop whose body maintains an invariant runs to completion and
    establishes the invariant at the final index. *)
Lemma for_range_invariant {St} (Inv : nat → St → Prop) (n start : nat)
    (body : nat → St → option St) s :
  Inv start s →
  (∀ i s, (start ≤ i < start + n)%nat → Inv i s →
          ∃ s', body i s = Some s' ∧ Inv (S i) s') →
  ∃ s', for_range n start body s = Some s' ∧ Inv (start + n)%nat s'.
Proof.
  revert start s. induction n as [|n IH]; intros start s Hs Hbody; simpl.
  - rewrite Nat.add_0_r. eauto.
  - destruct (Hbody start s) as (s' & -> & Hs'); [lia|done|]. simpl.
    replace (start + S n)%nat with (S start + n)%nat by lia.
    apply IH; [done|]. intros i s0 Hi. apply Hbody. lia.
Qed.

(** A loop that pushes one entry per index builds the list of its entries. *)
Lemma for_range_push {A} (f : nat → A) (n start : nat)
    (body : nat → list A → option (list A)) acc :
  (∀ i r, (start ≤ i < start + n)%nat → body i r = Some (r ++ [f i])) →
  for_range n start body acc = Some (acc ++ (f <$> seq start n)).
Proof.
  revert start acc. induction n as [|n IH]; intros start acc Hbody; simpl.
  - by rewrite app_nil_r.
  - rewrite Hbody by lia. simpl. rewrite IH.
    + by rewrite <- app_assoc.
    + intros i r Hi. apply Hbody. lia.
Qed.

(** ** C4: moving average *)

(** The selected field of the [w] bars ending at index [i], latest first:
    the order in which the source adds them up. *)
Definition window_values (field : Field) (data : list StockDataPoint)
    (w i : nat) : list float :=
  (λ d, to_number (read_field field d)) <$> reverse (take w (drop (i + 1 - w) data)).

(** Sum and arithmetic mean in binary64 arithmetic. *)
Definition float_sum (xs : list float) : float :=
  fold_left PrimFloat.add xs 0%float.

Definition float_mean (xs : list float) : float :=
  (float_sum xs / Number.of_nat (length xs))%float.

Lemma at_index_nat {A} (l : list A) (i j : nat) :
  (j ≤ i)%nat → at_index l (Z.of_nat i - Z.of_nat j) = l !! (i - j)%nat.
Proof.
  intros Hj. unfold at_index.
  replace (Z.of_nat i - Z.of_nat j <? 0) with false by (symmetry; apply Z.ltb_ge; lia).
  f_equal. lia.
Qed.

Lemma window_sum_go field data i n j0 s :
  (j0 + n ≤ i + 1)%nat → (i < length data)%nat →
  for_range n j0
    (λ j sum,
       d ← at_index data (Z.of_nat i - Z.of_nat j);
       Some (sum + to_number (read_field field d))%float) s
  = Some (fold_left PrimFloat.add
            ((λ d, to_number (read_field field d))
               <$> reverse (take n (drop (i + 1 - j0 - n) data))) s).
Proof.
  revert j0 s. induction n as [|n IH]; intros j0 s Hj Hi; simpl.
  - done.
  - rewrite at_index_nat by lia.
    destruct (lookup_lt_is_Some_2 data (i - j0)) as [d Hd]; [lia|].
    rewrite Hd. simpl. rewrite IH by lia.
    replace (i + 1 - S j0 - n)%nat with (i + 1 - j0 - S n)%nat by lia.
    rewrite (take_S_r _ n d).
    + by rewrite reverse_snoc.
    + rewrite lookup_drop. rewrite <- Hd. f_equal. lia.
Qed.

Lemma window_sum_spec field data w i :
  (w ≤ i + 1)%nat → (i < length data)%nat →
  window_sum w data field i = Some (float_sum (window_values field data w i)).
Proof.
  intros Hw Hi. unfold window_sum. rewrite window_sum_go by lia.
  unfold float_sum, window_values. by rewrite Nat.sub_0_r.
Qed.

Lemma window_values_length field data w i :
  (w ≤ i + 1)%nat → (i < length data)%nat →
  length (window_values field data w i) = w.
Proof.
  intros Hw Hi. unfold window_values.
  rewrite length_fmap, length_reverse, length_take, length_drop. lia.
Qed.

(** The entry of the moving average at index [i]. *)
Definition ma_entry (w : nat) (data : list StockDataPoint) (field : Field)
    (i : nat) : option float :=
  if (i <? w - 1)%nat then None
  else Some (Number.round_to 4 (float_mean (window_values field data w i))).

Lemma calculateMA_entries w data field :
  calculateMA w data field = Some (ma_entry w data field <$> seq 0 (length data)).
Proof.
  unfold calculateMA.
  rewrite (for_range_push (ma_entry w data field)); [done|].
  intros i r [_ Hi]. simpl in Hi. unfold ma_entry.
  destruct (Nat.ltb_spec i (w - 1)) as [Hlt|Hge].
  - by replace (Z.of_nat i <? Z.of_nat w - 1) with true
      by (symmetry; apply Z.ltb_lt; lia).
  - replace (Z.of_nat i <? Z.of_nat w - 1) with false
      by (symmetry; apply Z.ltb_ge; lia).
    rewrite window_sum_spec by lia. simpl.
    unfold float_mean. by rewrite window_values_length by lia.
Qed.

(** *** Two exact operations: adding to zero, dividing by one *)

Lemma div_eucl_shift (a k : Z) :
  0 ≤ k →
  Z.div_eucl (a * 2 ^ k * 4503599627370496) 4503599627370496 = (a * 2 ^ k, 0).
Proof.
  intros Hk.
  pose proof (Z.div_mul (a * 2 ^ k) 4503599627370496 ltac:(lia)) as Hd.
  pose proof (Z.mod_mul (a * 2 ^ k) 4503599627370496 ltac:(lia)) as Hm.
  unfold Z.div, Z.modulo in Hd, Hm.
  destruct (Z.div_eucl _ _) as [q r]. by subst.
Qed.

(** Dividing a binary64 value by 1 returns it: the quotient is computed with
    one guard bit at most, which the rounding shifts back out. *)
Lemma SFdiv_one s m e :
  bounded prec emax m e = true →
  SFdiv prec emax (S754_finite s m e) (S754_finite false 4503599627370496 (-52))
  = S754_finite s m e.
Proof.
  intros Hb. unfold bounded, canonical_mantissa in Hb.
  apply andb_prop in Hb as [Hc He].
  apply Z.eqb_eq in Hc.
  unfold SFdiv, SFdiv_core_binary.
  change (Zdigits2 4503599627370496) with 53.
  change (Zdigits2 (Z.pos m)) with (Z.pos (digits2_pos m)).
  assert ((Z.pos (digits2_pos m) = 53 ∧ -1074 < e) ∨
          fexp prec emax (Z.pos (digits2_pos m) + e - (53 + -52)) = e)
    as [[Hd Hlt]|He'].
  { revert Hc. unfold fexp, emin, prec, emax. lia. }
  - assert (fexp prec emax (Z.pos (digits2_pos m) + e - (53 + -52)) = e - 1) as ->.
    { revert Hc. unfold fexp, emin, prec, emax. lia. }
    replace ((e - 1) `min` (e - -52)) with (e - 1) by lia.
    replace (e - -52 - (e - 1)) with 53 by lia.
    rewrite Z.shiftl_mul_pow2 by lia.
    replace (Z.pos m * 2 ^ 53) with (Z.pos m * 2 ^ 1 * 4503599627370496) by lia.
    rewrite div_eucl_shift by lia.
    change (new_location 4503599627370496 0) with loc_Exact.
    replace (Z.pos m * 2 ^ 1) with (Z.pos m~0) by lia.
    unfold binary_round_aux, shr_fexp.
    change (Zdigits2 (Z.pos m~0)) with (Z.pos (Pos.succ (digits2_pos m))).
    rewrite Pos2Z.inj_succ, Hd.
    replace (fexp prec emax (Z.succ 53 + (e - 1)) - (e - 1)) with 1
      by (unfold fexp, emin, prec, emax; lia).
    simpl shr. cbv beta iota.
    replace (e - 1 + 1) with e by lia.
    cbn [round_nearest_even shr_m loc_of_shr_record Zdigits2].
    rewrite Hc, Z.sub_diag. simpl. rewrite He. by destruct s.
  - rewrite He'.
    replace (e `min` (e - -52)) with e by lia.
    replace (e - -52 - e) with 52 by lia.
    rewrite Z.shiftl_mul_pow2 by lia.
    replace (Z.pos m * 2 ^ 52) with (Z.pos m * 2 ^ 0 * 4503599627370496) by lia.
    rewrite div_eucl_shift by lia.
    change (new_location 4503599627370496 0) with loc_Exact.
    replace (Z.pos m * 2 ^ 0) with (Z.pos m) by lia.
    unfold binary_round_aux, shr_fexp.
    cbn [Zdigits2].
    rewrite Hc, Z.sub_diag.
    cbn [shr round_nearest_even shr_m loc_of_shr_record Zdigits2 shr_record_of_loc].
    rewrite Hc, Z.sub_diag. simpl. rewrite He. by destruct s.
Qed.

Lemma float_div_one (x : float) : (x / 1)%float = x.
Proof.
  apply Prim2SF_inj. rewrite div_spec.
  change (Prim2SF 1) with (S754_finite false 4503599627370496 (-52)).
  pose proof (Prim2SF_valid x) as Hv.
  destruct (Prim2SF x) as [s|s| |s m e]; try done.
  - by destruct s.
  - by destruct s.
  - by apply SFdiv_one.
Qed.

(** [0 + x] is [x], except that [0 + (-0)] is [0]. *)
Lemma float_zero_add (x : float) :
  (0 + x)%float = x ∨ ((0 + x)%float = 0%float ∧ x = neg_zero).
Proof.
  destruct (Prim2SF x) as [s|s| |s m e] eqn:Hx.
  - destruct s.
    + right. split.
      * apply Prim2SF_inj. rewrite add_spec, Hx. reflexivity.
      * rewrite <- (SF2Prim_Prim2SF x), Hx. reflexivity.
    + left. apply Prim2SF_inj. rewrite add_spec, Hx. reflexivity.
  - left. apply Prim2SF_inj. rewrite add_spec, Hx. reflexivity.
  - left. apply Prim2SF_inj. rewrite add_spec, Hx. reflexivity.
  - left. apply Prim2SF_inj. rewrite add_spec, Hx. reflexivity.
Qed.

(** The mean of a single value rounds like the value itself. *)
Lemma round_mean_single (f : nat) (x : float) :
  Number.round_to f (float_mean [x]) = Number.round_to f x.
Proof.
  unfold float_mean, float_sum. simpl.
  change (Number.of_nat 1) with 1%float. rewrite float_div_one.
  destruct (float_zero_add x) as [->|[-> ->]]; [done|].
  reflexivity.
Qed.

(** C4. For every window [w >= 1], [calculateMA] returns a sequence as long
    as the input; its entries before index [w - 1] are [null]; the entry at
    every index [i >= w - 1] is the mean of the selected field over the bars
    [i - w + 1 .. i], rounded to 4 decimals (sum and division in binary64
    arithmetic, the bars added from the latest back); and with [w = 1] every
    entry is the raw field value rounded to 4 decimals. *)
Theorem calculateMA_spec (w : nat) (data : list StockDataPoint) (field : Field) :
  (1 ≤ w)%nat →
  ∃ result,
    calculateMA w data field = Some result
    ∧ length result = length data
    ∧ (∀ i, (i < w - 1)%nat → (i < length data)%nat → result !! i = Some None)
    ∧ (∀ i, (w - 1 ≤ i < length data)%nat →
         result !! i
         = Some (Some (Number.round_to 4
                         (float_mean (window_values field data w i))))
         ∧ window_values field data w i
           = (λ d, to_number (read_field field d))
               <$> reverse (take w (drop (i + 1 - w) data)))
    ∧ (w = 1%nat → ∀ i d, data !! i = Some d →
         result !! i
         = Some (Some (Number.round_to 4 (to_number (read_field field d))))).
Proof.
  intros Hw. eexists. split; [apply calculateMA_entries|].
  assert (∀ i, (i < length data)%nat →
            (ma_entry w data field <$> seq 0 (length data)) !! i
            = Some (ma_entry w data field i)) as Hentry.
  { intros i Hi. by rewrite list_lookup_fmap, lookup_seq_lt. }
  split_and!.
  - by rewrite length_fmap, length_seq.
  - intros i Hi Hlen. rewrite Hentry by done. unfold ma_entry.
    by replace (i <? w - 1)%nat with true by (symmetry; apply Nat.ltb_lt; lia).
  - intros i [Hi Hlen]. split; [|done]. rewrite Hentry by done. unfold ma_entry.
    by replace (i <? w - 1)%nat with false by (symmetry; apply Nat.ltb_ge; lia).
  - intros -> i d Hd. rewrite Hentry by (by eapply lookup_lt_Some).
    unfold ma_entry, window_values. simpl.
    replace (i + 1 - 1)%nat with i by lia.
    rewrite (drop_S _ d) by done. simpl.
    by rewrite round_mean_single.
Qed.

Lemma calculateMA_spec_witness :
  ∃ result,
    calculateMA 2 [SyncExamples.bar "2024-01-01" 3000 4;
                   SyncExamples.bar "2024-01-02" 3001 8;
                   SyncExamples.bar "2024-01-03" 3002 1] FVolume = Some result
    ∧ result = [None; Some 6%float; Some 4.5%float].
Proof.
  destruct (calculateMA_spec 2
              [SyncExamples.bar "2024-01-01" 3000 4;
               SyncExamples.bar "2024-01-02" 3001 8;
               SyncExamples.bar "2024-01-03" 3002 1] FVolume)
    as (result & Hrun & _); [lia|].
  exists result. split; [exact Hrun|].
  vm_compute in Hrun. by injection Hrun as <-.
Defined.

(** ** The backtest, phase by phase *)

(** The two volume averages of [runStrategy]. *)
Definition ma10_of (data : list StockDataPoint) : list (option float) :=
  ma_entry 10 data FVolume <$> seq 0 (length data).
Definition ma100_of (data : list StockDataPoint) : list (option float) :=
  ma_entry 100 data FVolume <$> seq 0 (length data).

Lemma ma_of_lookup w data i :
  (i < length data)%nat →
  (ma_entry w data FVolume <$> seq 0 (length data)) !! i
  = Some (ma_entry w data FVolume i).
Proof. intros Hi. by rewrite list_lookup_fmap, lookup_seq_lt. Qed.

Lemma ma_at_nat ma (i : nat) :
  ma_at ma (Z.of_nat i) = from_option of_nullable Undefined (ma !! i).
Proof.
  unfold ma_at, at_index.
  replace (Z.of_nat i <? 0) with false by (symmetry; apply Z.ltb_ge; lia).
  rewrite Nat2Z.id. by destruct (ma !! i).
Qed.

(** [startIndex] as the [while] loop leaves it. *)
Definition start_index (data : list StockDataPoint) : option nat :=
  find_start (length data) data (ma100_of data) 100.

(** The loop state after the iterations [0 .. k - 1] of a run that starts
    trading at [startIndex]. *)
Definition sim_upto (data : list StockDataPoint) (startIndex k : nat)
  : option Sim :=
  d0 ← data !! startIndex;
  for_range k 0
    (strategy_step data (ma10_of data) (ma100_of data) startIndex (close d0))
    initial_sim.

Lemma runStrategy_unfold data :
  runStrategy data =
    startIndex ← start_index data;
    if (length data <=? startIndex)%nat then Some neutral_result
    else sim_upto data startIndex (length data) ≫= summarize.
Proof.
  unfold runStrategy, start_index, sim_upto, ma10_of, ma100_of.
  rewrite !calculateMA_entries. simpl.
  destruct (find_start _ _ _ _) as [s|]; simpl; [|done].
  destruct (length data <=? s)%nat; [done|].
  by destruct (data !! s).
Qed.

(** The loop stops at the first index from [s] on that it does not skip,
    or at [data.length]. *)
Lemma find_start_spec fuel data ma100 s :
  (length data ≤ s + fuel)%nat →
  ∃ s', find_start fuel data ma100 s = Some s'
    ∧ (s ≤ s')%nat
    ∧ (∀ i d, (s ≤ i < s')%nat → data !! i = Some d →
         Number.isNaN (close d) || is_null (ma_at ma100 (Z.of_nat i)) = true)
    ∧ ((s' < length data)%nat →
         ∃ d, data !! s' = Some d
           ∧ Number.isNaN (close d) || is_null (ma_at ma100 (Z.of_nat s')) = false).
Proof.
  revert s. induction fuel as [|fuel IH]; intros s Hlen; simpl.
  - exists s. split_and!; [done|lia|intros; lia|intros; lia].
  - destruct (Nat.ltb_spec s (length data)) as [Hlt|Hge].
    + destruct (lookup_lt_is_Some_2 data s Hlt) as [d Hd]. rewrite Hd. simpl.
      destruct (Number.isNaN (close d) || is_null (ma_at ma100 (Z.of_nat s)))
        eqn:Hskip.
      * destruct (IH (S s)) as (s' & Hs' & Hle & Hskipped & Hstop); [lia|].
        exists s'. split_and!; [done|lia| |done].
        intros i d' Hi Hd'. destruct (decide (i = s)) as [->|Hne].
        -- rewrite Hd in Hd'. by injection Hd' as <-.
        -- apply Hskipped; [lia|done].
      * exists s. split_and!; [done|lia|intros; lia|eauto].
    + exists s. split_and!; [done|lia|intros; lia|intros; lia].
Qed.

Lemma start_index_spec data :
  ∃ s, start_index data = Some s
    ∧ (100 ≤ s)%nat
    ∧ (∀ i d, (100 ≤ i < s)%nat → data !! i = Some d →
         Number.isNaN (close d) = true)
    ∧ ((s < length data)%nat →
         ∃ d, data !! s = Some d ∧ Number.isNaN (close d) = false).
Proof.
  destruct (find_start_spec (length data) data (ma100_of data) 100)
    as (s & Hs & Hle & Hskipped & Hstop); [lia|].
  assert (∀ i, (100 ≤ i < length data)%nat →
            is_null (ma_at (ma100_of data) (Z.of_nat i)) = false) as Hma.
  { intros i Hi. rewrite ma_at_nat. unfold ma100_of.
    rewrite ma_of_lookup by lia. unfold ma_entry.
    by replace (i <? 100 - 1)%nat with false by (symmetry; apply Nat.ltb_ge; lia). }
  exists s. split_and!; [done|done| |].
  - intros i d Hi Hd. specialize (Hskipped i d Hi Hd).
    rewrite Hma in Hskipped; [|apply lookup_lt_Some in Hd; lia].
    by rewrite orb_false_r in Hskipped.
  - intros Hlt. destruct (Hstop Hlt) as (d & Hd & Hstop').
    exists d. split; [done|]. by apply orb_false_iff in Hstop' as [? _].
Qed.

(** ** C8: the neutral result *)

(** Index [i] has a valid close and an available 100-period volume average. *)
Definition usable_start (data : list StockDataPoint) (i : nat) : Prop :=
  ∃ d ma100 v,
    data !! i = Some d ∧ Number.isNaN (close d) = false
    ∧ calculateMA 100 data FVolume = Some ma100 ∧ ma100 !! i = Some (Some v).

(** C8. A bar sequence shorter than 100 entries, or in which no index from
    100 on has both a valid close and an available 100-period volume average,
    yields the neutral result. *)
Theorem runStrategy_neutral data :
  (length data < 100)%nat ∨ (∀ i, (100 ≤ i)%nat → ¬ usable_start data i) →
  runStrategy data
  = Some {| trades := []; capitalCurve := []; benchmarkCurve := [];
            finalNetValue := 1; returnRate := "0.00"; benchmarkReturn := "0.00";
            winRate := "0"; tradeCount := 0 |}.
Proof.
  intros H. rewrite runStrategy_unfold.
  destruct (start_index_spec data) as (s & -> & Hle & _ & Hstop). simpl.
  destruct (Nat.leb_spec (length data) s) as [|Hlt]; [done|].
  exfalso. destruct (Hstop Hlt) as (d & Hd & Hvalid).
  destruct H as [Hshort|Hnone]; [lia|].
  apply (Hnone s Hle). exists d, (ma100_of data).
  eexists. split_and!; [done|done|apply calculateMA_entries|].
  unfold ma100_of. rewrite ma_of_lookup by done. unfold ma_entry.
  by replace (s <? 100 - 1)%nat with false by (symmetry; apply Nat.ltb_ge; lia).
Qed.

Lemma runStrategy_neutral_witness :
  runStrategy (SyncExamples.cached10)
  = Some {| trades := []; capitalCurve := []; benchmarkCurve := [];
            finalNetValue := 1; returnRate := "0.00"; benchmarkReturn := "0.00";
            winRate := "0"; tradeCount := 0 |}.
Proof.
  apply runStrategy_neutral. left. simpl. lia.
Defined.

(** ** The shape of the trade log *)

(** Every sell is immediately preceded by a buy (so the log, when not empty,
    starts with a buy). *)
Definition sells_follow_buys (ts : list Trade) : Prop :=
  ∀ i t, ts !! i = Some t → type t = sell →
    (1 ≤ i)%nat ∧ ∃ p, ts !! (i - 1)%nat = Some p ∧ type p = buy.

Definition last_is_buy (ts : list Trade) : Prop :=
  ∃ t, last ts = Some t ∧ type t = buy.

(** Invariant of the main loop: the log is well formed, and a positive
    holding was opened by the latest trade. *)
Definition sim_inv (st : Sim) : Prop :=
  sells_follow_buys (sim_trades st)
  ∧ (Number.gtb (holdings st) 0 = true → last_is_buy (sim_trades st)).

Lemma sells_follow_buys_snoc_buy ts t :
  sells_follow_buys ts → type t = buy → sells_follow_buys (ts ++ [t]).
Proof.
  intros Hts Ht i t' Hi Hsell.
  apply lookup_app_Some in Hi as [Hi|[Hlen Hi]].
  - destruct (Hts i t' Hi Hsell) as (Hpos & p & Hp & Hbuy).
    split; [done|]. exists p. split; [|done]. by apply lookup_app_l_Some.
  - apply list_lookup_singleton_Some in Hi as [_ <-]. congruence.
Qed.

Lemma sells_follow_buys_snoc_sell ts t :
  sells_follow_buys ts → last_is_buy ts → sells_follow_buys (ts ++ [t]).
Proof.
  intros Hts (p & Hlast & Hbuy) i t' Hi Hsell.
  apply lookup_app_Some in Hi as [Hi|[Hlen Hi]].
  - destruct (Hts i t' Hi Hsell) as (Hpos & p' & Hp & Hbuy').
    split; [done|]. exists p'. split; [|done]. by apply lookup_app_l_Some.
  - apply list_lookup_singleton_Some in Hi as [Hi <-].
    rewrite last_lookup in Hlast.
    assert (length ts ≠ 0%nat) as Hne.
    { intros H0. apply length_zero_iff_nil in H0. by subst. }
    replace i with (length ts) by lia.
    split; [lia|]. exists p. split; [|done].
    apply lookup_app_l_Some. rewrite <- Hlast. f_equal. lia.
Qed.

Lemma trade_inv action date price st :
  sim_inv st → sim_inv (trade action date price st).
Proof.
  intros [Hlog Hopen]. unfold trade.
  destruct action; [| |done].
  - destruct (Number.strict_eq _ _); [|done]. split; simpl.
    + by apply sells_follow_buys_snoc_buy.
    + intros _. eexists. by rewrite last_snoc.
  - destruct (Number.gtb (holdings st) 0) eqn:Hpos;
      [|split; [done|by rewrite Hpos]].
    split; simpl.
    + apply sells_follow_buys_snoc_sell; auto.
    + by vm_compute.
Qed.

Lemma sim_inv_push_capital p st : sim_inv st → sim_inv (push_capital p st).
Proof. by intros [??]. Qed.

Lemma sim_inv_push_benchmark p st : sim_inv st → sim_inv (push_benchmark p st).
Proof. by intros [??]. Qed.

Lemma strategy_step_inv data ma10 ma100 startIndex initialPrice i st :
  (i < length data)%nat →
  ∃ st', strategy_step data ma10 ma100 startIndex initialPrice i st = Some st'
    ∧ (sim_inv st → sim_inv st').
Proof.
  intros Hi. destruct (lookup_lt_is_Some_2 data i Hi) as [d Hd].
  unfold strategy_step. rewrite Hd. simpl.
  destruct (i <? startIndex)%nat; eexists; (split; [done|]).
  - by intros [??].
  - intros Hinv. apply sim_inv_push_capital, trade_inv.
    by apply sim_inv_push_benchmark.
Qed.

Lemma sim_upto_inv data startIndex k :
  (startIndex < length data)%nat → (k ≤ length data)%nat →
  ∃ st, sim_upto data startIndex k = Some st ∧ sim_inv st.
Proof.
  intros Hs Hk. unfold sim_upto.
  destruct (lookup_lt_is_Some_2 data startIndex Hs) as [d0 ->]. simpl.
  destruct (for_range_invariant (λ _, sim_inv) k 0
              (strategy_step data (ma10_of data) (ma100_of data) startIndex
                 (close d0)) initial_sim) as (st & Hst & Hinv).
  - split; [by intros [|?] ?|by vm_compute].
  - intros i st [_ Hi] Hinv. simpl in Hi.
    destruct (strategy_step_inv data (ma10_of data) (ma100_of data) startIndex
                (close d0) i st) as (st' & Hst' & Hinv'); [lia|]. eauto.
  - eauto.
Qed.

Lemma sim_upto_S data s k st d0 :
  data !! s = Some d0 →
  sim_upto data s k = Some st →
  sim_upto data s (S k)
  = strategy_step data (ma10_of data) (ma100_of data) s (close d0) k st.
Proof.
  unfold sim_upto. intros -> Hk.
  replace (S k) with (k + 1)%nat by lia.
  simpl in *. rewrite for_range_app, Hk. simpl.
  by destruct (strategy_step _ _ _ _ _ _ _).
Qed.

(** The win count of the source, on a well-formed log: no lookup fails, and
    the sells counted are those priced above the trade just before them. *)
Definition sell_wins (ts : list Trade) : list (Trade * Trade) :=
  List.filter (λ pt, is_sell pt.2 && Number.gtb (price pt.2) (price pt.1))
    (zip ts (drop 1 ts)).

Lemma filter_indexed_wins all pre p ts :
  all = pre ++ p :: ts →
  ∃ ws, filter_indexed (is_win all) ts (S (length pre)) = Some ws
    ∧ length ws = length (sell_wins (p :: ts)).
Proof.
  revert pre p. induction ts as [|t ts IH]; intros pre p Hall; simpl.
  - by exists [].
  - assert (is_win all t (S (length pre))
            = Some (is_sell t && Number.gtb (price t) (price p))) as ->.
    { unfold is_win.
      replace (Z.of_nat (S (length pre)) - 1) with (Z.of_nat (length pre)) by lia.
      unfold at_index.
      replace (Z.of_nat (length pre) <? 0) with false
        by (symmetry; apply Z.ltb_ge; lia).
      rewrite Nat2Z.id, Hall, list_lookup_middle by done. simpl.
      by destruct (is_sell t). }
    simpl.
    destruct (IH (pre ++ [p]) t) as (ws & Hws & Hlen).
    { by rewrite <- app_assoc. }
    rewrite length_app in Hws. simpl in Hws.
    replace (length pre + 1)%nat with (S (length pre)) in Hws by lia.
    rewrite Hws. simpl. unfold sell_wins in *. simpl in *.
    destruct (is_sell t && Number.gtb (price t) (price p));
      eexists; (split; [done|]); simpl; by rewrite Hlen.
Qed.

Lemma filter_indexed_wins_all ts :
  sells_follow_buys ts →
  ∃ ws, filter_indexed (is_win ts) ts 0 = Some ws
    ∧ length ws = length (sell_wins ts).
Proof.
  intros Hts. destruct ts as [|t ts]; [by exists []|].
  simpl. assert (is_win (t :: ts) t 0 = Some false) as ->.
  { unfold is_win, is_sell. destruct (type t) eqn:Ht; [done|].
    destruct (Hts 0%nat t) as [? _]; [done|done|lia]. }
  simpl. destruct (filter_indexed_wins (t :: ts) [] t ts) as (ws & Hws & Hlen);
    [done|]. simpl in Hws. rewrite Hws. simpl. eauto.
Qed.

(** Every run returns a result whose trade log is the loop's. *)
Lemma runStrategy_result data :
  ∃ r, runStrategy data = Some r
    ∧ sells_follow_buys (trades r)
    ∧ tradeCount r = length (trades r)
    ∧ winRate r =
        if (0 <? length (List.filter is_sell (trades r)))%nat
        then Number.toFixed 0
               (Number.of_nat (length (sell_wins (trades r)))
                / Number.of_nat (length (List.filter is_sell (trades r))) * 100)
        else "0"%string.
Proof.
  rewrite runStrategy_unfold.
  destruct (start_index_spec data) as (s & -> & _). simpl.
  destruct (Nat.leb_spec (length data) s) as [|Hlt].
  - eexists. split; [done|]. split_and!; [by intros ? ? ?|done|done].
  - destruct (sim_upto_inv data s (length data)) as (st & -> & Hlog & _);
      [done|lia|]. simpl.
    unfold summarize.
    destruct (filter_indexed_wins_all _ Hlog) as (ws & -> & Hlen). simpl.
    eexists. split; [done|]. simpl. rewrite Hlen. by split_and!.
Qed.

(** ** Sample runs of the backtest *)

Module BacktestExamples.

Definition bar (i : nat) (c v : float) : StockDataPoint :=
  SyncExamples.bar ("day-" ++ Number.digits (Z.of_nat i)) c v.

Definition bars (closes vols : list float) : list StockDataPoint :=
  imap (λ i cv, bar i cv.1 cv.2) (zip closes vols).

(** 115 bars: flat volume for 100 days, then swings that make the 10-day
    average cross the 100-day one upward at 100, downward at 102, upward at
    103, and again later; the close is 0 on day 102. *)
Definition volumes : list float :=
  (replicate 100 1 ++ [2; 0; 0; 10] ++ replicate 9 0 ++ [0; 100])%float.
Definition closes : list float :=
  (replicate 100 5 ++ [5; 6; 0; 7] ++ replicate 9 8 ++ [8; 9])%float.
Definition zero_close_data : list StockDataPoint := bars closes volumes.

(** The same volumes with a rising close. *)
Definition rising_closes : list float :=
  (replicate 100 5 ++ [5; 6; 7; 8] ++ replicate 9 8 ++ [8; 9])%float.
Definition rising_data : list StockDataPoint := bars rising_closes volumes.

End BacktestExamples.

(** C10, as stated, fails: after a sell at a close of 0 the cash is 0, the
    next buy leaves the holdings at 0, and a later golden cross records a
    second buy in a row. *)
Lemma runStrategy_alternation_counterexample :
  (λ r, (λ t, (type t, price t)) <$> trades r)
    <$> runStrategy BacktestExamples.zero_close_data
  = Some [(buy, 5); (sell, 0); (buy, 7); (buy, 8); (buy, 9)]%float.
Proof. vm_compute. reflexivity. Qed.

(** ** Crosses of the two averages *)

(** *** Order facts on binary64 values *)

Lemma SFcompare_Lt_swap x y :
  SFcompare x y = Some Lt → SFcompare y x = Some Gt.
Proof.
  destruct x as [sx|sx| |sx mx ex], y as [sy|sy| |sy my ey]; simpl;
    try done; try (by destruct sx); try (by destruct sy);
    try (by destruct sx, sy).
  rewrite (Z.compare_antisym ex ey).
  change (Pos.compare_cont Eq my mx) with (my ?= mx)%positive.
  change (Pos.compare_cont Eq mx my) with (mx ?= my)%positive.
  rewrite (Pos.compare_antisym mx my).
  destruct sx, sy; try done;
    destruct (ex ?= ey) eqn:He; simpl; try done;
    destruct (mx ?= my)%positive; simpl; done.
Qed.

Lemma float_ltb_asym (a b : float) :
  (a <? b)%float = true → (b <? a)%float = false.
Proof.
  rewrite !ltb_spec. unfold SFltb.
  destruct (SFcompare (Prim2SF a) (Prim2SF b)) as [[]|] eqn:Hab; try done.
  by rewrite (SFcompare_Lt_swap _ _ Hab).
Qed.

(** *** The signal *)

(** The average values at [i - 1] and [i] (previous short, previous long,
    current short, current long), when all four are available. *)
Definition cross_values (ma10 ma100 : list (option float)) (i : nat)
  : option (float * float * float * float) :=
  prevShort ← mjoin (ma10 !! (i - 1)%nat);
  prevLong ← mjoin (ma100 !! (i - 1)%nat);
  currShort ← mjoin (ma10 !! i);
  currLong ← mjoin (ma100 !! i);
  Some (prevShort, prevLong, currShort, currLong).

(** prevShort <= prevLong and currShort > currLong. *)
Definition golden_cross (ma10 ma100 : list (option float)) (i : nat) : bool :=
  match cross_values ma10 ma100 i with
  | Some (prevShort, prevLong, currShort, currLong) =>
      (prevShort <=? prevLong)%float && Number.gtb currShort currLong
  | None => false
  end.

(** prevShort >= prevLong and currShort < currLong. *)
Definition death_cross (ma10 ma100 : list (option float)) (i : nat) : bool :=
  match cross_values ma10 ma100 i with
  | Some (prevShort, prevLong, currShort, currLong) =>
      Number.geb prevShort prevLong && (currShort <? currLong)%float
  | None => false
  end.

Lemma crosses_exclusive ma10 ma100 i :
  golden_cross ma10 ma100 i && death_cross ma10 ma100 i = false.
Proof.
  unfold golden_cross, death_cross.
  destruct (cross_values ma10 ma100 i) as [[[[ps pl] cs] cl]|]; [|done].
  unfold Number.gtb.
  destruct (cl <? cs)%float eqn:Hgt; [|by rewrite andb_false_r].
  by rewrite (float_ltb_asym _ _ Hgt), !andb_false_r.
Qed.

Lemma signal_spec ma10 ma100 i :
  (1 ≤ i)%nat → (i < length ma10)%nat → (i < length ma100)%nat →
  signal ma10 ma100 i =
    if golden_cross ma10 ma100 i then ABuy
    else if death_cross ma10 ma100 i then ASell
    else AHold.
Proof.
  intros H1 H10 H100.
  pose proof (crosses_exclusive ma10 ma100 i) as Hex. revert Hex.
  unfold signal, golden_cross, death_cross, cross_values.
  replace (Z.of_nat i - 1) with (Z.of_nat (i - 1)) by lia.
  rewrite !ma_at_nat.
  destruct (lookup_lt_is_Some_2 ma10 (i - 1)) as [ps ->]; [lia|].
  destruct (lookup_lt_is_Some_2 ma100 (i - 1)) as [pl ->]; [lia|].
  destruct (lookup_lt_is_Some_2 ma10 i) as [cs ->]; [lia|].
  destruct (lookup_lt_is_Some_2 ma100 i) as [cl ->]; [lia|].
  destruct ps as [ps|], pl as [pl|], cs as [cs|], cl as [cl|]; simpl; try done.
  destruct ((ps <=? pl)%float && Number.gtb cs cl); simpl; [by intros ->|].
  by destruct (Number.geb ps pl && (cs <? cl)%float).
Qed.

Definition buy_trade (d : StockDataPoint) : Trade :=
  {| trade_date := date d; type := buy; price := close d; desc := "金叉买入" |}.
Definition sell_trade (d : StockDataPoint) : Trade :=
  {| trade_date := date d; type := sell; price := close d; desc := "死叉卖出" |}.

(** ** Rounding in binary64 arithmetic

    Upper bounds for sums, products and quotients of non-negative floats,
    from the definition of the operations in [SpecFloat]. *)

(** Located values: [n / d] lies in [m, m + 1), at the place the two bits say. *)
Definition located (n d : Z) (mrs : shr_record) : Prop :=
  0 < d ∧ 0 ≤ shr_m mrs ∧
  match shr_r mrs, shr_s mrs with
  | false, false => n = shr_m mrs * d
  | false, true => shr_m mrs * d < n ∧ 2 * n < (2 * shr_m mrs + 1) * d
  | true, false => 2 * n = (2 * shr_m mrs + 1) * d
  | true, true => (2 * shr_m mrs + 1) * d < 2 * n ∧ n < (shr_m mrs + 1) * d
  end.

Lemma located_shr_1 n d mrs : located n d mrs → located n (2 * d) (shr_1 mrs).
Proof.
  destruct mrs as [m r s]. unfold located. simpl.
  intros (Hd & Hm & H).
  destruct m as [|p|p]; [| |lia].
  - destruct r, s; simpl; lia.
  - destruct p as [p|p|]; destruct r, s; simpl; lia.
Qed.

Lemma located_iter_shr_1 p : ∀ n d mrs,
  located n d mrs → located n (2 ^ Z.pos p * d) (SpecFloat.iter_pos shr_1 p mrs).
Proof.
  induction p as [p IH|p IH|]; intros n d mrs H; simpl SpecFloat.iter_pos.
  - replace (2 ^ Z.pos p~1 * d) with (2 ^ Z.pos p * (2 ^ Z.pos p * (2 * d))).
    + by apply IH, IH, located_shr_1.
    + replace (Z.pos p~1) with (Z.pos p + Z.pos p + 1) by lia.
      rewrite !Z.pow_add_r by lia. change (2 ^ 1) with 2. ring.
  - replace (2 ^ Z.pos p~0 * d) with (2 ^ Z.pos p * (2 ^ Z.pos p * d)).
    + by apply IH, IH.
    + replace (Z.pos p~0) with (Z.pos p + Z.pos p) by lia.
      rewrite !Z.pow_add_r by lia. ring.
  - change (2 ^ 1) with 2. by apply located_shr_1.
Qed.

(** ** Digits *)

Lemma digits2_pos_bound m :
  2 ^ (Z.pos (digits2_pos m) - 1) ≤ Z.pos m < 2 ^ Z.pos (digits2_pos m).
Proof.
  induction m as [m IH|m IH|]; simpl digits2_pos.
  - rewrite Pos2Z.inj_succ.
    replace (Z.succ (Z.pos (digits2_pos m)) - 1) with (Z.pos (digits2_pos m)) by lia.
    rewrite Z.pow_succ_r by lia.
    assert (2 ^ Z.pos (digits2_pos m) = 2 * 2 ^ (Z.pos (digits2_pos m) - 1)).
    { rewrite <- Z.pow_succ_r by lia. f_equal. lia. }
    lia.
  - rewrite Pos2Z.inj_succ.
    replace (Z.succ (Z.pos (digits2_pos m)) - 1) with (Z.pos (digits2_pos m)) by lia.
    rewrite Z.pow_succ_r by lia.
    assert (2 ^ Z.pos (digits2_pos m) = 2 * 2 ^ (Z.pos (digits2_pos m) - 1)).
    { rewrite <- Z.pow_succ_r by lia. f_equal. lia. }
    lia.
  - simpl. lia.
Qed.

Lemma Zdigits2_bound m :
  0 < m → 2 ^ (Zdigits2 m - 1) ≤ m < 2 ^ Zdigits2 m.
Proof. destruct m as [|p|p]; [lia| |lia]. intros _. apply digits2_pos_bound. Qed.

Lemma Zdigits2_pos m : 0 < m → 0 < Zdigits2 m.
Proof. destruct m; simpl; lia. Qed.

Lemma Zdigits2_0 : Zdigits2 0 = 0.
Proof. done. Qed.

(** [m < 2 ^ a] bounds the digits by [a]; [2 ^ a <= m] forces more. *)
Lemma Zdigits2_le m a : 0 < m → m < 2 ^ a → Zdigits2 m ≤ a.
Proof.
  intros Hm Hlt. destruct (Z.le_gt_cases (Zdigits2 m) a) as [|Hgt]; [done|].
  pose proof (Zdigits2_bound m Hm) as [Hlo _].
  assert (0 ≤ a).
  { destruct (Z.le_gt_cases 0 a); [done|]. rewrite Z.pow_neg_r in Hlt; lia. }
  assert (2 ^ a ≤ 2 ^ (Zdigits2 m - 1)) by (apply Z.pow_le_mono_r; lia).
  lia.
Qed.

Lemma Zdigits2_gt m a : 0 ≤ a → 2 ^ a ≤ m → a < Zdigits2 m.
Proof.
  intros Ha Hle.
  assert (0 < m) as Hm by (pose proof (Z.pow_pos_nonneg 2 a); lia).
  destruct (Z.lt_ge_cases a (Zdigits2 m)) as [|Hge]; [done|].
  pose proof (Zdigits2_bound m Hm) as [_ Hhi].
  assert (2 ^ Zdigits2 m ≤ 2 ^ a).
  { apply Z.pow_le_mono_r; [lia|lia]. }
  lia.
Qed.

(** ** The exponent function of binary64 *)

Lemma fexp_unfold x : fexp prec emax x = Z.max (x - 53) (-1074).
Proof. reflexivity. Qed.

Lemma fexp_mono x y : x ≤ y → fexp prec emax x ≤ fexp prec emax y.
Proof. rewrite !fexp_unfold. lia. Qed.

(** ** Shifting *)

Lemma located_shr n d mrs e k :
  located n d mrs → 0 ≤ k →
  located n (2 ^ k * d) (shr mrs e k).1 ∧ (shr mrs e k).2 = e + k.
Proof.
  intros H Hk. unfold shr. destruct k as [|p|p]; [| |lia].
  - split; [|cbn [snd]; lia]. cbn [fst].
    change (2 ^ 0) with 1. by rewrite Z.mul_1_l.
  - split; [|done]. by apply located_iter_shr_1.
Qed.

Lemma shr_nonpos mrs e k : k ≤ 0 → shr mrs e k = (mrs, e).
Proof. intros Hk. destruct k as [|p|p]; [done|lia|done]. Qed.

Definition loc_located (n d m : Z) (l : location) : Prop :=
  located n d (shr_record_of_loc m l).

Lemma loc_of_shr_record_of_loc m l :
  loc_of_shr_record (shr_record_of_loc m l) = l.
Proof. by destruct l as [|[]]. Qed.

Lemma shr_m_shr_record_of_loc m l : shr_m (shr_record_of_loc m l) = m.
Proof. by destruct l as [|[]]. Qed.

(** Rounding to nearest stays below every integer bound of the value and
    above its integer part. *)
Lemma round_nearest_even_le n d mrs G :
  located n d mrs → n ≤ G * d →
  round_nearest_even (shr_m mrs) (loc_of_shr_record mrs) ≤ G.
Proof.
  destruct mrs as [m r s]. unfold located. simpl. intros (Hd & Hm & H) HG.
  destruct r, s; simpl.
  - nia.
  - destruct (Z.even m); nia.
  - nia.
  - nia.
Qed.

Lemma round_nearest_even_ge mrs :
  shr_m mrs ≤ round_nearest_even (shr_m mrs) (loc_of_shr_record mrs)
            ≤ shr_m mrs + 1.
Proof.
  destruct mrs as [m r s]. simpl.
  destruct r, s; simpl; try lia. destruct (Z.even m); lia.
Qed.

(** ** Values of canonical floats, as scaled integers *)

(** [pw e] is [2 ^ e] scaled by [2 ^ 4400], an integer for every exponent
    that occurs in binary64 arithmetic. *)
Definition pw (e : Z) : Z := 2 ^ (e + 4400).

Lemma pw_pos e : -4400 ≤ e → 0 < pw e.
Proof. intros. apply Z.pow_pos_nonneg; lia. Qed.

Lemma pw_add e k : -4400 ≤ e → 0 ≤ k → pw (e + k) = 2 ^ k * pw e.
Proof.
  intros. unfold pw. replace (e + k + 4400) with (k + (e + 4400)) by lia.
  by rewrite Z.pow_add_r by lia.
Qed.

Lemma pw_le e1 e2 : -4400 ≤ e1 → e1 ≤ e2 → pw e1 ≤ pw e2.
Proof. intros. apply Z.pow_le_mono_r; lia. Qed.

Definition canonical (m : positive) (e : Z) : Prop :=
  fexp prec emax (Z.pos (digits2_pos m) + e) = e.

Lemma bounded_canonical m e :
  bounded prec emax m e = true ↔ canonical m e ∧ e ≤ 971.
Proof.
  unfold bounded, canonical_mantissa, canonical.
  rewrite andb_true_iff, Z.eqb_eq, Z.leb_le. done.
Qed.

Lemma canonical_facts m e :
  canonical m e →
  -1074 ≤ e ∧ Z.pos m < 2 ^ 53 ∧ (-1074 < e → 2 ^ 52 ≤ Z.pos m).
Proof.
  unfold canonical. rewrite fexp_unfold. intros Hc.
  pose proof (digits2_pos_bound m) as [Hlo Hhi].
  split_and!; [lia| |].
  - assert (2 ^ Z.pos (digits2_pos m) ≤ 2 ^ 53) by (apply Z.pow_le_mono_r; lia).
    lia.
  - intros Hn. assert (Z.pos (digits2_pos m) = 53) as Hd by lia.
    by rewrite Hd in Hlo.
Qed.

(** Canonical floats are ordered as their (exponent, mantissa) pairs. *)
Lemma canonical_lt_exponent m1 e1 m2 e2 :
  canonical m1 e1 → canonical m2 e2 → e1 < e2 →
  Z.pos m1 * pw e1 < Z.pos m2 * pw e2.
Proof.
  intros (He1 & Hm1 & _)%canonical_facts (He2 & _ & Hm2)%canonical_facts Hlt.
  specialize (Hm2 ltac:(lia)).
  pose proof (pw_pos e1 ltac:(lia)) as Hp1.
  assert (2 * pw e1 ≤ pw e2) as Hp.
  { replace (2 * pw e1) with (pw (e1 + 1)) by (rewrite pw_add by lia; done).
    apply pw_le; lia. }
  change (2 ^ 53) with (2 * 2 ^ 52) in Hm1.
  nia.
Qed.

Lemma SFleb_of_value m1 e1 m2 e2 :
  canonical m1 e1 → canonical m2 e2 →
  Z.pos m1 * pw e1 ≤ Z.pos m2 * pw e2 →
  SFleb (S754_finite false m1 e1) (S754_finite false m2 e2) = true.
Proof.
  intros Hc1 Hc2 Hle. unfold SFleb, SFcompare.
  destruct (Z.compare_spec e1 e2) as [->|Hlt|Hgt]; [|done|].
  - change (Pos.compare_cont Eq m1 m2) with (m1 ?= m2)%positive.
    pose proof (pw_pos e2 ltac:(apply canonical_facts in Hc2; lia)).
    destruct (Pos.compare_spec m1 m2); [done|done|nia].
  - pose proof (canonical_lt_exponent m2 e2 m1 e1 Hc2 Hc1 Hgt). lia.
Qed.

Lemma value_of_SFleb m1 e1 m2 e2 :
  canonical m1 e1 → canonical m2 e2 →
  SFleb (S754_finite false m1 e1) (S754_finite false m2 e2) = true →
  Z.pos m1 * pw e1 ≤ Z.pos m2 * pw e2.
Proof.
  intros Hc1 Hc2. unfold SFleb, SFcompare.
  destruct (Z.compare_spec e1 e2) as [->|Hlt|Hgt]; [| |done].
  - change (Pos.compare_cont Eq m1 m2) with (m1 ?= m2)%positive.
    pose proof (pw_pos e2 ltac:(apply canonical_facts in Hc2; lia)).
    destruct (Pos.compare_spec m1 m2); [|nia|done]. subst. lia.
  - intros _. pose proof (canonical_lt_exponent m1 e1 m2 e2 Hc1 Hc2 Hlt). lia.
Qed.

Lemma located_bounds n d mrs :
  located n d mrs → 0 < d ∧ 0 ≤ shr_m mrs ∧ shr_m mrs * d ≤ n < (shr_m mrs + 1) * d.
Proof.
  destruct mrs as [m r s]. unfold located. simpl. intros (Hd & Hm & H).
  destruct r, s; lia.
Qed.

Lemma located_exact m : 0 ≤ m → located m 1 (shr_record_of_loc m loc_Exact).
Proof. intros. unfold located. simpl. lia. Qed.

Lemma pow2_lt_inv a b : 0 ≤ a → 2 ^ a < 2 ^ b → a < b.
Proof.
  intros Ha Hlt. destruct (Z.lt_ge_cases a b) as [|Hge]; [done|].
  destruct (Z.le_gt_cases 0 b) as [Hb|Hb].
  - assert (2 ^ b ≤ 2 ^ a) by (apply Z.pow_le_mono_r; lia). lia.
  - rewrite (Z.pow_neg_r 2 b) in Hlt by lia.
    pose proof (Z.pow_pos_nonneg 2 a). lia.
Qed.

(** What [binary_round_aux] returns for a located value on its own grid:
    the nearest multiple [m2 * 2 ^ e'] of the grid step, as a canonical float,
    or infinity when that multiple is too large. *)
Definition round_result (res : spec_float) (m2 e' : Z) : Prop :=
  match res with
  | S754_zero s => s = false ∧ m2 = 0
  | S754_finite s mf ef =>
      s = false ∧ canonical mf ef ∧ ef ≤ 971 ∧ Z.pos mf * pw ef = m2 * pw e'
  | S754_infinity s => s = false ∧ 2 ^ 52 * pw 972 ≤ m2 * pw e'
  | S754_nan => False
  end.

Lemma Zdigits2_unique m a : 2 ^ (a - 1) ≤ m < 2 ^ a → 0 < a → Zdigits2 m = a.
Proof.
  intros [Hlo Hhi] Ha.
  assert (0 < m) as Hm by (pose proof (Z.pow_pos_nonneg 2 (a - 1)); lia).
  pose proof (Zdigits2_le m a Hm Hhi).
  pose proof (Zdigits2_gt m (a - 1) ltac:(lia) Hlo). lia.
Qed.

Lemma round_aux_spec mx ex lx n d :
  0 ≤ mx → loc_located n d mx lx →
  ex ≤ fexp prec emax (Zdigits2 mx + ex) →
  -4400 ≤ ex →
  let e' := fexp prec emax (Zdigits2 mx + ex) in
  ∃ mrs1,
    located n (2 ^ (e' - ex) * d) mrs1
    ∧ round_result (binary_round_aux prec emax false mx ex lx)
        (round_nearest_even (shr_m mrs1) (loc_of_shr_record mrs1)) e'.
Proof.
  intros Hmx Hloc Hgrid Hex e'.
  pose proof (located_bounds _ _ _ Hloc) as (Hd & _ & Hlo & Hhi).
  rewrite shr_m_shr_record_of_loc in Hlo, Hhi.
  pose proof (pw_pos ex Hex) as Hpex.
  unfold binary_round_aux, shr_fexp. fold e'.
  destruct (located_shr n d (shr_record_of_loc mx lx) ex (e' - ex) Hloc ltac:(lia))
    as [Hloc1 He1].
  destruct (shr (shr_record_of_loc mx lx) ex (e' - ex)) as [mrs1 e1].
  simpl in Hloc1, He1. replace e1 with e' in * by lia. clear He1 e1.
  exists mrs1. split; [done|].
  set (m2 := round_nearest_even (shr_m mrs1) (loc_of_shr_record mrs1)) in *.
  pose proof (located_bounds _ _ _ Hloc1) as (HD & Hm1 & Hlo1 & Hhi1).
  pose proof (round_nearest_even_ge mrs1) as Hm2. fold m2 in Hm2.
  assert (-1074 ≤ e') as He'min by (subst e'; rewrite fexp_unfold; lia).
  pose proof (pw_pos e' ltac:(lia)) as Hpe'.
  pose proof (Z.pow_pos_nonneg 2 (e' - ex) ltac:(lia) ltac:(lia)) as Hpk.
  (* the first shift leaves at most 53 digits, and exactly 53 above emin *)
  assert (shr_m mrs1 < 2 ^ 53) as Hm1hi.
  { destruct (Z.eq_dec mx 0) as [->|Hne]; [nia|].
    pose proof (Zdigits2_bound mx ltac:(lia)) as [_ Hdhi].
    assert (Zdigits2 mx ≤ 53 + (e' - ex)) by (subst e'; rewrite fexp_unfold; lia).
    assert (2 ^ Zdigits2 mx ≤ 2 ^ (53 + (e' - ex))) as Hp
      by (apply Z.pow_le_mono_r; lia).
    rewrite Z.pow_add_r in Hp by lia. nia. }
  assert (-1074 < e' → 2 ^ 52 ≤ shr_m mrs1) as Hm1lo.
  { intros Hn.
    assert (mx ≠ 0) as Hne.
    { intros ->. subst e'. rewrite fexp_unfold in *. simpl in *. lia. }
    pose proof (Zdigits2_bound mx ltac:(lia)) as [Hdlo _].
    assert (e' - ex = Zdigits2 mx - 53) as Hk
      by (subst e'; rewrite fexp_unfold in *; lia).
    assert (2 ^ (Zdigits2 mx - 1) = 2 ^ 52 * 2 ^ (e' - ex)) as Hsplit.
    { rewrite <- Z.pow_add_r by lia. f_equal. lia. }
    assert (shr_m mrs1 + 1 > 2 ^ 52) by nia. lia. }
  (* second shift: by one place, and only for m2 = 2 ^ 53 *)
  set (k2 := fexp prec emax (Zdigits2 m2 + e') - e').
  assert (∃ m3 e3,
            shr (shr_record_of_loc m2 loc_Exact) e' k2 = (m3, e3)
            ∧ 0 ≤ shr_m m3 ∧ -1074 ≤ e3
            ∧ shr_m m3 * pw e3 = m2 * pw e'
            ∧ (0 < shr_m m3 → fexp prec emax (Zdigits2 (shr_m m3) + e3) = e3)
            ∧ (971 < e3 → 2 ^ 52 ≤ shr_m m3))
    as (m3 & e3 & -> & Hm3 & He3 & Hv3 & Hc3 & Hn3).
  { destruct (Z.le_gt_cases k2 0) as [Hk2|Hk2].
    - rewrite shr_nonpos by done. eexists _, _. split; [done|].
      simpl. split_and!; [lia|lia|done| |].
      + intros Hpos. subst k2. rewrite fexp_unfold in *.
        destruct (Z.eq_dec e' (-1074)) as [?|?]; [lia|].
        specialize (Hm1lo ltac:(lia)).
        pose proof (Zdigits2_gt m2 52 ltac:(lia) ltac:(lia)). lia.
      + intros Hbig. specialize (Hm1lo ltac:(lia)). lia.
    - assert (m2 ≠ 0) as Hne.
      { intros Hz. subst k2. rewrite Hz in *. rewrite fexp_unfold in *.
        simpl in *. lia. }
      assert (53 < Zdigits2 m2) as HD2
        by (subst k2; rewrite fexp_unfold in *; lia).
      assert (m2 = 2 ^ 53) as Hm2eq.
      { pose proof (Zdigits2_bound m2 ltac:(lia)) as [Hdlo _].
        assert (2 ^ 53 ≤ 2 ^ (Zdigits2 m2 - 1)) by (apply Z.pow_le_mono_r; lia).
        lia. }
      assert (k2 = 1) as Hk2eq.
      { subst k2. rewrite Hm2eq. rewrite fexp_unfold.
        change (Zdigits2 (2 ^ 53)) with 54. lia. }
      rewrite Hk2eq, Hm2eq. simpl. eexists _, _. split; [done|]. simpl.
      split_and!; [lia|lia| | |done].
      * rewrite (pw_add e' 1) by lia. change (2 ^ 1) with 2. lia.
      * intros _. rewrite fexp_unfold.
        change (Zdigits2 4503599627370496) with 53.
        subst k2. rewrite Hm2eq, fexp_unfold in Hk2eq.
        change (Zdigits2 (2 ^ 53)) with 54 in Hk2eq. lia. }
  unfold round_result.
  destruct (shr_m m3) as [|mf|mf] eqn:Hmf; [|clear Hm3|lia].
  - split; [done|]. nia.
  - destruct (Z.leb_spec e3 (emax - prec)) as [Hfin|Hinf].
    + split_and!; [done| |done|done]. apply Hc3. lia.
    + split; [done|]. change (emax - prec) with 971 in Hinf.
      specialize (Hn3 Hinf). rewrite <- Hv3.
      assert (pw 972 ≤ pw e3) by (apply pw_le; lia).
      pose proof (pw_pos 972 ltac:(lia)). nia.
Qed.

Lemma round_result_valid res m2 e' : round_result res m2 e' → valid_binary res = true.
Proof.
  destruct res as [s|s| |s mf ef]; simpl; try done.
  intros (_ & Hc & He & _). by apply bounded_canonical.
Qed.

Lemma round_result_nonneg res m2 e' :
  round_result res m2 e' → SFleb (S754_zero false) res = true.
Proof. destruct res as [s|s| |s mf ef]; simpl; try done; by intros [-> _]. Qed.

(** The result of rounding a located value stays below every canonical
    float that bounds the value. *)
Lemma round_aux_upper mx ex lx n d mh eh :
  0 ≤ mx → loc_located n d mx lx →
  ex ≤ fexp prec emax (Zdigits2 mx + ex) →
  -4400 ≤ ex →
  canonical mh eh → eh ≤ 971 →
  n * pw ex ≤ Z.pos mh * pw eh * d →
  SFleb (binary_round_aux prec emax false mx ex lx) (S754_finite false mh eh)
  = true.
Proof.
  intros Hmx Hloc Hgrid Hex Hch Heh Hval.
  destruct (round_aux_spec mx ex lx n d Hmx Hloc Hgrid Hex) as (mrs1 & Hloc1 & Hres).
  pose proof (canonical_facts mh eh Hch) as (Heh0 & Hmh & _).
  pose proof (located_bounds _ _ _ Hloc) as (Hd & _ & Hlo & _).
  rewrite shr_m_shr_record_of_loc in Hlo.
  pose proof (pw_pos ex Hex) as Hpex.
  set (e' := fexp prec emax (Zdigits2 mx + ex)) in *.
  assert (e' ≤ eh) as He'.
  { destruct (Z.eq_dec mx 0) as [->|Hne].
    - subst e'. rewrite fexp_unfold in *. simpl in *. lia.
    - pose proof (Zdigits2_bound mx ltac:(lia)) as [Hdlo _].
      pose proof (digits2_pos_bound mh) as [_ Hdhi].
      assert (mx * pw ex ≤ Z.pos mh * pw eh) as Hv by nia.
      pose proof (Zdigits2_pos mx ltac:(lia)) as Hdpos.
      assert (pw (ex + (Zdigits2 mx - 1)) < pw (eh + Z.pos (digits2_pos mh))) as Hp.
      { rewrite !pw_add by lia.
        pose proof (pw_pos eh ltac:(lia)). nia. }
      unfold pw in Hp. apply pow2_lt_inv in Hp; [|lia].
      subst e'. unfold canonical in Hch. rewrite <- Hch.
      apply fexp_mono. lia. }
  pose proof (pw_pos e' ltac:(lia)) as Hpe'.
  assert (pw e' = 2 ^ (e' - ex) * pw ex) as Hpw1.
  { rewrite <- pw_add by lia. f_equal. lia. }
  assert (pw eh = 2 ^ (eh - e') * pw e') as Hpw2.
  { rewrite <- pw_add by lia. f_equal. lia. }
  set (m2 := round_nearest_even (shr_m mrs1) (loc_of_shr_record mrs1)) in *.
  assert (m2 ≤ Z.pos mh * 2 ^ (eh - e')) as Hm2G.
  { apply (round_nearest_even_le n (2 ^ (e' - ex) * d)); [done|].
    rewrite Hpw2, Hpw1 in Hval.
    apply (Z.mul_le_mono_pos_r _ _ (pw ex)); [done|]. lia. }
  assert (m2 * pw e' ≤ Z.pos mh * pw eh) as Hfinal by (rewrite Hpw2; nia).
  destruct (binary_round_aux prec emax false mx ex lx) as [s|s| |s mf ef];
    simpl in Hres.
  - by destruct s.
  - exfalso. destruct Hres as [_ Hres].
    assert (pw eh ≤ pw 971) by (apply pw_le; lia).
    assert (pw 972 = 2 * pw 971).
    { change 972 with (971 + 1). by rewrite pw_add. }
    pose proof (pw_pos 971 ltac:(lia)).
    change (2 ^ 53) with (2 * 2 ^ 52) in Hmh. nia.
  - done.
  - destruct Hres as (-> & Hc & He & Hv). apply SFleb_of_value; [done..|lia].
Qed.

(** ** Values of non-negative finite floats *)

(** Zero, or a canonical positive finite float. *)
Definition fin_nonneg (x : spec_float) : Prop :=
  match x with
  | S754_zero _ => True
  | S754_finite false m e => canonical m e ∧ e ≤ 971
  | _ => False
  end.

(** The value, scaled by [2 ^ 4400]. *)
Definition fval (x : spec_float) : Z :=
  match x with
  | S754_finite _ m e => Z.pos m * pw e
  | _ => 0
  end.

Lemma fval_nonneg x : fin_nonneg x → 0 ≤ fval x.
Proof.
  destruct x as [s|s| |[] m e]; simpl; try done; try lia.
  intros [Hc _]. pose proof (pw_pos e ltac:(apply canonical_facts in Hc; lia)).
  lia.
Qed.

Lemma fval_pos_finite x :
  fin_nonneg x → 0 < fval x →
  ∃ m e, x = S754_finite false m e ∧ canonical m e ∧ e ≤ 971.
Proof.
  destruct x as [s|s| |[] m e]; simpl; try done; try lia.
  intros [Hc He] _. eauto.
Qed.

(** Between zero and a finite bound: finite, non-negative, of smaller
    value. *)
Lemma fin_nonneg_of_SFleb x c :
  valid_binary x = true → fin_nonneg c →
  SFleb (S754_zero false) x = true → SFleb x c = true →
  fin_nonneg x ∧ fval x ≤ fval c.
Proof.
  intros Hv Hc H0 Hle.
  destruct x as [s|s| |s m e]; simpl in *.
  - split; [done|]. by apply fval_nonneg.
  - destruct s; [done|]. by destruct c as [?|?| |[] ? ?].
  - done.
  - destruct s; [done|]. apply bounded_canonical in Hv as [Hcx Hex].
    split; [done|].
    destruct c as [?|?| |[] mc ec]; try done.
    destruct Hc as [Hc _]. by apply value_of_SFleb.
Qed.

Lemma SFleb_of_fval x c :
  fin_nonneg x → fin_nonneg c → fval x ≤ fval c →
  SFleb (S754_zero false) x = true ∧ SFleb x c = true.
Proof.
  intros Hx Hc Hle.
  destruct x as [s|s| |[] m e]; try done.
  - split; [done|]. by destruct c as [?|?| |[] ? ?].
  - destruct Hx as [Hx _]. split; [done|].
    destruct c as [?|?| |[] mc ec]; try done.
    + simpl in Hle.
      pose proof (pw_pos e ltac:(apply canonical_facts in Hx; lia)). lia.
    + destruct Hc as [Hc _]. by apply SFleb_of_value.
Qed.

(** A located value bounded by a positive finite float rounds to a
    non-negative finite float below that bound. *)
Lemma round_aux_bounded mx ex lx n d c :
  0 ≤ mx → loc_located n d mx lx →
  ex ≤ fexp prec emax (Zdigits2 mx + ex) →
  -4400 ≤ ex →
  fin_nonneg c → 0 < fval c →
  n * pw ex ≤ fval c * d →
  fin_nonneg (binary_round_aux prec emax false mx ex lx)
  ∧ fval (binary_round_aux prec emax false mx ex lx) ≤ fval c.
Proof.
  intros Hmx Hloc Hgrid Hex Hc Hcpos Hval.
  destruct (fval_pos_finite c Hc Hcpos) as (mc & ec & -> & Hcc & Hec).
  destruct (round_aux_spec mx ex lx n d Hmx Hloc Hgrid Hex) as (mrs1 & _ & Hres).
  apply fin_nonneg_of_SFleb.
  - by eapply round_result_valid.
  - done.
  - by eapply round_result_nonneg.
  - by eapply round_aux_upper.
Qed.

(** ** Multiplication *)

Lemma pw_mul e1 e2 :
  -4400 ≤ e1 → -4400 ≤ e2 → -4400 ≤ e1 + e2 → pw (e1 + e2) * pw 0 = pw e1 * pw e2.
Proof.
  intros. unfold pw. rewrite <- !Z.pow_add_r by lia. f_equal. lia.
Qed.

Lemma mul_grid mx ex my ey :
  canonical mx ex → canonical my ey →
  ex + ey ≤ fexp prec emax (Zdigits2 (Z.pos (mx * my)) + (ex + ey)).
Proof.
  unfold canonical. rewrite !fexp_unfold. intros Hx Hy.
  pose proof (digits2_pos_bound mx) as [Hxlo _].
  pose proof (digits2_pos_bound my) as [Hylo _].
  assert (2 ^ (Z.pos (digits2_pos mx) - 1 + (Z.pos (digits2_pos my) - 1))
          ≤ Z.pos (mx * my)) as Hlo.
  { rewrite Z.pow_add_r by lia. rewrite Pos2Z.inj_mul.
    pose proof (Z.pow_pos_nonneg 2 (Z.pos (digits2_pos mx) - 1) ltac:(lia) ltac:(lia)).
    pose proof (Z.pow_pos_nonneg 2 (Z.pos (digits2_pos my) - 1) ltac:(lia) ltac:(lia)).
    nia. }
  apply Zdigits2_gt in Hlo; lia.
Qed.

Lemma SFmul_bounded x y c :
  fin_nonneg x → fin_nonneg y → fin_nonneg c →
  fval x * fval y ≤ fval c * pw 0 →
  fin_nonneg (SFmul prec emax x y) ∧ fval (SFmul prec emax x y) ≤ fval c.
Proof.
  intros Hx Hy Hc Hval. pose proof (fval_nonneg c Hc) as Hc0.
  destruct x as [sx|sx| |[] mx ex]; try done;
    destruct y as [sy|sy| |[] my ey]; try done; simpl SFmul;
    try (split; [done|simpl; lia]).
  destruct Hx as [Hx Hex], Hy as [Hy Hey].
  pose proof (canonical_facts mx ex Hx) as (Hex0 & _).
  pose proof (canonical_facts my ey Hy) as (Hey0 & _).
  pose proof (pw_pos 0 ltac:(lia)) as Hp0.
  pose proof (pw_pos ex ltac:(lia)) as Hpx.
  pose proof (pw_pos ey ltac:(lia)) as Hpy.
  simpl in Hval.
  apply (round_aux_bounded _ _ _ (Z.pos (mx * my)) 1).
  - lia.
  - apply located_exact. lia.
  - by apply mul_grid.
  - lia.
  - done.
  - nia.
  - apply (Z.mul_le_mono_pos_r _ _ (pw 0)); [done|].
    rewrite <- Z.mul_assoc, pw_mul by lia. rewrite Pos2Z.inj_mul. nia.
Qed.

(** ** Alignment and addition *)

Lemma Pos_iter_xO m d : Z.pos (Pos.iter xO m d) = Z.pos m * 2 ^ Z.pos d.
Proof.
  induction d as [|d IH] using Pos.peano_ind.
  - simpl. lia.
  - rewrite Pos.iter_succ, Pos2Z.inj_xO, IH, Pos2Z.inj_succ, Z.pow_succ_r by lia.
    ring.
Qed.

Lemma shl_align_spec m e e' :
  (shl_align m e e').2 = Z.min e e'
  ∧ Z.pos (shl_align m e e').1 = Z.pos m * 2 ^ (e - Z.min e e').
Proof.
  unfold shl_align. destruct (e' - e) as [|p|p] eqn:Hd; simpl.
  - replace (Z.min e e') with e by lia. rewrite Z.sub_diag. simpl. lia.
  - replace (Z.min e e') with e by lia. rewrite Z.sub_diag. simpl. lia.
  - replace (Z.min e e') with e' by lia. split; [done|].
    rewrite Pos_iter_xO. f_equal. f_equal. lia.
Qed.

Lemma Zdigits2_shift m k :
  0 < m → 0 ≤ k → Zdigits2 (m * 2 ^ k) = Zdigits2 m + k.
Proof.
  intros Hm Hk. pose proof (Zdigits2_bound m Hm) as [Hlo Hhi].
  pose proof (Zdigits2_pos m Hm).
  pose proof (Z.pow_pos_nonneg 2 k ltac:(lia) Hk).
  apply Zdigits2_unique; [|lia].
  replace (Zdigits2 m + k - 1) with (Zdigits2 m - 1 + k) by lia.
  rewrite !Z.pow_add_r by lia. nia.
Qed.

(** Rounding a positive integer multiple of a power of two. *)
Lemma binary_round_bounded N E c :
  -4400 ≤ E →
  fin_nonneg c → 0 < fval c →
  Z.pos N * pw E ≤ fval c →
  fin_nonneg (binary_round prec emax false N E)
  ∧ fval (binary_round prec emax false N E) ≤ fval c.
Proof.
  intros HE Hc Hcpos Hval. unfold binary_round.
  set (f := fexp prec emax (Z.pos (digits2_pos N) + E)).
  pose proof (shl_align_spec N E f) as [He Hm].
  destruct (shl_align N E f) as [mz ez]. simpl in He, Hm.
  assert (-1074 ≤ f) by (subst f; rewrite fexp_unfold; lia).
  assert (Zdigits2 (Z.pos mz) + ez = Z.pos (digits2_pos N) + E) as Hmag.
  { rewrite Hm, Zdigits2_shift by lia. simpl. lia. }
  apply (round_aux_bounded _ _ _ (Z.pos mz) 1).
  - lia.
  - apply located_exact. lia.
  - rewrite Hmag. fold f. lia.
  - lia.
  - done.
  - done.
  - rewrite Hm, Z.mul_1_r, <- Z.mul_assoc, <- pw_add by lia.
    by replace (ez + (E - Z.min E f)) with E by lia.
Qed.

Lemma SFadd_bounded x y c :
  fin_nonneg x → fin_nonneg y → fin_nonneg c →
  fval x + fval y ≤ fval c →
  fin_nonneg (SFadd prec emax x y) ∧ fval (SFadd prec emax x y) ≤ fval c.
Proof.
  intros Hx Hy Hc Hval.
  pose proof (fval_nonneg x Hx) as Hx0. pose proof (fval_nonneg y Hy) as Hy0.
  destruct x as [sx|sx| |[] mx ex]; try done;
    destruct y as [sy|sy| |[] my ey]; try done; simpl SFadd.
  1-3: try (by destruct sx, sy; (split; [done|simpl in *; lia]));
       try (split; [assumption|simpl in *; lia]).
  destruct Hx as [Hx Hex], Hy as [Hy Hey].
  pose proof (canonical_facts mx ex Hx) as (Hex0 & _).
  pose proof (canonical_facts my ey Hy) as (Hey0 & _).
  pose proof (shl_align_spec mx ex (Z.min ex ey)) as [_ Hmx'].
  pose proof (shl_align_spec my ey (Z.min ex ey)) as [_ Hmy'].
  set (ez := Z.min ex ey) in *.
  replace (Z.min ex ez) with ez in Hmx' by lia.
  replace (Z.min ey ez) with ez in Hmy' by lia.
  pose proof (pw_pos ex ltac:(lia)). pose proof (pw_pos ey ltac:(lia)).
  simpl in Hval.
  apply binary_round_bounded; [lia|done|lia|].
  rewrite Pos2Z.inj_add, Hmx', Hmy', Z.mul_add_distr_r.
  rewrite <- !Z.mul_assoc, <- !pw_add by lia.
  replace (ez + (ex - ez)) with ex by lia.
  by replace (ez + (ey - ez)) with ey by lia.
Qed.

(** ** Division *)

Lemma new_location_located q m2 r :
  0 ≤ q → 0 < m2 → 0 ≤ r < m2 →
  loc_located (q * m2 + r) m2 q (new_location m2 r).
Proof.
  intros Hq Hm Hr. unfold loc_located, located, new_location.
  destruct (Z.even m2) eqn:Heven.
  - unfold new_location_even. destruct (Z.eqb_spec r 0) as [->|Hne]; simpl.
    + lia.
    + destruct (Z.compare_spec (2 * r) m2); simpl; lia.
  - unfold new_location_odd. destruct (Z.eqb_spec r 0) as [->|Hne]; simpl.
    + lia.
    + assert (Z.odd m2 = true) as Hodd by (by rewrite <- Z.negb_even, Heven).
      apply Z.odd_spec in Hodd as [j Hj].
      destruct (Z.compare_spec (2 * r + 1) m2); simpl; lia.
Qed.

Lemma SFdiv_core_spec m1 e1 m2 e2 :
  -2200 ≤ e1 - e2 →
  let '(q, e', l) := SFdiv_core_binary prec emax (Z.pos m1) e1 (Z.pos m2) e2 in
  ∃ s, 0 ≤ s ∧ e' + s = e1 - e2 ∧ -4400 ≤ e'
    ∧ 0 ≤ q
    ∧ loc_located (Z.pos m1 * 2 ^ s) (Z.pos m2) q l
    ∧ e' ≤ fexp prec emax (Zdigits2 q + e').
Proof.
  intros He. unfold SFdiv_core_binary.
  set (d1 := Zdigits2 (Z.pos m1)). set (d2 := Zdigits2 (Z.pos m2)).
  set (e' := Z.min (fexp prec emax (d1 + e1 - (d2 + e2))) (e1 - e2)).
  set (s := e1 - e2 - e').
  assert (e' ≤ e1 - e2
          ∧ e' ≤ fexp prec emax (d1 + e1 - (d2 + e2))
          ∧ -4400 ≤ e') as (Hee & Hef & He').
  { unfold e'. rewrite fexp_unfold. lia. }
  assert (0 ≤ s) as Hs by (unfold s; lia).
  assert (e' + s = e1 - e2) as Hes by (unfold s; lia).
  clearbody s e'.
  assert (match s with
          | 0 => Z.pos m1
          | Z.pos _ => Z.pos m1 ≪ s
          | Z.neg _ => 0
          end = Z.pos m1 * 2 ^ s) as ->.
  { destruct s as [|p|p] eqn:Hsp; [simpl; lia| |lia].
    by rewrite Z.shiftl_mul_pow2. }
  pose proof (Z.pow_pos_nonneg 2 s ltac:(lia) Hs) as Hps.
  pose proof (Z.div_eucl_eq (Z.pos m1 * 2 ^ s) (Z.pos m2) ltac:(lia)) as Hdiv.
  pose proof (Z.mod_pos_bound (Z.pos m1 * 2 ^ s) (Z.pos m2) ltac:(lia)) as Hmod.
  unfold Z.modulo in Hmod.
  destruct (Z.div_eucl (Z.pos m1 * 2 ^ s) (Z.pos m2)) as [q r].
  assert (0 ≤ q) as Hq by nia.
  exists s. split_and!; [done|lia|done|done| |].
  - rewrite Hdiv. replace (Z.pos m2 * q + r) with (q * Z.pos m2 + r) by lia.
    by apply new_location_located.
  - pose proof (Zdigits2_bound (Z.pos m1) ltac:(lia)) as [H1lo _].
    pose proof (Zdigits2_bound (Z.pos m2) ltac:(lia)) as [_ H2hi].
    fold d1 in H1lo. fold d2 in H2hi.
    assert (0 < d1) by (subst d1; simpl; lia).
    assert (0 < d2) by (subst d2; simpl; lia).
    destruct (Z.eq_dec q 0) as [->|Hq0].
    + (* the quotient is below the grid: only near emin *)
      simpl. rewrite fexp_unfold.
      assert (2 ^ (d1 - 1 + s) < 2 ^ d2) as Hp.
      { rewrite Z.pow_add_r by lia. nia. }
      apply pow2_lt_inv in Hp; [|lia].
      rewrite fexp_unfold in *. lia.
    + assert (d1 + s - d2 < Zdigits2 q + 1) as Hdq.
      { destruct (Z.le_gt_cases (d1 + s - d2) 0) as [|Hpos].
        - pose proof (Zdigits2_pos q ltac:(lia)). lia.
        - assert (2 ^ (d1 + s - d2 - 1) ≤ q) as Hlo.
          { assert (2 ^ (d1 - 1 + s) = 2 ^ (d1 + s - d2 - 1) * 2 ^ d2) as Hsplit.
            { rewrite <- Z.pow_add_r by lia. f_equal. lia. }
            rewrite Z.pow_add_r in Hsplit by lia.
            pose proof (Z.pow_pos_nonneg 2 (d1 + s - d2 - 1) ltac:(lia) ltac:(lia)).
            nia. }
          apply Zdigits2_gt in Hlo; lia. }
      rewrite !fexp_unfold in *. lia.
Qed.

Lemma SFdiv_bounded m1 e1 m2 e2 c :
  -2200 ≤ e1 → e1 ≤ 2200 → -2200 ≤ e2 → e2 ≤ 2200 → -2200 ≤ e1 - e2 →
  fin_nonneg c → 0 < fval c →
  Z.pos m1 * pw e1 * pw 0 ≤ fval c * (Z.pos m2 * pw e2) →
  let r := SFdiv prec emax (S754_finite false m1 e1) (S754_finite false m2 e2) in
  valid_binary r = true ∧ fin_nonneg r ∧ fval r ≤ fval c.
Proof.
  intros He1 He1' He2 He2' He Hc Hcpos Hval. simpl.
  pose proof (SFdiv_core_spec m1 e1 m2 e2 He) as Hcore.
  destruct (SFdiv_core_binary prec emax (Z.pos m1) e1 (Z.pos m2) e2)
    as [[q e'] l].
  destruct Hcore as (s & Hs & Hes & He' & Hq & Hloc & Hgrid).
  destruct (round_aux_spec q e' l _ _ Hq Hloc Hgrid He') as (mrs1 & _ & Hres).
  split; [by eapply round_result_valid|].
  apply (round_aux_bounded _ _ _ _ _ c Hq Hloc Hgrid He' Hc Hcpos).
  pose proof (pw_pos e2 ltac:(lia)) as Hp2.
  apply (Z.mul_le_mono_pos_r _ _ (pw e2)); [done|].
  assert (2 ^ s * pw e' * pw e2 = pw e1 * pw 0) as Hpw.
  { rewrite <- pw_add by lia. replace (e' + s) with (e1 - e2) by lia.
    unfold pw. rewrite <- !Z.pow_add_r by lia. f_equal. lia. }
  nia.
Qed.

(** ** Bounds on primitive floats *)

(** [x] is a non-negative finite float of value at most that of [c]. *)
Definition le_val (x c : float) : Prop :=
  fin_nonneg (Prim2SF x) ∧ fval (Prim2SF x) ≤ fval (Prim2SF c).

Lemma le_val_of_leb x c :
  fin_nonneg (Prim2SF c) →
  (0 <=? x)%float = true → (x <=? c)%float = true → le_val x c.
Proof.
  rewrite !leb_spec. intros Hc H0 Hle.
  apply fin_nonneg_of_SFleb; [apply Prim2SF_valid|done..].
Qed.

Lemma leb_of_le_val x c :
  fin_nonneg (Prim2SF c) → le_val x c →
  (0 <=? x)%float = true ∧ (x <=? c)%float = true.
Proof.
  rewrite !leb_spec. intros Hc [Hx Hle]. by apply SFleb_of_fval.
Qed.

Lemma le_val_mul x y cx cy c :
  le_val x cx → le_val y cy → fin_nonneg (Prim2SF c) →
  fval (Prim2SF cx) * fval (Prim2SF cy) ≤ fval (Prim2SF c) * pw 0 →
  le_val (x * y) c.
Proof.
  intros [Hx Hxle] [Hy Hyle] Hc Hval. unfold le_val. rewrite mul_spec.
  apply SFmul_bounded; [done..|].
  pose proof (fval_nonneg _ Hx). pose proof (fval_nonneg _ Hy). nia.
Qed.

Lemma le_val_add x y cx cy c :
  le_val x cx → le_val y cy → fin_nonneg (Prim2SF c) →
  fval (Prim2SF cx) + fval (Prim2SF cy) ≤ fval (Prim2SF c) →
  le_val (x + y) c.
Proof.
  intros [Hx Hxle] [Hy Hyle] Hc Hval. unfold le_val. rewrite add_spec.
  apply SFadd_bounded; [done..|]. lia.
Qed.

Lemma fin_nonneg_exponent x m e :
  fin_nonneg x → x = S754_finite false m e → -1074 ≤ e ≤ 971.
Proof. intros Hx ->. destruct Hx as [Hc He]. apply canonical_facts in Hc. lia. Qed.

(** Division by a positive finite float. *)
Lemma le_val_div x y c :
  fin_nonneg (Prim2SF x) → fin_nonneg (Prim2SF y) → 0 < fval (Prim2SF y) →
  fin_nonneg (Prim2SF c) →
  fval (Prim2SF x) * pw 0 ≤ fval (Prim2SF c) * fval (Prim2SF y) →
  le_val (x / y) c.
Proof.
  intros Hx Hy Hypos Hc Hval. unfold le_val. rewrite div_spec.
  destruct (fval_pos_finite _ Hy Hypos) as (my & ey & Hyeq & Hcy & Hey).
  rewrite Hyeq in *.
  pose proof (canonical_facts _ _ Hcy) as (Hey0 & _).
  destruct (Prim2SF x) as [sx|sx| |[] mx ex] eqn:Hxeq; try done.
  - split; [done|]. simpl. by apply fval_nonneg.
  - destruct Hx as [Hcx Hex].
    pose proof (canonical_facts _ _ Hcx) as (Hex0 & _).
    assert (0 < fval (Prim2SF c)) as Hcpos.
    { simpl in Hval.
      pose proof (pw_pos ex ltac:(lia)). pose proof (pw_pos ey ltac:(lia)).
      pose proof (pw_pos 0 ltac:(lia)). pose proof (fval_nonneg _ Hc). nia. }
    apply (SFdiv_bounded mx ex my ey (Prim2SF c)); try lia; done.
Qed.

(** ** C2: the HDY oscillator *)

Definition high_or_0 (d : StockDataPoint) : float :=
  nullish_or (of_optional (high d)) 0.
Definition low_or_0 (d : StockDataPoint) : float :=
  nullish_or (of_optional (low d)) 0.

(** The range scan over a list of bars, from given running extremes. *)
Definition scan_range (bars : list StockDataPoint) (acc : float * float)
  : float * float :=
  foldl (λ acc d,
           (if Number.gtb (high_or_0 d) acc.1 then high_or_0 d else acc.1,
            if (low_or_0 d <? acc.2)%float then low_or_0 d else acc.2))
    acc bars.

(** [maxH] and [minL] over the 34 bars ending at index [i]. *)
Definition window_range (data : list StockDataPoint) (i : nat) : float * float :=
  scan_range (take 34 (drop (i - 33) data)) (neg_infinity, infinity).

(** The raw stochastic value at index [i]. *)
Definition rsv_at (data : list StockDataPoint) (i : nat) : float :=
  match data !! i with
  | Some d => rsv_of (close d) (window_range data i).1 (window_range data i).2
  | None => 50%float
  end.

Definition ema_next (lastEMA rsv : float) : float :=
  ((2 * rsv + (HDY_M - 1) * lastEMA) / (HDY_M + 1))%float.

(** [lastEMA] once the indices below [i] are processed. *)
Fixpoint ema_upto (data : list StockDataPoint) (i : nat) : float :=
  match i with
  | O => 50%float
  | S k =>
      if (k <? HDY_N)%nat then ema_upto data k
      else ema_next (ema_upto data k) (rsv_at data k)
  end.

Definition hdy_entry (data : list StockDataPoint) (i : nat) : float :=
  if (i <? HDY_N)%nat then 50%float
  else Number.round_to 2 (ema_upto data (S i)).

Lemma range_loop data n lo acc :
  (lo + n ≤ length data)%nat →
  for_range n lo (range_step data) acc
  = Some (scan_range (take n (drop lo data)) acc).
Proof.
  revert lo acc. induction n as [|n IH]; intros lo acc Hlen; [done|].
  destruct (lookup_lt_is_Some_2 data lo) as [d Hd]; [lia|].
  assert (range_step data lo acc = Some (scan_range [d] acc)) as Hstep.
  { unfold range_step. rewrite Hd. by destruct acc. }
  cbn [for_range]. rewrite Hstep. simpl.
  rewrite IH by lia. rewrite (drop_S data d lo Hd). reflexivity.
Qed.

Lemma hdy_step_spec data i hdy lastEMA :
  (i < length data)%nat →
  lastEMA = ema_upto data i →
  hdy_step data i (hdy, lastEMA)
  = Some (hdy ++ [hdy_entry data i], ema_upto data (S i)).
Proof.
  intros Hi ->. unfold hdy_step, hdy_entry. simpl ema_upto.
  destruct (Nat.ltb_spec i HDY_N) as [Hlt|Hge]; [done|].
  unfold for_from_to, HDY_N in *.
  replace (S i - (i - 34 + 1))%nat with 34%nat by lia.
  rewrite range_loop by lia.
  destruct (lookup_lt_is_Some_2 data i Hi) as [d Hd].
  unfold rsv_at, window_range. rewrite Hd.
  replace (i - 34 + 1)%nat with (i - 33)%nat by lia.
  by destruct (scan_range _ _) as [maxH minL].
Qed.

Lemma calculateHDY_entries data :
  calculateHDY data = Some (hdy_entry data <$> seq 0 (length data)).
Proof.
  unfold calculateHDY.
  destruct (for_range_invariant
              (λ i st, st = (hdy_entry data <$> seq 0 i, ema_upto data i))
              (length data) 0 (hdy_step data) ([], 50%float))
    as (st & -> & ->); [done| |done].
  intros i st [_ Hi] ->. simpl in Hi.
  rewrite hdy_step_spec by done. eexists. split; [done|].
  by rewrite seq_S, fmap_app.
Qed.

(** [0 <= x <= 100]. *)
Definition in_range (x : float) : Prop :=
  (0 <=? x)%float && (x <=? 100)%float = true.

(** The range at index [i] is flat or holds no valid high: [rsv] is 50. *)
Definition flat_at (data : list StockDataPoint) (i : nat) : Prop :=
  Number.strict_ne (window_range data i).1 (window_range data i).2
  && Number.strict_ne (window_range data i).1 neg_infinity = false.

(** *** The smoothing step and the rounding stay within [0,100] *)

(** Closed facts about constants are decided by evaluation. *)
Ltac closed_fin := split; [reflexivity|apply Z.leb_le; reflexivity].
Ltac closed_le := apply Z.leb_le; vm_compute; reflexivity.
Ltac closed_lt := apply Z.ltb_lt; vm_compute; reflexivity.

Lemma fin_nonneg_100 : fin_nonneg (Prim2SF 100).
Proof. closed_fin. Qed.

Lemma in_range_le_val x : in_range x ↔ le_val x 100.
Proof.
  unfold in_range. rewrite andb_true_iff. split.
  - intros [H0 H100]. by apply le_val_of_leb; [apply fin_nonneg_100|..].
  - intros H. by apply leb_of_le_val; [apply fin_nonneg_100|].
Qed.

Lemma le_val_refl c : fin_nonneg (Prim2SF c) → le_val c c.
Proof. by split. Qed.

Lemma ema_next_in_range lastEMA rsv :
  in_range lastEMA → in_range rsv → in_range (ema_next lastEMA rsv).
Proof.
  rewrite !in_range_le_val. intros Hlast Hrsv. unfold ema_next.
  change (HDY_M - 1)%float with 2%float. change (HDY_M + 1)%float with 4%float.
  assert (le_val (2 * rsv) 200) as H1.
  { apply (le_val_mul 2 rsv 2 100);
      [apply le_val_refl; closed_fin|exact Hrsv|closed_fin|closed_le]. }
  assert (le_val (2 * lastEMA) 200) as H2.
  { apply (le_val_mul 2 lastEMA 2 100);
      [apply le_val_refl; closed_fin|exact Hlast|closed_fin|closed_le]. }
  assert (le_val (2 * rsv + 2 * lastEMA) 400) as [H3 H3le].
  { apply (le_val_add _ _ 200 200 400 H1 H2); [closed_fin|closed_le]. }
  apply le_val_div; [done|closed_fin|closed_lt|closed_fin|].
  etrans; [apply Z.mul_le_mono_nonneg_r; [closed_le|exact H3le]|].
  closed_le.
Qed.

Lemma toFixed_n_le (m : positive) (e : Z) :
  -4400 ≤ e →
  Z.pos m * pw e ≤ 100 * pw 0 →
  Number.toFixed_n 2 m e ≤ 10000.
Proof.
  intros He Hle. unfold Number.toFixed_n, Number.pow10.
  change (10 ^ Z.of_nat 2) with 100.
  pose proof (pw_pos 0 ltac:(lia)) as Hp0.
  destruct (Z.leb_spec 0 e) as [Hpos|Hneg].
  - assert (pw e = 2 ^ e * pw 0) as Hpw.
    { rewrite <- pw_add by lia. f_equal; lia. }
    pose proof (Z.pow_pos_nonneg 2 e ltac:(lia) Hpos). nia.
  - pose proof (pw_pos e He) as Hpe.
    assert (pw 0 = 2 ^ (- e) * pw e) as Hpw.
    { rewrite <- pw_add by lia. f_equal; lia. }
    pose proof (Z.pow_pos_nonneg 2 (- e) ltac:(lia) ltac:(lia)) as Hp.
    assert (2 ^ (1 - e) = 2 * 2 ^ (- e)) as ->.
    { replace (1 - e) with (1 + - e) by lia. by rewrite Z.pow_add_r by lia. }
    assert (Z.pos m ≤ 100 * 2 ^ (- e)) by nia.
    apply Z.lt_succ_r, Z.div_lt_upper_bound; lia.
Qed.

Lemma fval_100 : fval (Prim2SF 100) = 100 * pw 0.
Proof. apply Z.eqb_eq. vm_compute. reflexivity. Qed.

Lemma round_to_2_in_range x : in_range x → in_range (Number.round_to 2 x).
Proof.
  rewrite !in_range_le_val. intros [Hx Hle]. rewrite fval_100 in Hle.
  unfold Number.round_to, Number.toFixed_repr.
  destruct (Prim2SF x) as [s|s| |[] m e] eqn:Hxeq; [|done|done|done|].
  - cbn [Number.parseFloat_fixed Number.of_ratio].
    split; [done|]. rewrite fval_100. closed_le.
  - assert (abs x = x) as ->.
    { apply Prim2SF_inj. by rewrite abs_spec, Hxeq. }
    destruct Hx as [Hc He]. pose proof (canonical_facts _ _ Hc) as (He0 & _).
    cbn [fval] in Hle.
    assert ((1e21 <=? x)%float = false) as ->.
    { rewrite leb_spec, Hxeq.
      change (Prim2SF 1e21) with (S754_finite false 7629394531250000 17).
      apply not_true_is_false. intros Hbig.
      apply value_of_SFleb in Hbig; [|reflexivity|done].
      assert (100 * pw 0 < 7629394531250000 * pw 17) by closed_lt.
      lia. }
    cbn [Number.parseFloat_fixed]. unfold Number.of_ratio, Number.pow10.
    change (10 ^ Z.of_nat 2) with 100.
    assert (Number.toFixed_n 2 m e ≤ 10000) as Hn
      by (apply toFixed_n_le; [lia|done]).
    destruct (Number.toFixed_n 2 m e) as [|n|n].
    + split; [done|]. rewrite fval_100. closed_le.
    + destruct (SFdiv_bounded n 0 100 0 (Prim2SF 100))
        as (Hvalid & Hfin & Hval); try lia.
      * apply fin_nonneg_100.
      * rewrite fval_100. closed_lt.
      * rewrite fval_100. pose proof (pw_pos 0 ltac:(lia)) as Hp0. nia.
      * unfold le_val. by rewrite Prim2SF_SF2Prim.
    + split; [done|]. rewrite fval_100. closed_le.
Qed.

(** *** Rounding is monotone *)

Lemma located_scale n d mrs c : located n d mrs → 0 < c → located (n * c) (d * c) mrs.
Proof.
  destruct mrs as [m r s]. unfold located. simpl. intros (Hd & Hm & H) Hc.
  split; [nia|]. split; [done|]. destruct r, s; nia.
Qed.

Lemma round_nearest_even_mono_same n1 n2 d mrs1 mrs2 :
  located n1 d mrs1 → located n2 d mrs2 → n1 ≤ n2 →
  round_nearest_even (shr_m mrs1) (loc_of_shr_record mrs1)
  ≤ round_nearest_even (shr_m mrs2) (loc_of_shr_record mrs2).
Proof.
  destruct mrs1 as [m1 r1 s1], mrs2 as [m2 r2 s2]. unfold located. simpl.
  intros (Hd & Hm1 & H1) (_ & Hm2 & H2) Hle.
  assert (Z.even m1 = true → Z.even m2 = false → m1 ≠ m2) as Hpar1
    by (intros ?? ->; congruence).
  assert (Z.even m1 = false → Z.even m2 = true → m1 ≠ m2) as Hpar2
    by (intros ?? ->; congruence).
  destruct r1, s1, r2, s2; simpl;
    destruct (Z.even m1) eqn:He1, (Z.even m2) eqn:He2;
    try specialize (Hpar1 eq_refl eq_refl);
    try specialize (Hpar2 eq_refl eq_refl); nia.
Qed.

Lemma round_nearest_even_mono n1 d1 n2 d2 mrs1 mrs2 :
  located n1 d1 mrs1 → located n2 d2 mrs2 → n1 * d2 ≤ n2 * d1 →
  round_nearest_even (shr_m mrs1) (loc_of_shr_record mrs1)
  ≤ round_nearest_even (shr_m mrs2) (loc_of_shr_record mrs2).
Proof.
  intros H1 H2 Hle.
  pose proof (located_bounds _ _ _ H1) as (Hd1 & _).
  pose proof (located_bounds _ _ _ H2) as (Hd2 & _).
  apply (round_nearest_even_mono_same (n1 * d2) (n2 * d1) (d1 * d2)).
  - by apply located_scale.
  - replace (d1 * d2) with (d2 * d1) by lia. by apply located_scale.
  - done.
Qed.

(** [binary_round] of a positive integer [N] scaled by [2 ^ E]: the value is
    located on the grid of its own precision and rounded there. *)
Lemma binary_round_spec N E :
  -4400 ≤ E →
  let f := fexp prec emax (Z.pos (digits2_pos N) + E) in
  ∃ mrs n d,
    located n d mrs ∧ n * pw f = Z.pos N * pw E * d
    ∧ round_result (binary_round prec emax false N E)
        (round_nearest_even (shr_m mrs) (loc_of_shr_record mrs)) f.
Proof.
  intros HE f. unfold binary_round. fold f.
  pose proof (shl_align_spec N E f) as [He Hm].
  destruct (shl_align N E f) as [mz ez]. simpl in He, Hm.
  assert (-1074 ≤ f) by (subst f; rewrite fexp_unfold; lia).
  assert (Zdigits2 (Z.pos mz) + ez = Z.pos (digits2_pos N) + E) as Hmag.
  { rewrite Hm, Zdigits2_shift by lia. simpl. lia. }
  destruct (round_aux_spec (Z.pos mz) ez loc_Exact (Z.pos mz) 1) as (mrs & Hloc & Hres).
  - lia.
  - apply located_exact. lia.
  - rewrite Hmag. fold f. lia.
  - lia.
  - rewrite Hmag in Hloc, Hres. fold f in Hloc, Hres.
    exists mrs, (Z.pos mz), (2 ^ (f - ez) * 1). split_and!; [done| |done].
    rewrite Hm, Z.mul_1_r.
    replace (pw f) with (2 ^ (f - ez) * pw ez)
      by (rewrite <- pw_add by lia; f_equal; lia).
    replace (pw E) with (2 ^ (E - Z.min E f) * pw ez)
      by (rewrite <- pw_add by lia; f_equal; lia).
    ring.
Qed.

(** [binary_round] is monotone, as long as the larger value does not
    overflow. *)
Lemma binary_round_mono N1 E1 N2 E2 :
  -4400 ≤ E1 → -4400 ≤ E2 →
  Z.pos N1 * pw E1 ≤ Z.pos N2 * pw E2 →
  fin_nonneg (binary_round prec emax false N2 E2) →
  fin_nonneg (binary_round prec emax false N1 E1)
  ∧ fval (binary_round prec emax false N1 E1)
    ≤ fval (binary_round prec emax false N2 E2).
Proof.
  intros HE1 HE2 Hle Hfin2.
  destruct (binary_round_spec N1 E1 HE1) as (mrs1 & n1 & d1 & Hloc1 & Hn1 & Hres1).
  destruct (binary_round_spec N2 E2 HE2) as (mrs2 & n2 & d2 & Hloc2 & Hn2 & Hres2).
  set (f1 := fexp prec emax (Z.pos (digits2_pos N1) + E1)) in *.
  set (f2 := fexp prec emax (Z.pos (digits2_pos N2) + E2)) in *.
  set (r1 := binary_round prec emax false N1 E1) in *.
  set (r2 := binary_round prec emax false N2 E2) in *.
  set (m1 := round_nearest_even (shr_m mrs1) (loc_of_shr_record mrs1)) in *.
  set (m2 := round_nearest_even (shr_m mrs2) (loc_of_shr_record mrs2)) in *.
  pose proof (digits2_pos_bound N1) as [Hlo1 Hhi1].
  pose proof (digits2_pos_bound N2) as [Hlo2 Hhi2].
  pose proof (pw_pos E1 HE1) as HpE1. pose proof (pw_pos E2 HE2) as HpE2.
  assert (Z.pos (digits2_pos N1) + E1 ≤ Z.pos (digits2_pos N2) + E2) as Hmag.
  { assert (pw (E1 + (Z.pos (digits2_pos N1) - 1)) < pw (E2 + Z.pos (digits2_pos N2))) as Hp.
    { rewrite !pw_add by lia. nia. }
    unfold pw in Hp. apply pow2_lt_inv in Hp; lia. }
  assert (f1 ≤ f2) as Hf by (by apply fexp_mono).
  assert (-1074 ≤ f1) as Hf1 by (subst f1; rewrite fexp_unfold; lia).
  pose proof (pw_pos f1 ltac:(lia)) as Hpf1.
  pose proof (pw_pos f2 ltac:(lia)) as Hpf2.
  pose proof (located_bounds _ _ _ Hloc1) as (Hd1 & Hs1 & Hb1).
  pose proof (located_bounds _ _ _ Hloc2) as (Hd2 & Hs2 & Hb2).
  pose proof (round_nearest_even_ge mrs1) as Hge1. fold m1 in Hge1.
  pose proof (round_nearest_even_ge mrs2) as Hge2. fold m2 in Hge2.
  assert (pw 972 = 2 * pw 971) as Hp972.
  { change 972 with (971 + 1). by rewrite pw_add. }
  destruct (Z.eq_dec f1 f2) as [Heq|Hne].
  - (* same grid *)
    assert (m1 ≤ m2) as Hm.
    { apply (round_nearest_even_mono n1 d1 n2 d2); [done..|].
      rewrite Heq in Hn1.
      apply (Z.mul_le_mono_pos_r _ _ (pw f2)); [done|].
      replace (n1 * d2 * pw f2) with (Z.pos N1 * pw E1 * (d1 * d2))
        by (rewrite Z.mul_assoc, <- Hn1; ring).
      replace (n2 * d1 * pw f2) with (Z.pos N2 * pw E2 * (d1 * d2))
        by (rewrite (Z.mul_comm d1 d2), Z.mul_assoc, <- Hn2; ring).
      apply Z.mul_le_mono_nonneg_r; [nia|done]. }
    rewrite Heq in Hres1.
    assert (m2 * pw f2 = fval r2) as Hv2.
    { destruct r2 as [s|s| |[] mf ef];
        cbn [fval fin_nonneg round_result] in Hres2, Hfin2 |- *;
        [|contradiction..|].
      - destruct Hres2 as [_ ->]. lia.
      - by destruct Hres2 as (_ & _ & _ & ->). }
    assert (fval r2 < 2 ^ 52 * pw 972) as Hup.
    { destruct r2 as [s|s| |[] mf ef]; cbn [fval fin_nonneg] in Hfin2 |- *;
        [|contradiction..|].
      { pose proof (pw_pos 972 ltac:(lia)). lia. }
      destruct Hfin2 as [Hc He].
      pose proof (canonical_facts _ _ Hc) as (He0 & Hmf & _).
      assert (pw ef ≤ pw 971) by (apply pw_le; lia).
      pose proof (pw_pos ef ltac:(lia)).
      change (2 ^ 53) with (2 * 2 ^ 52) in Hmf. nia. }
    destruct r1 as [s|s| |s mf ef]; cbn [fval fin_nonneg round_result] in Hres1 |- *.
    + split; [done|]. by apply fval_nonneg.
    + destruct Hres1 as [_ Hres1]. nia.
    + done.
    + destruct Hres1 as (-> & Hc & He & Hv). split; [done|]. nia.
  - (* the smaller value lies on a finer grid *)
    assert (-1074 < f2) as Hn2' by lia.
    assert (f2 = Z.pos (digits2_pos N2) + E2 - 53) as Hf2
      by (subst f2; rewrite fexp_unfold in *; lia).
    assert (Z.pos (digits2_pos N1) + E1 - 53 ≤ f1) as Hf1'
      by (subst f1; rewrite fexp_unfold; lia).
    assert (Z.pos N1 * pw E1 ≤ 2 ^ 52 * pw f2) as Hbelow.
    { assert (pw (E1 + Z.pos (digits2_pos N1)) ≤ pw (f2 + 52)) as Hp
        by (apply pw_le; lia).
      rewrite !pw_add in Hp by lia. nia. }
    assert (2 ^ 52 * pw f2 ≤ Z.pos N2 * pw E2) as Habove.
    { assert (pw (f2 + 52) = pw (E2 + (Z.pos (digits2_pos N2) - 1))) as Hp
        by (f_equal; lia).
      rewrite !pw_add in Hp by lia. nia. }
    assert (2 ^ 52 ≤ m2) as Hm2.
    { assert (2 ^ 52 * d2 ≤ n2) as Hn.
      { apply (Z.mul_le_mono_pos_r _ _ (pw f2)); [done|]. nia. }
      assert (2 ^ 52 < shr_m mrs2 + 1) by nia. lia. }
    destruct r2 as [s|s| |[] mf ef] eqn:Hr2;
      cbn [fval fin_nonneg round_result] in Hres2, Hfin2; [|contradiction..|].
    { destruct Hres2 as [_ Hz]. rewrite Hz in Hm2.
      pose proof (Z.pow_pos_nonneg 2 52). lia. }
    destruct Hres2 as (_ & Hc & He & Hv).
    pose proof (canonical_facts _ _ Hc) as (He0 & Hmf & _).
    assert (f2 ≤ ef) as Hfe.
    { destruct (Z.le_gt_cases f2 ef) as [|Hlt]; [done|exfalso].
      assert (pw (ef + 1) ≤ pw f2) as Hp by (apply pw_le; lia).
      rewrite pw_add in Hp by lia.
      pose proof (pw_pos ef ltac:(lia)).
      change (2 ^ 53) with (2 * 2 ^ 52) in Hmf. nia. }
    assert (fin_nonneg (S754_finite false (2 ^ 52) f2)) as HP.
    { split; [|lia]. unfold canonical. rewrite fexp_unfold.
      change (Z.pos (digits2_pos (2 ^ 52))) with 53. lia. }
    destruct (binary_round_bounded N1 E1 (S754_finite false (2 ^ 52) f2))
      as [Hfin1 Hv1]; [done|done|cbn [fval]; lia|cbn [fval]; lia|].
    fold r1 in Hfin1, Hv1. split; [done|].
    cbn [fval] in Hv1 |- *. change (Z.pos (2 ^ 52)) with (2 ^ 52) in Hv1. nia.
Qed.

(** ** Subtraction of a smaller value *)

(** The difference of two positive finite floats, the second not larger:
    zero, or the rounded exact difference. *)
Lemma SFsub_finite mx ex my ey :
  -1074 ≤ ex → -1074 ≤ ey →
  Z.pos my * pw ey ≤ Z.pos mx * pw ex →
  let r := SFsub prec emax (S754_finite false mx ex) (S754_finite false my ey) in
  (Z.pos mx * pw ex = Z.pos my * pw ey ∧ r = S754_zero false)
  ∨ ∃ D, r = binary_round prec emax false D (Z.min ex ey)
         ∧ Z.pos D * pw (Z.min ex ey) = Z.pos mx * pw ex - Z.pos my * pw ey.
Proof.
  intros Hex Hey Hle. cbn [SFsub cond_Zopp negb].
  pose proof (shl_align_spec mx ex (Z.min ex ey)) as [_ Hmx'].
  pose proof (shl_align_spec my ey (Z.min ex ey)) as [_ Hmy'].
  set (ez := Z.min ex ey) in *.
  replace (Z.min ex ez) with ez in Hmx' by lia.
  replace (Z.min ey ez) with ez in Hmy' by lia.
  pose proof (pw_pos ez ltac:(lia)) as Hpz.
  assert (Z.pos mx * pw ex = Z.pos (shl_align mx ex ez).1 * pw ez) as Hvx.
  { rewrite Hmx', <- Z.mul_assoc, <- pw_add by lia. do 2 f_equal. lia. }
  assert (Z.pos my * pw ey = Z.pos (shl_align my ey ez).1 * pw ez) as Hvy.
  { rewrite Hmy', <- Z.mul_assoc, <- pw_add by lia. do 2 f_equal. lia. }
  rewrite Hvx, Hvy in *.
  destruct (Z.pos (shl_align mx ex ez).1 - Z.pos (shl_align my ey ez).1)
    as [|D|D] eqn:HD; cbn [binary_normalize].
  - left. split; [|done]. f_equal. lia.
  - right. exists D. split; [done|]. rewrite <- HD. ring.
  - exfalso. nia.
Qed.

Lemma binary_round_one : binary_round prec emax false 1 (-1074) = S754_finite false 1 (-1074).
Proof. reflexivity. Qed.

(** Subtracting the same float from two ordered floats keeps the order,
    the sign and the upper bound; a strict difference stays positive. *)
Lemma SFsub_mono x1 x2 y :
  fin_nonneg x1 → fin_nonneg x2 → fin_nonneg y →
  fval y ≤ fval x1 → fval x1 ≤ fval x2 →
  let a := SFsub prec emax x1 y in
  let b := SFsub prec emax x2 y in
  fin_nonneg a ∧ fin_nonneg b ∧ fval a ≤ fval b
  ∧ (fval y < fval x2 → 0 < fval b).
Proof.
  intros Hx1 Hx2 Hy Hle1 Hle2.
  pose proof (fval_nonneg _ Hy) as Hy0.
  destruct y as [sy|sy| |[] my ey]; cbn [fin_nonneg] in Hy; [|contradiction..|].
  { (* subtracting zero *)
    assert (∀ x, fin_nonneg x →
              fin_nonneg (SFsub prec emax x (S754_zero sy))
              ∧ fval (SFsub prec emax x (S754_zero sy)) = fval x) as Hz.
    { intros [s|s| |[] m e] Hx; cbn [fin_nonneg] in Hx; try contradiction.
      - by destruct s, sy.
      - done. }
    destruct (Hz x1 Hx1) as [Ha Hva], (Hz x2 Hx2) as [Hb Hvb].
    cbn zeta. rewrite Hva, Hvb. split_and!; [done..|]. cbn [fval]. lia. }
  destruct Hy as [Hcy Hey]. cbn [fval] in *.
  pose proof (canonical_facts _ _ Hcy) as (Hey0 & _).
  pose proof (pw_pos ey ltac:(lia)) as Hpy.
  destruct (fval_pos_finite x1 Hx1 ltac:(lia)) as (m1 & e1 & -> & Hc1 & He1).
  destruct (fval_pos_finite x2 Hx2 ltac:(lia)) as (m2 & e2 & -> & Hc2 & He2).
  pose proof (canonical_facts _ _ Hc1) as (He10 & _).
  pose proof (canonical_facts _ _ Hc2) as (He20 & _).
  cbn [fval] in *. cbn zeta.
  destruct (SFsub_finite m1 e1 my ey He10 Hey0 Hle1) as [[Hv1 ->]|(D1 & -> & HD1)];
    destruct (SFsub_finite m2 e2 my ey He20 Hey0 ltac:(lia)) as [[Hv2 ->]|(D2 & -> & HD2)].
  - split_and!; [done|done|done|]. lia.
  - destruct (binary_round_bounded D2 (Z.min e2 ey) (S754_finite false m2 e2))
      as [Hb Hvb]; [lia|done|cbn [fval]; lia|cbn [fval]; lia|].
    destruct (binary_round_mono 1 (-1074) D2 (Z.min e2 ey)) as [_ Hpos];
      [lia|lia| |done|].
    { assert (pw (-1074) ≤ pw (Z.min e2 ey)) by (apply pw_le; lia).
      pose proof (pw_pos (-1074) ltac:(lia)). nia. }
    rewrite binary_round_one in Hpos. cbn [fval] in Hpos.
    pose proof (pw_pos (-1074) ltac:(lia)).
    split_and!; [done|done|cbn [fval]; lia|]. lia.
  - exfalso. pose proof (pw_pos (Z.min e1 ey) ltac:(lia)). lia.
  - destruct (binary_round_bounded D2 (Z.min e2 ey) (S754_finite false m2 e2))
      as [Hb Hvb]; [lia|done|cbn [fval]; lia|cbn [fval]; lia|].
    destruct (binary_round_mono D1 (Z.min e1 ey) D2 (Z.min e2 ey)) as [Ha Hva];
      [lia|lia|lia|done|].
    destruct (binary_round_mono 1 (-1074) D2 (Z.min e2 ey)) as [_ Hpos];
      [lia|lia| |done|].
    { assert (pw (-1074) ≤ pw (Z.min e2 ey)) by (apply pw_le; lia).
      pose proof (pw_pos (-1074) ltac:(lia)). nia. }
    rewrite binary_round_one in Hpos. cbn [fval] in Hpos.
    pose proof (pw_pos (-1074) ltac:(lia)).
    split_and!; [done|done|done|]. lia.
Qed.

(** ** Ordered non-negative floats *)

Lemma SFleb_nonneg_trans x y :
  SFleb (S754_zero false) x = true → SFleb x y = true →
  SFleb (S754_zero false) y = true.
Proof.
  destruct x as [sx|[]| |[] mx ex], y as [sy|[]| |[] my ey]; try done.
  all: unfold SFleb, SFcompare; by destruct sx.
Qed.

Lemma fin_nonneg_below_infinity x :
  valid_binary x = true → SFleb (S754_zero false) x = true →
  SFltb x (S754_infinity false) = true → fin_nonneg x.
Proof.
  destruct x as [s|[]| |[] m e]; try done.
  intros Hv _ _. by apply bounded_canonical.
Qed.

Lemma SFeqb_of_fval x y :
  fin_nonneg x → fin_nonneg y → fval x = fval y → SFeqb x y = true.
Proof.
  destruct x as [sx|sx| |[] mx ex]; cbn [fin_nonneg]; try contradiction;
    destruct y as [sy|sy| |[] my ey]; cbn [fin_nonneg fval]; try contradiction.
  - done.
  - intros _ [Hc _] Hv. apply canonical_facts in Hc as (He & _).
    pose proof (pw_pos ey ltac:(lia)). lia.
  - intros [Hc _] _ Hv. apply canonical_facts in Hc as (He & _).
    pose proof (pw_pos ex ltac:(lia)). lia.
  - intros [Hcx _] [Hcy _] Hv. unfold SFeqb, SFcompare.
    destruct (Z.compare_spec ex ey) as [->|Hlt|Hgt].
    + pose proof (canonical_facts _ _ Hcy) as (He & _).
      pose proof (pw_pos ey ltac:(lia)).
      assert (mx = my) as -> by nia.
      change (Pos.compare_cont Eq my my) with (my ?= my)%positive.
      by rewrite Pos.compare_refl.
    + pose proof (canonical_lt_exponent _ _ _ _ Hcx Hcy Hlt). lia.
    + pose proof (canonical_lt_exponent _ _ _ _ Hcy Hcx Hgt). lia.
Qed.

(** [0 <= x <= y <= z < Infinity] as floats: all three are finite and
    non-negative, with ordered values. *)
Lemma ordered_finite x y z :
  (0 <=? x)%float = true → (x <=? y)%float = true → (y <=? z)%float = true →
  (z <? infinity)%float = true →
  fin_nonneg (Prim2SF x) ∧ fin_nonneg (Prim2SF y) ∧ fin_nonneg (Prim2SF z)
  ∧ fval (Prim2SF x) ≤ fval (Prim2SF y) ∧ fval (Prim2SF y) ≤ fval (Prim2SF z).
Proof.
  rewrite !leb_spec, ltb_spec.
  change (Prim2SF 0) with (S754_zero false).
  change (Prim2SF infinity) with (S754_infinity false).
  intros Hx Hxy Hyz Hz.
  pose proof (SFleb_nonneg_trans _ _ Hx Hxy) as Hy.
  pose proof (SFleb_nonneg_trans _ _ Hy Hyz) as Hz0.
  pose proof (fin_nonneg_below_infinity _ (Prim2SF_valid z) Hz0 Hz) as Hfz.
  destruct (fin_nonneg_of_SFleb _ _ (Prim2SF_valid y) Hfz Hy Hyz) as [Hfy Hvy].
  destruct (fin_nonneg_of_SFleb _ _ (Prim2SF_valid x) Hfy Hx Hxy) as [Hfx Hvx].
  done.
Qed.

Lemma fval_1 : fval (Prim2SF 1) = pw 0.
Proof. apply Z.eqb_eq. vm_compute. reflexivity. Qed.

(** *** The raw stochastic value *)

(** The close lies within the window's range, and the range is finite and
    non-negative: [0 <= minL <= C <= maxH < Infinity]. *)
Definition within_range (C maxH minL : float) : bool :=
  (0 <=? minL)%float && (minL <=? C)%float && (C <=? maxH)%float
  && (maxH <? infinity)%float.

Lemma rsv_of_in_range C maxH minL :
  within_range C maxH minL = true → in_range (rsv_of C maxH minL).
Proof.
  unfold within_range. rewrite !andb_true_iff. intros [[[H0 Hlo] Hhi] Hfin].
  destruct (ordered_finite minL C maxH H0 Hlo Hhi Hfin)
    as (HfL & HfC & HfH & HvL & HvH).
  unfold rsv_of.
  destruct (Number.strict_ne maxH minL) eqn:Hne; [|reflexivity].
  destruct (Number.strict_ne maxH neg_infinity); [|reflexivity].
  cbn [andb].
  assert (fval (Prim2SF minL) < fval (Prim2SF maxH)) as Hlt.
  { destruct (Z.eq_dec (fval (Prim2SF minL)) (fval (Prim2SF maxH))) as [Heq|]; [|lia].
    unfold Number.strict_ne in Hne. rewrite FloatAxioms.eqb_spec in Hne.
    rewrite (SFeqb_of_fval _ _ HfH HfL) in Hne; [done|lia]. }
  pose proof (SFsub_mono _ _ _ HfC HfH HfL HvL HvH) as Hsub. cbn zeta in Hsub.
  assert (∀ x y, SFsub prec emax (Prim2SF x) (Prim2SF y) = Prim2SF (x - y)) as Hs
    by (intros; symmetry; apply FloatAxioms.sub_spec).
  rewrite !Hs in Hsub.
  destruct Hsub as (Ha & Hb & Hab & Hpos). specialize (Hpos Hlt).
  apply in_range_le_val.
  apply (le_val_mul _ 100 1 100);
    [|apply le_val_refl; closed_fin|closed_fin|closed_le].
  apply le_val_div; [done|done|done|closed_fin|].
  rewrite fval_1. pose proof (pw_pos 0 ltac:(lia)). nia.
Qed.

(** The close of bar [i] lies within the range of its window. *)
Definition close_in_range (data : list StockDataPoint) (i : nat) : Prop :=
  ∃ d, data !! i = Some d
       ∧ within_range (close d) (window_range data i).1 (window_range data i).2
         = true.

Lemma in_range_50 : in_range 50.
Proof. reflexivity. Qed.

Lemma rsv_at_in_range data i :
  flat_at data i ∨ close_in_range data i → in_range (rsv_at data i).
Proof.
  unfold rsv_at. intros [Hflat|(d & -> & Hin)].
  - destruct (data !! i) as [d|]; [|apply in_range_50].
    unfold rsv_of. rewrite Hflat. apply in_range_50.
  - by apply rsv_of_in_range.
Qed.

Lemma ema_upto_in_range data i :
  (∀ k, (HDY_N ≤ k < i)%nat → in_range (rsv_at data k)) →
  in_range (ema_upto data i).
Proof.
  induction i as [|i IH]; intros Hrsv; cbn [ema_upto]; [apply in_range_50|].
  destruct (Nat.ltb_spec i HDY_N) as [Hlt|Hge]; [apply IH; intros; apply Hrsv; lia|].
  apply ema_next_in_range; [apply IH; intros; apply Hrsv; lia|apply Hrsv; lia].
Qed.

Lemma hdy_entry_in_range data i :
  (∀ k, (HDY_N ≤ k ≤ i)%nat → in_range (rsv_at data k)) →
  in_range (hdy_entry data i).
Proof.
  intros Hrsv. unfold hdy_entry. destruct (i <? HDY_N)%nat; [apply in_range_50|].
  apply round_to_2_in_range, ema_upto_in_range. intros k Hk. apply Hrsv. lia.
Qed.

(** *** Bars with a consistent quote *)

Lemma SFltb_fval x y :
  fin_nonneg x → fin_nonneg y →
  if SFltb x y then fval x < fval y else fval y ≤ fval x.
Proof.
  destruct x as [sx|sx| |[] mx ex]; cbn [fin_nonneg]; try contradiction;
    destruct y as [sy|sy| |[] my ey]; cbn [fin_nonneg fval]; try contradiction.
  - intros _ _. cbn. lia.
  - intros _ [Hc _]. cbn. apply canonical_facts in Hc as (He & _).
    pose proof (pw_pos ey ltac:(lia)). lia.
  - intros [Hc _] _. cbn. apply canonical_facts in Hc as (He & _).
    pose proof (pw_pos ex ltac:(lia)). lia.
  - intros [Hcx _] [Hcy _]. unfold SFltb, SFcompare.
    destruct (Z.compare_spec ex ey) as [->|Hlt|Hgt].
    + pose proof (canonical_facts _ _ Hcy) as (He & _).
      pose proof (pw_pos ey ltac:(lia)).
      change (Pos.compare_cont Eq mx my) with (mx ?= my)%positive.
      destruct (Pos.compare_spec mx my); [subst; lia|nia|nia].
    + apply (canonical_lt_exponent _ _ _ _ Hcx Hcy Hlt).
    + pose proof (canonical_lt_exponent _ _ _ _ Hcy Hcx Hgt). lia.
Qed.

Lemma SFltb_infinity x : fin_nonneg x → SFltb x (S754_infinity false) = true.
Proof. by destruct x as [s|s| |[] m e]. Qed.

Lemma SFltb_neg_infinity x : fin_nonneg x → SFltb (S754_infinity true) x = true.
Proof. by destruct x as [s|s| |[] m e]. Qed.

(** A bar is consistently quoted when [0 <= low <= close <= high < Infinity],
    a missing high or low counting as 0 as in the range scan. *)
Definition consistent (d : StockDataPoint) : bool :=
  within_range (close d) (high_or_0 d) (low_or_0 d).

Lemma consistent_finite d :
  consistent d = true →
  fin_nonneg (Prim2SF (low_or_0 d)) ∧ fin_nonneg (Prim2SF (close d))
  ∧ fin_nonneg (Prim2SF (high_or_0 d))
  ∧ fval (Prim2SF (low_or_0 d)) ≤ fval (Prim2SF (close d))
  ∧ fval (Prim2SF (close d)) ≤ fval (Prim2SF (high_or_0 d)).
Proof.
  unfold consistent, within_range. rewrite !andb_true_iff.
  intros [[[H0 Hlo] Hhi] Hfin]. by apply ordered_finite.
Qed.

(** The running extremes [acc] bound the highs and lows of the bars [ds]. *)
Definition covers (acc : float * float) (ds : list StockDataPoint) : Prop :=
  fin_nonneg (Prim2SF acc.1) ∧ fin_nonneg (Prim2SF acc.2)
  ∧ ∀ d, d ∈ ds →
      fval (Prim2SF (high_or_0 d)) ≤ fval (Prim2SF acc.1)
      ∧ fval (Prim2SF acc.2) ≤ fval (Prim2SF (low_or_0 d)).

Lemma scan_range_cons d bars acc :
  scan_range (d :: bars) acc = scan_range bars (scan_range [d] acc).
Proof. reflexivity. Qed.

Lemma scan_first d :
  consistent d = true → covers (scan_range [d] (neg_infinity, infinity)) [d].
Proof.
  intros (Hl & _ & Hh & _)%consistent_finite.
  unfold scan_range, Number.gtb. cbn [foldl fst snd].
  rewrite !ltb_spec.
  change (Prim2SF neg_infinity) with (S754_infinity true).
  change (Prim2SF infinity) with (S754_infinity false).
  rewrite SFltb_infinity, SFltb_neg_infinity by done.
  split_and!; [done..|]. intros d' [->|[]%elem_of_nil]%elem_of_cons. cbn [fst snd]. lia.
Qed.

Lemma scan_next d acc ds :
  consistent d = true → covers acc ds → covers (scan_range [d] acc) (d :: ds).
Proof.
  intros (Hl & _ & Hh & _)%consistent_finite (Hmx & Hmn & Hds).
  unfold scan_range, Number.gtb. cbn [foldl]. rewrite !ltb_spec.
  pose proof (SFltb_fval _ _ Hmx Hh) as Hcmp1.
  pose proof (SFltb_fval _ _ Hl Hmn) as Hcmp2.
  destruct (SFltb (Prim2SF acc.1) (Prim2SF (high_or_0 d)));
    destruct (SFltb (Prim2SF (low_or_0 d)) (Prim2SF acc.2));
    unfold covers; cbn [fst snd]; cbv beta iota in Hcmp1, Hcmp2;
    (split_and!; [done..|]);
    (intros d' [->|Hin]%elem_of_cons; [lia|destruct (Hds d' Hin); lia]).
Qed.

Lemma scan_range_covers bars : ∀ acc ds,
  Forall (λ d, consistent d = true) bars → covers acc ds →
  covers (scan_range bars acc) (reverse bars ++ ds).
Proof.
  induction bars as [|d bars IH]; intros acc ds Hall Hacc; [done|].
  apply Forall_cons in Hall as [Hd Hall].
  rewrite scan_range_cons, reverse_cons, <- app_assoc.
  apply IH; [done|]. by apply scan_next.
Qed.

(** In a sequence of consistently quoted bars every close lies within the
    range of its window. *)
Lemma consistent_close_in_range data i :
  Forall (λ d, consistent d = true) data →
  (33 ≤ i < length data)%nat → close_in_range data i.
Proof.
  intros Hall [Hlo Hhi].
  destruct (lookup_lt_is_Some_2 data i Hhi) as [d Hd].
  exists d. split; [done|]. unfold window_range.
  set (W := take 34 (drop (i - 33) data)).
  assert (W !! 33%nat = Some d) as HW.
  { subst W. rewrite lookup_take_lt, lookup_drop by lia.
    by replace (i - 33 + 33)%nat with i by lia. }
  assert (Forall (λ d, consistent d = true) W) as HallW
    by (by apply Forall_take, Forall_drop).
  assert (d ∈ W) as Hin by (by eapply list_elem_of_lookup_2).
  destruct W as [|d0 rest]; [done|].
  apply Forall_cons in HallW as [Hd0 Hrest].
  destruct (scan_range_covers rest _ [d0] Hrest (scan_first d0 Hd0))
    as (Hmx & Hmn & Hds).
  rewrite <- scan_range_cons in Hmx, Hmn, Hds.
  destruct (Hds d) as [Hhigh Hlow].
  { apply elem_of_app. apply elem_of_cons in Hin as [->|Hin].
    - right. apply elem_of_cons. by left.
    - left. by apply elem_of_reverse. }
  assert (consistent d = true) as Hcd.
  { rewrite Forall_forall in Hall. apply Hall.
    by eapply list_elem_of_lookup_2. }
  apply consistent_finite in Hcd as (Hfl & Hfc & Hfh & Hlc & Hch).
  set (acc := scan_range (d0 :: rest) (neg_infinity, infinity)) in *.
  unfold within_range. rewrite !andb_true_iff, !leb_spec, ltb_spec.
  change (Prim2SF 0) with (S754_zero false).
  change (Prim2SF infinity) with (S754_infinity false).
  destruct (SFleb_of_fval _ _ Hmn Hfc ltac:(lia)) as [H0 H1].
  destruct (SFleb_of_fval _ _ Hfc Hmx ltac:(lia)) as [_ H2].
  split_and!; [done..|]. by apply SFltb_infinity.
Qed.

(** *** The oscillator *)

Module HDYExamples.

Definition ohlc (c h l : float) : StockDataPoint :=
  {| date := "2024-01-02"; close := c; open := None; high := Some h;
     low := Some l; volume := 1; index := None; bondPrice := None;
     maShort := None; maLong := None; maCustom := None; hdy := None |}.

(** 34 bars quoted in [0, 1], then a bar closing at 2 above its high of 1. *)
Definition above_high : list StockDataPoint :=
  replicate 34 (ohlc 1 1 0) ++ [ohlc 2 1 0].

(** 34 quiet bars, then a rally and a sell-off, every close between the low
    and the high of its bar. *)
Definition swing : list StockDataPoint :=
  replicate 34 (ohlc 10 11 9)
  ++ [ohlc 12 12.5 10; ohlc 13.25 13.5 11.75; ohlc 8.25 13 8.25; ohlc 9 9.75 7.25].

End HDYExamples.

(** C2 (amended). [calculateHDY] returns a sequence as long as the input
    whose entries before index 34 equal 50. The stochastic value is not
    clamped, so the entries from index 34 on lie within [0,100] under a
    condition on the bars: at every such index the window's range is flat or
    absent, or [0 <= minL <= close <= maxH < Infinity]. That holds in
    particular when every bar is quoted with
    [0 <= low <= close <= high < Infinity]. *)
Theorem calculateHDY_in_range data :
  ∃ out,
    calculateHDY data = Some out
    ∧ length out = length data
    ∧ (∀ i, (i < 34)%nat → (i < length data)%nat → out !! i = Some 50%float)
    ∧ ((∀ i, (34 ≤ i < length data)%nat →
             flat_at data i ∨ close_in_range data i) →
       ∀ i x, out !! i = Some x → in_range x)
    ∧ (Forall (λ d, consistent d = true) data →
       ∀ i x, out !! i = Some x → in_range x).
Proof.
  eexists. split; [apply calculateHDY_entries|].
  assert (∀ i, (i < length data)%nat →
            (hdy_entry data <$> seq 0 (length data)) !! i
            = Some (hdy_entry data i)) as Hentry.
  { intros i Hi. by rewrite list_lookup_fmap, lookup_seq_lt. }
  assert ((∀ i, (34 ≤ i < length data)%nat →
                flat_at data i ∨ close_in_range data i) →
          ∀ i x, (hdy_entry data <$> seq 0 (length data)) !! i = Some x →
                 in_range x) as Hrange.
  { intros Hbars i x Hx.
    assert (i < length data)%nat as Hi.
    { apply lookup_lt_Some in Hx. by rewrite length_fmap, length_seq in Hx. }
    rewrite Hentry in Hx by done. injection Hx as <-.
    apply hdy_entry_in_range. intros k Hk. apply rsv_at_in_range, Hbars.
    unfold HDY_N in Hk. lia. }
  split_and!.
  - by rewrite length_fmap, length_seq.
  - intros i Hi Hlen. rewrite Hentry by done. unfold hdy_entry, HDY_N.
    by replace (i <? 34)%nat with true by (symmetry; apply Nat.ltb_lt; lia).
  - exact Hrange.
  - intros Hall. apply Hrange. intros i Hi. right.
    apply consistent_close_in_range; [done|lia].
Qed.

(** C2, as stated, fails: a close above the window's high takes the
    oscillator out of [0,100]. *)
Lemma calculateHDY_range_counterexample :
  ∃ out,
    calculateHDY HDYExamples.above_high = Some out
    ∧ out !! 34%nat = Some 125%float
    ∧ ¬ in_range 125.
Proof.
  eexists. split; [vm_compute; reflexivity|]. split; [reflexivity|].
  by vm_compute.
Qed.

Lemma calculateHDY_in_range_witness :
  Forall (λ d, consistent d = true) HDYExamples.swing
  ∧ Forall in_range
      (hdy_entry HDYExamples.swing <$> seq 0 (length HDYExamples.swing)).
Proof.
  assert (Forall (λ d, consistent d = true) HDYExamples.swing) as Hall.
  { apply Forall_forall. intros d Hd.
    repeat (apply elem_of_cons in Hd as [->|Hd]; [reflexivity|]).
    by apply elem_of_nil in Hd. }
  split; [exact Hall|].
  destruct (calculateHDY_in_range HDYExamples.swing)
    as (out & Hout & _ & _ & _ & Hin).
  rewrite calculateHDY_entries in Hout. injection Hout as <-.
  apply Forall_lookup. by apply Hin.
Defined.

(** * Further properties of the code *)

(** ** The backtest loop (utils: runStrategy) *)

(** An invariant of the loop body holds in every state the loop reaches. *)
Lemma sim_upto_invariant (Inv : nat → Sim → Prop) data s :
  (s < length data)%nat →
  Inv 0%nat initial_sim →
  (∀ i d d0 st st',
     data !! i = Some d → data !! s = Some d0 →
     strategy_step data (ma10_of data) (ma100_of data) s (close d0) i st
     = Some st' →
     Inv i st → Inv (S i) st') →
  ∀ k, (k ≤ length data)%nat → ∃ st, sim_upto data s k = Some st ∧ Inv k st.
Proof.
  intros Hs H0 Hstep k Hk. unfold sim_upto.
  destruct (lookup_lt_is_Some_2 data s Hs) as [d0 Hd0]. rewrite Hd0. simpl.
  apply (for_range_invariant Inv k 0); [done|].
  intros i st [_ Hi] Hinv. simpl in Hi.
  destruct (lookup_lt_is_Some_2 data i ltac:(lia)) as [d Hd].
  destruct (strategy_step_inv data (ma10_of data) (ma100_of data) s
              (close d0) i st) as (st' & Hst' & _); [lia|].
  exists st'. split; [done|]. by eapply Hstep.
Qed.

(** The run of a series with a usable start index ends in the state the loop
    reaches after the last bar, which [summarize] turns into the result. *)
Lemma runStrategy_final data s :
  start_index data = Some s → (s < length data)%nat →
  ∃ st r,
    sim_upto data s (length data) = Some st
    ∧ runStrategy data = Some r
    ∧ trades r = sim_trades st
    ∧ capitalCurve r = sim_capitalCurve st
    ∧ benchmarkCurve r = sim_benchmarkCurve st
    ∧ finalNetValue r = last_value_or_1 (sim_capitalCurve st)
    ∧ returnRate r
      = Number.toFixed 2 ((last_value_or_1 (sim_capitalCurve st) - 1) * 100)
    ∧ benchmarkReturn r
      = Number.toFixed 2 ((last_value_or_1 (sim_benchmarkCurve st) - 1) * 100).
Proof.
  intros Hs Hlt. rewrite runStrategy_unfold, Hs. simpl.
  replace (length data <=? s)%nat with false by (symmetry; apply Nat.leb_gt; lia).
  destruct (sim_upto_inv data s (length data)) as (st & Hst & Hlog & _);
    [done|lia|].
  rewrite Hst. simpl. unfold summarize.
  destruct (filter_indexed_wins_all _ Hlog) as (ws & -> & _). simpl.
  exists st. eexists. by split_and!.
Qed.

(** The benchmark point the loop pushes for bar [d] at index [i]. *)
Definition benchmark_point (s : nat) (d0 : StockDataPoint) (i : nat)
    (d : StockDataPoint) : CurvePoint :=
  {| point_date := date d;
     value := if (i <? s)%nat then 1%float
              else Number.round_to 4 (close d / close d0) |}.

(** After [k] iterations both curves hold one point per bar, dated like the
    bar; the benchmark is the close relative to the close at the start index,
    and both curves are 1 before the start index. *)
Definition curves_upto (data : list StockDataPoint) (s : nat) (k : nat)
    (st : Sim) : Prop :=
  point_date <$> sim_capitalCurve st = date <$> take k data
  ∧ (∀ i p, (i < s)%nat → sim_capitalCurve st !! i = Some p → value p = 1%float)
  ∧ ∀ d0, data !! s = Some d0 →
      sim_benchmarkCurve st = imap (benchmark_point s d0) (take k data).

Lemma trade_curves action date price st :
  sim_capitalCurve (trade action date price st) = sim_capitalCurve st
  ∧ sim_benchmarkCurve (trade action date price st) = sim_benchmarkCurve st.
Proof.
  unfold trade. destruct action; [| |done].
  - by destruct (Number.strict_eq _ _).
  - by destruct (Number.gtb _ _).
Qed.

Lemma imap_snoc {A B} (f : nat → A → B) (l : list A) (x : A) :
  imap f (l ++ [x]) = imap f l ++ [f (length l) x].
Proof. rewrite imap_app. simpl. by rewrite Nat.add_0_r. Qed.

Lemma curves_upto_step data s i d d0 st st' :
  data !! i = Some d → data !! s = Some d0 →
  strategy_step data (ma10_of data) (ma100_of data) s (close d0) i st = Some st' →
  curves_upto data s i st → curves_upto data s (S i) st'.
Proof.
  intros Hd Hd0 Hstep (Hcap & Hwarm & Hbench).
  specialize (Hbench d0 Hd0).
  assert (length (sim_capitalCurve st) = i) as Hlen.
  { rewrite <- (length_fmap point_date), Hcap, length_fmap, length_take.
    apply lookup_lt_Some in Hd. lia. }
  assert (length (take i data) = i) as Hlt.
  { rewrite length_take. apply lookup_lt_Some in Hd. lia. }
  unfold curves_upto. rewrite (take_S_r _ _ _ Hd).
  unfold strategy_step in Hstep. rewrite Hd in Hstep. simpl in Hstep.
  destruct (i <? s)%nat eqn:His; injection Hstep as <-; simpl.
  - split_and!.
    + by rewrite !fmap_app, Hcap.
    + intros j p Hj [Hp|[_ Hp]]%lookup_app_Some; [eauto|].
      by apply list_lookup_singleton_Some in Hp as [_ <-].
    + intros d0' Hd0'. replace d0' with d0 by congruence.
      rewrite imap_snoc, Hbench, Hlt. unfold benchmark_point. by rewrite His.
  - destruct (trade_curves (signal (ma10_of data) (ma100_of data) i) (date d)
                (close d)
                (push_benchmark
                   {| point_date := date d;
                      value := Number.round_to 4 (close d / close d0) |} st))
      as [Hc Hb].
    rewrite Hc, Hb. simpl. split_and!.
    + by rewrite !fmap_app, Hcap.
    + intros j p Hj [Hp|[Hge _]]%lookup_app_Some; [eauto|].
      apply Nat.ltb_ge in His. lia.
    + intros d0' Hd0'. replace d0' with d0 by congruence.
      rewrite imap_snoc, Hbench, Hlt. unfold benchmark_point. by rewrite His.
Qed.

Lemma curves_upto_final data s :
  start_index data = Some s → (s < length data)%nat →
  ∃ st r,
    sim_upto data s (length data) = Some st
    ∧ runStrategy data = Some r
    ∧ capitalCurve r = sim_capitalCurve st
    ∧ benchmarkCurve r = sim_benchmarkCurve st
    ∧ benchmarkReturn r
      = Number.toFixed 2 ((last_value_or_1 (sim_benchmarkCurve st) - 1) * 100)
    ∧ curves_upto data s (length data) st.
Proof.
  intros Hs Hlt.
  destruct (runStrategy_final data s Hs Hlt)
    as (st & r & Hst & Hr & _ & Hcap & Hbench & _ & _ & Hret).
  destruct (sim_upto_invariant (curves_upto data s) data s Hlt) with
    (k := length data) as (st' & Hst' & Hinv); [| |done|].
  - split_and!; [done|done|]. by intros.
  - intros i d d0 st0 st1 Hd Hd0 Hstep. by eapply curves_upto_step.
  - rewrite Hst in Hst'. injection Hst' as <-. exists st, r. by split_and!.
Qed.

(** X1. In a run with a usable start index [s], the capital curve and the
    benchmark curve hold exactly one point per bar, dated like the bar at the
    same index, and both curves are 1 at every index before [s]. *)
Theorem runStrategy_curves_aligned data s :
  start_index data = Some s → (s < length data)%nat →
  ∃ r, runStrategy data = Some r
    ∧ point_date <$> capitalCurve r = date <$> data
    ∧ point_date <$> benchmarkCurve r = date <$> data
    ∧ (∀ i p, (i < s)%nat → capitalCurve r !! i = Some p → value p = 1%float)
    ∧ (∀ i p, (i < s)%nat → benchmarkCurve r !! i = Some p → value p = 1%float).
Proof.
  intros Hs Hlt.
  destruct (curves_upto_final data s Hs Hlt)
    as (st & r & _ & Hr & Hc & Hb & _ & Hcap & Hwarm & Hbench).
  destruct (lookup_lt_is_Some_2 data s Hlt) as [d0 Hd0].
  specialize (Hbench d0 Hd0). rewrite firstn_all in Hcap, Hbench.
  exists r. rewrite Hc, Hb. split_and!; [done|done| |done|].
  - rewrite Hbench. apply list_eq. intros i.
    rewrite !list_lookup_fmap, list_lookup_imap. by destruct (data !! i).
  - intros i p Hi. rewrite Hbench, list_lookup_imap.
    destruct (data !! i) as [d|]; [|done]. simpl. intros [= <-]. simpl.
    by replace (i <? s)%nat with true by (symmetry; apply Nat.ltb_lt; lia).
Qed.

Lemma runStrategy_curves_aligned_witness :
  ∃ r, runStrategy BacktestExamples.rising_data = Some r
    ∧ point_date <$> capitalCurve r = date <$> BacktestExamples.rising_data
    ∧ point_date <$> benchmarkCurve r = date <$> BacktestExamples.rising_data
    ∧ (∀ i p, (i < 100)%nat → capitalCurve r !! i = Some p → value p = 1%float)
    ∧ (∀ i p, (i < 100)%nat → benchmarkCurve r !! i = Some p → value p = 1%float).
Proof.
  apply (runStrategy_curves_aligned BacktestExamples.rising_data 100).
  - vm_compute. reflexivity.
  - vm_compute. lia.
Defined.

(** X2. From the start index [s] on, the benchmark curve is the close of the
    bar divided by the close at [s], rounded to 4 decimals, and the benchmark
    return is the 2-decimal text of (v - 1) * 100, where [v] is that value for
    the last bar, or 1 when it is zero or NaN. *)
Theorem runStrategy_benchmark data s d0 :
  start_index data = Some s → data !! s = Some d0 →
  ∃ r, runStrategy data = Some r
    ∧ (∀ i d, (s ≤ i)%nat → data !! i = Some d →
         benchmarkCurve r !! i
         = Some {| point_date := date d;
                   value := Number.round_to 4 (close d / close d0) |})
    ∧ ∃ dn, last data = Some dn
        ∧ benchmarkReturn r
          = let v := Number.round_to 4 (close dn / close d0) in
            Number.toFixed 2
              (((if Number.truthy v then v else 1) - 1) * 100).
Proof.
  intros Hs Hd0. pose proof (lookup_lt_Some _ _ _ Hd0) as Hlt.
  destruct (curves_upto_final data s Hs Hlt)
    as (st & r & _ & Hr & _ & Hb & Hret & _ & _ & Hbench).
  specialize (Hbench d0 Hd0). rewrite firstn_all in Hbench.
  exists r. rewrite Hb, Hret. split_and!; [done| |].
  - intros i d Hi Hd. rewrite Hbench, list_lookup_imap, Hd. simpl.
    unfold benchmark_point.
    by replace (i <? s)%nat with false by (symmetry; apply Nat.ltb_ge; lia).
  - destruct (last data) as [dn|] eqn:Hlast;
      [|apply last_None in Hlast; subst; simpl in Hlt; lia].
    exists dn. split; [done|]. unfold last_value_or_1.
    rewrite last_lookup in Hlast. rewrite last_lookup.
    rewrite Hbench, length_imap, list_lookup_imap, Hlast. simpl.
    pose proof (lookup_lt_Some _ _ _ Hlast).
    by replace (pred (length data) <? s)%nat with false
      by (symmetry; apply Nat.ltb_ge; lia).
Qed.

Lemma runStrategy_benchmark_witness :
  ∃ r, runStrategy BacktestExamples.rising_data = Some r
    ∧ benchmarkCurve r !! 114%nat
      = Some {| point_date := "day-114"; value := Number.round_to 4 (9 / 5) |}
    ∧ benchmarkReturn r = "80.00"%string.
Proof.
  destruct (runStrategy_benchmark BacktestExamples.rising_data 100
              (BacktestExamples.bar 100 5 2))
    as (r & Hr & Hcurve & dn & Hlast & Hret);
    [vm_compute; reflexivity|vm_compute; reflexivity|].
  exists r. split; [done|]. split.
  - by rewrite (Hcurve 114%nat (BacktestExamples.bar 114 9 100)) by
      (lia || (vm_compute; reflexivity)).
  - rewrite Hret. injection Hlast as <-. vm_compute. reflexivity.
Defined.

(** *** Positions and the trade log *)

(** The trading branch either leaves the state alone or records one trade of
    the current bar, at its close. *)
Lemma trade_cases action d st :
  trade action (date d) (close d) st = st
  ∨ (action = ABuy ∧ cash (trade action (date d) (close d) st) = 0%float
     ∧ sim_trades (trade action (date d) (close d) st)
       = sim_trades st ++ [buy_trade d])
  ∨ (action = ASell ∧ holdings (trade action (date d) (close d) st) = 0%float
     ∧ sim_trades (trade action (date d) (close d) st)
       = sim_trades st ++ [sell_trade d]).
Proof.
  unfold trade. destruct action; [| |by left].
  - destruct (Number.strict_eq _ _); [right; left|left]; done.
  - destruct (Number.gtb _ _); [right; right|left]; done.
Qed.

(** The state after the step at a trading index, in terms of [trade]. *)
Lemma strategy_step_trading data s d0 i d st st' :
  data !! i = Some d → (s ≤ i)%nat →
  strategy_step data (ma10_of data) (ma100_of data) s (close d0) i st = Some st' →
  let traded :=
    trade (signal (ma10_of data) (ma100_of data) i) (date d) (close d)
      (push_benchmark
         {| point_date := date d;
            value := Number.round_to 4 (close d / close d0) |} st) in
  st' = push_capital
          {| point_date := date d;
             value := Number.round_to 4
                        ((cash traded + holdings traded * close d)
                         / initialCapital) |} traded.
Proof.
  intros Hd Hi. unfold strategy_step. rewrite Hd. simpl.
  replace (i <? s)%nat with false by (symmetry; apply Nat.ltb_ge; lia).
  by intros [= <-].
Qed.

Lemma strategy_step_warmup data s d0 i d st st' :
  data !! i = Some d → (i < s)%nat →
  strategy_step data (ma10_of data) (ma100_of data) s (close d0) i st = Some st' →
  st' = push_benchmark {| point_date := date d; value := 1%float |}
          (push_capital {| point_date := date d; value := 1%float |} st).
Proof.
  intros Hd Hi. unfold strategy_step. rewrite Hd. simpl.
  replace (i <? s)%nat with true by (symmetry; apply Nat.ltb_lt; lia).
  by intros [= <-].
Qed.

(** The account is never split: all cash or all holdings. *)
Definition all_in_or_out (st : Sim) : Prop :=
  cash st = 0%float ∨ holdings st = 0%float.

(** X3. In every state the loop of [runStrategy] reaches, whatever the start
    index, the cash is 0 or the holdings are 0: a buy converts all cash, a
    sell all holdings. *)
Theorem runStrategy_all_in_or_out data s k :
  (s < length data)%nat → (k ≤ length data)%nat →
  ∃ st, sim_upto data s k = Some st ∧ (cash st = 0%float ∨ holdings st = 0%float).
Proof.
  intros Hs Hk.
  apply (sim_upto_invariant (λ _, all_in_or_out) data s Hs); [by right| |done].
  intros i d d0 st st' Hd Hd0 Hstep Hinv.
  destruct (Nat.lt_ge_cases i s) as [Hlt|Hge].
  - by rewrite (strategy_step_warmup _ _ _ _ _ _ _ Hd Hlt Hstep).
  - rewrite (strategy_step_trading _ _ _ _ _ _ _ Hd Hge Hstep).
    unfold all_in_or_out. cbn [push_capital cash holdings].
    destruct (trade_cases (signal (ma10_of data) (ma100_of data) i) d
                (push_benchmark
                   {| point_date := date d;
                      value := Number.round_to 4 (close d / close d0) |} st))
      as [->|[(_ & Hc & _)|(_ & Hh & _)]]; [done|by left|by right].
Qed.

Lemma runStrategy_all_in_or_out_witness :
  ∃ st, sim_upto BacktestExamples.rising_data 100 110 = Some st
    ∧ (cash st = 0%float ∨ holdings st = 0%float).
Proof.
  apply (runStrategy_all_in_or_out BacktestExamples.rising_data 100 110).
  - vm_compute. lia.
  - vm_compute. lia.
Defined.

(** The log after [k] iterations: one trade per index of [idx], each the buy
    or the sell of that bar at its close, in bar order, none before [s]. *)
Definition log_upto (data : list StockDataPoint) (s k : nat) (st : Sim) : Prop :=
  ∃ idx,
    StronglySorted lt idx
    ∧ Forall (λ i, (s ≤ i < k)%nat) idx
    ∧ Forall2 (λ i t, ∃ d, data !! i = Some d
                           ∧ (t = buy_trade d ∨ t = sell_trade d))
        idx (sim_trades st)
    ∧ (length idx ≤ k - s)%nat.

Lemma log_upto_step data s i d d0 st st' :
  data !! i = Some d → data !! s = Some d0 →
  strategy_step data (ma10_of data) (ma100_of data) s (close d0) i st = Some st' →
  log_upto data s i st → log_upto data s (S i) st'.
Proof.
  intros Hd Hd0 Hstep (idx & Hsorted & Hrange & Hlog & Hlen).
  assert (Forall (λ j, (s ≤ j < S i)%nat) idx) as Hrange'.
  { eapply Forall_impl; [done|]. simpl. lia. }
  destruct (Nat.lt_ge_cases i s) as [Hlt|Hge].
  - rewrite (strategy_step_warmup _ _ _ _ _ _ _ Hd Hlt Hstep).
    exists idx. split_and!; [done|done|done|lia].
  - rewrite (strategy_step_trading _ _ _ _ _ _ _ Hd Hge Hstep).
    unfold log_upto. cbn [push_capital sim_trades].
    destruct (trade_cases (signal (ma10_of data) (ma100_of data) i) d
                (push_benchmark
                   {| point_date := date d;
                      value := Number.round_to 4 (close d / close d0) |} st))
      as [->|[(_ & _ & ->)|(_ & _ & ->)]]; cbn [push_benchmark sim_trades].
    + exists idx. split_and!; [done|done|done|lia].
    + exists (idx ++ [i]). split_and!.
      * apply StronglySorted_app_2; [|done|repeat constructor].
        intros j k Hj ->%list_elem_of_singleton.
        rewrite Forall_forall in Hrange. apply Hrange in Hj. lia.
      * apply Forall_app. split; [done|]. repeat constructor; lia.
      * apply Forall2_app; [done|]. repeat constructor. eauto.
      * rewrite length_app. simpl. lia.
    + exists (idx ++ [i]). split_and!.
      * apply StronglySorted_app_2; [|done|repeat constructor].
        intros j k Hj ->%list_elem_of_singleton.
        rewrite Forall_forall in Hrange. apply Hrange in Hj. lia.
      * apply Forall_app. split; [done|]. repeat constructor; lia.
      * apply Forall2_app; [done|]. repeat constructor. eauto.
      * rewrite length_app. simpl. lia.
Qed.

(** X4. In a run with a usable start index [s] the trade log is drawn from
    the bars: its trades are buys or sells of bars at strictly increasing
    indices from [s] on, each dated and priced like its bar, at most one per
    bar; so there are at most [data.length - s] trades. *)
Theorem runStrategy_trades_from_bars data s :
  start_index data = Some s → (s < length data)%nat →
  ∃ r idx,
    runStrategy data = Some r
    ∧ StronglySorted lt idx
    ∧ Forall (λ i, (s ≤ i < length data)%nat) idx
    ∧ Forall2 (λ i t, ∃ d, data !! i = Some d
                           ∧ (t = buy_trade d ∨ t = sell_trade d))
        idx (trades r)
    ∧ (tradeCount r ≤ length data - s)%nat.
Proof.
  intros Hs Hlt.
  destruct (runStrategy_final data s Hs Hlt) as (st & r & Hst & Hr & Htr & _).
  destruct (sim_upto_invariant (log_upto data s) data s Hlt) with
    (k := length data) as (st' & Hst' & idx & Hsorted & Hrange & Hlog & Hlen);
    [| |done|].
  - exists []. split_and!; [constructor|constructor|constructor|simpl; lia].
  - intros i d d0 st0 st1 Hd Hd0 Hstep. by eapply log_upto_step.
  - rewrite Hst in Hst'. injection Hst' as <-.
    destruct (runStrategy_result data) as (r' & Hr' & _ & Hcount & _).
    rewrite Hr in Hr'. injection Hr' as <-.
    exists r, idx. rewrite Hcount, Htr.
    split_and!; [done..|]. by rewrite <- (Forall2_length _ _ _ Hlog).
Qed.

Lemma runStrategy_trades_from_bars_witness :
  ∃ r idx,
    runStrategy BacktestExamples.rising_data = Some r
    ∧ StronglySorted lt idx
    ∧ Forall (λ i, (100 ≤ i < length BacktestExamples.rising_data)%nat) idx
    ∧ Forall2 (λ i t, ∃ d, BacktestExamples.rising_data !! i = Some d
                           ∧ (t = buy_trade d ∨ t = sell_trade d))
        idx (trades r)
    ∧ (tradeCount r ≤ length BacktestExamples.rising_data - 100)%nat.
Proof.
  apply (runStrategy_trades_from_bars BacktestExamples.rising_data 100).
  - vm_compute. reflexivity.
  - vm_compute. lia.
Defined.

(** *** A run without trades *)

Lemma finite_cases p :
  is_finite p = true →
  (∃ s, Prim2SF p = S754_zero s) ∨ (∃ s m e, Prim2SF p = S754_finite s m e).
Proof.
  unfold is_finite, is_nan, is_infinity.
  rewrite !FloatAxioms.eqb_spec, abs_spec.
  change (Prim2SF infinity) with (S754_infinity false).
  destruct (Prim2SF p) as [s|s| |s m e]; [eauto|by destruct s|done|eauto 10].
Qed.

(** With no holdings, the assets are the cash whatever the finite price. *)
Lemma cash_only_assets c p :
  is_finite p = true → is_zero c = false → is_nan c = false →
  (c + 0 * p)%float = c.
Proof.
  intros Hp Hz Hn. apply Prim2SF_inj. rewrite add_spec, mul_spec.
  change (Prim2SF 0) with (S754_zero false).
  assert (∃ s, SF64mul (S754_zero false) (Prim2SF p) = S754_zero s) as [s ->].
  { destruct (finite_cases p Hp) as [[s ->]|(s & m & e & ->)]; by eexists. }
  unfold is_zero, is_nan in *. rewrite FloatAxioms.eqb_spec in Hz, Hn.
  change (Prim2SF PrimFloat.zero) with (S754_zero false) in Hz.
  by destruct (Prim2SF c) as [sc|sc| |sc mc ec]; try destruct sc.
Qed.

(** Until the first trade the account holds the initial cash, and the capital
    curve is 1 wherever the close is finite. *)
Definition flat_upto (st : Sim) : Prop :=
  sim_trades st = [] →
  cash st = 100000%float ∧ holdings st = 0%float
  ∧ Forall (λ p, value p = 1%float) (sim_capitalCurve st).

Lemma flat_upto_step data s i d d0 st st' :
  (s ≤ i → is_finite (close d) = true)%nat →
  data !! i = Some d →
  strategy_step data (ma10_of data) (ma100_of data) s (close d0) i st = Some st' →
  flat_upto st → flat_upto st'.
Proof.
  intros Hfin Hd Hstep Hflat.
  destruct (Nat.lt_ge_cases i s) as [Hlt|Hge].
  - rewrite (strategy_step_warmup _ _ _ _ _ _ _ Hd Hlt Hstep).
    intros Hnone. destruct (Hflat Hnone) as (Hc & Hh & Hcurve).
    split_and!; [done|done|]. simpl. apply Forall_app. by repeat constructor.
  - rewrite (strategy_step_trading _ _ _ _ _ _ _ Hd Hge Hstep).
    unfold flat_upto. cbn [push_capital sim_trades cash holdings sim_capitalCurve].
    destruct (trade_cases (signal (ma10_of data) (ma100_of data) i) d
                (push_benchmark
                   {| point_date := date d;
                      value := Number.round_to 4 (close d / close d0) |} st))
      as [->|[(_ & _ & ->)|(_ & _ & ->)]];
      cbn [push_benchmark sim_trades cash holdings sim_capitalCurve].
    + intros Hnone. destruct (Hflat Hnone) as (Hc & Hh & Hcurve).
      split_and!; [done|done|]. apply Forall_app. split; [done|].
      repeat constructor. cbn [value]. rewrite Hc, Hh.
      by rewrite cash_only_assets by (by auto).
    + by intros [_ [=]]%app_eq_nil.
    + by intros [_ [=]]%app_eq_nil.
Qed.

(** X5. A run that records no trade stays flat when the closes from the
    start index on are finite: every point of the capital curve is 1, the
    final net value is 1 and the return rate reads "0.00". *)
Theorem runStrategy_no_trade_flat data s :
  start_index data = Some s → (s < length data)%nat →
  (∀ i d, (s ≤ i)%nat → data !! i = Some d → is_finite (close d) = true) →
  ∃ r, runStrategy data = Some r
    ∧ (trades r = [] →
       Forall (λ p, value p = 1%float) (capitalCurve r)
       ∧ finalNetValue r = 1%float
       ∧ returnRate r = "0.00"%string).
Proof.
  intros Hs Hlt Hfin.
  destruct (runStrategy_final data s Hs Hlt)
    as (st & r & Hst & Hr & Htr & Hcap & _ & Hnet & Hret & _).
  destruct (sim_upto_invariant (λ _, flat_upto) data s Hlt) with
    (k := length data) as (st' & Hst' & Hflat); [| |done|].
  - intros _. split_and!; [done|done|constructor].
  - intros i d d0 st0 st1 Hd Hd0 Hstep.
    apply (flat_upto_step data s i d d0 st0 st1); [|done..].
    intros Hi. by eapply Hfin.
  - rewrite Hst in Hst'. injection Hst' as <-.
    exists r. split; [done|]. rewrite Htr, Hcap, Hnet, Hret.
    intros Hnone. destruct (Hflat Hnone) as (_ & _ & Hcurve).
    assert (last_value_or_1 (sim_capitalCurve st) = 1%float) as ->.
    { unfold last_value_or_1.
      destruct (last (sim_capitalCurve st)) as [p|] eqn:Hlast; [|done].
      rewrite last_lookup in Hlast.
      rewrite Forall_forall in Hcurve.
      by rewrite (Hcurve p) by (by eapply list_elem_of_lookup_2). }
    split_and!; [done|done|]. vm_compute. reflexivity.
Qed.

Module FlatExamples.

(** 105 bars with a constant volume and a constant close: the averages never
    cross. *)
Definition quiet_data : list StockDataPoint :=
  BacktestExamples.bars (replicate 105 5%float) (replicate 105 1%float).

End FlatExamples.

Lemma runStrategy_no_trade_flat_witness :
  ∃ r, runStrategy FlatExamples.quiet_data = Some r
    ∧ trades r = []
    ∧ Forall (λ p, value p = 1%float) (capitalCurve r)
    ∧ finalNetValue r = 1%float
    ∧ returnRate r = "0.00"%string.
Proof.
  destruct (runStrategy_no_trade_flat FlatExamples.quiet_data 100)
    as (r & Hr & Hflat).
  - vm_compute. reflexivity.
  - vm_compute. lia.
  - intros i d _ Hd. apply list_elem_of_lookup_2 in Hd. revert d Hd.
    apply Forall_forall. vm_compute. repeat constructor.
  - exists r. split; [done|].
    assert (trades r = []) as Hnone.
    { vm_compute in Hr. by injection Hr as <-. }
    split; [done|]. by apply Hflat.
Defined.

(** * The crossover rule, the trade log and the win rate *)

(** ** The position, as the trade log tells it *)

(** The two states of the strategy: FLAT before the first trade and after a
    sell, LONG after a buy. *)
Inductive Position := FLAT | LONG.

Definition position_of (log : list Trade) : Position :=
  match last log with
  | Some t => match type t with buy => LONG | sell => FLAT end
  | None => FLAT
  end.

(** No two consecutive trades have the same side. *)
Definition alternates (log : list Trade) : Prop :=
  ∀ i a b, log !! i = Some a → log !! S i = Some b → type a ≠ type b.

(** Every buy of the run leaves holdings other than 0: in no state the loop
    reaches with a buy as its latest trade are the holdings 0. *)
Definition buys_fill (data : list StockDataPoint) : Prop :=
  ∀ s k st,
    start_index data = Some s → (k ≤ length data)%nat →
    sim_upto data s k = Some st →
    position_of (sim_trades st) = LONG →
    Number.strict_eq (holdings st) 0 = false.

(** A read of an average array gave a number, neither [null] nor
    [undefined]. *)
Definition available (v : JSValue) : bool :=
  match v with Num _ => true | _ => false end.

(** The four values the signal reads at [i]: [ma10[i-1]], [ma100[i-1]],
    [ma10[i]] and [ma100[i]]. *)
Definition averages_available (ma10 ma100 : list (option float)) (i : nat)
  : bool :=
  available (ma_at ma10 (Z.of_nat i - 1))
  && available (ma_at ma100 (Z.of_nat i - 1))
  && available (ma_at ma10 (Z.of_nat i))
  && available (ma_at ma100 (Z.of_nat i)).

Lemma position_of_snoc log t :
  position_of (log ++ [t])
  = match type t with buy => LONG | sell => FLAT end.
Proof. unfold position_of. by rewrite last_snoc. Qed.

Lemma alternates_snoc log t :
  alternates log →
  (∀ l, last log = Some l → type l ≠ type t) →
  alternates (log ++ [t]).
Proof.
  intros Halt Hlast i a b Ha Hb.
  apply lookup_app_Some in Hb as [Hb|[Hlen Hb]].
  - apply (Halt i a b); [|done].
    apply lookup_lt_Some in Hb. by rewrite lookup_app_l in Ha by lia.
  - apply list_lookup_singleton_Some in Hb as [Hi <-].
    assert (i < length log)%nat as Hlt.
    { apply lookup_lt_Some in Ha. rewrite length_app in Ha. simpl in Ha. lia. }
    rewrite lookup_app_l in Ha by done.
    apply Hlast. rewrite last_lookup, <- Ha. f_equal. lia.
Qed.

(** *** Comparisons *)

Lemma float_compare_nan_l (x : float) :
  SFcompare (Prim2SF nan) (Prim2SF x) = None.
Proof. reflexivity. Qed.

Lemma float_compare_nan_r (x : float) :
  SFcompare (Prim2SF x) (Prim2SF nan) = None.
Proof. change (Prim2SF nan) with S754_nan. by destruct (Prim2SF x) as [[]|[]| |[]]. Qed.

Lemma float_ltb_nan_l x : (nan <? x)%float = false.
Proof. rewrite ltb_spec. unfold SFltb. by rewrite float_compare_nan_l. Qed.
Lemma float_ltb_nan_r x : (x <? nan)%float = false.
Proof. rewrite ltb_spec. unfold SFltb. by rewrite float_compare_nan_r. Qed.
Lemma float_leb_nan_l x : (nan <=? x)%float = false.
Proof. rewrite leb_spec. unfold SFleb. by rewrite float_compare_nan_l. Qed.
Lemma float_leb_nan_r x : (x <=? nan)%float = false.
Proof. rewrite leb_spec. unfold SFleb. by rewrite float_compare_nan_r. Qed.

(** Positive holdings are not 0. *)
Lemma positive_not_zero (h : float) :
  Number.gtb h 0 = true → Number.strict_eq h 0 = false.
Proof.
  unfold Number.gtb, Number.strict_eq.
  rewrite ltb_spec, FloatAxioms.eqb_spec. unfold SFltb, SFeqb.
  destruct (SFcompare (Prim2SF 0) (Prim2SF h)) as [[]|] eqn:Hc; try done.
  by rewrite (SFcompare_Lt_swap _ _ Hc).
Qed.

(** *** The signal without its four values *)

Lemma signal_unavailable ma10 ma100 i :
  averages_available ma10 ma100 i = false → signal ma10 ma100 i = AHold.
Proof.
  unfold averages_available, signal.
  destruct (ma_at ma10 (Z.of_nat i - 1)) as [| |ps],
    (ma_at ma100 (Z.of_nat i - 1)) as [| |pl],
    (ma_at ma10 (Z.of_nat i)) as [| |cs],
    (ma_at ma100 (Z.of_nat i)) as [| |cl];
    cbn [available is_null negb andb to_number]; try done; intros _;
    unfold Number.gtb, Number.geb;
    rewrite ?float_ltb_nan_l, ?float_ltb_nan_r, ?float_leb_nan_l,
      ?float_leb_nan_r, ?andb_false_r; done.
Qed.

Lemma averages_available_from data i :
  (100 ≤ i < length data)%nat →
  averages_available (ma10_of data) (ma100_of data) i = true.
Proof.
  intros Hi. unfold averages_available.
  replace (Z.of_nat i - 1) with (Z.of_nat (i - 1)) by lia.
  rewrite !ma_at_nat. unfold ma10_of, ma100_of.
  rewrite !ma_of_lookup by lia. unfold ma_entry.
  replace (i - 1 <? 10 - 1)%nat with false by (symmetry; apply Nat.ltb_ge; lia).
  replace (i - 1 <? 100 - 1)%nat with false by (symmetry; apply Nat.ltb_ge; lia).
  replace (i <? 10 - 1)%nat with false by (symmetry; apply Nat.ltb_ge; lia).
  replace (i <? 100 - 1)%nat with false by (symmetry; apply Nat.ltb_ge; lia).
  done.
Qed.

(** *** One iteration *)

(** What an iteration does to the log and the holdings: nothing, or a buy
    from holdings 0, or a sell of positive holdings. *)
Lemma strategy_step_log data s d0 i d st st' :
  data !! i = Some d →
  strategy_step data (ma10_of data) (ma100_of data) s (close d0) i st = Some st' →
  (sim_trades st' = sim_trades st ∧ holdings st' = holdings st)
  ∨ (Number.strict_eq (holdings st) 0 = true
     ∧ sim_trades st' = sim_trades st ++ [buy_trade d])
  ∨ (Number.gtb (holdings st) 0 = true
     ∧ sim_trades st' = sim_trades st ++ [sell_trade d]
     ∧ holdings st' = 0%float).
Proof.
  intros Hd Hstep. destruct (Nat.lt_ge_cases i s) as [Hlt|Hge].
  - rewrite (strategy_step_warmup _ _ _ _ _ _ _ Hd Hlt Hstep). by left.
  - rewrite (strategy_step_trading _ _ _ _ _ _ _ Hd Hge Hstep).
    cbn [push_capital sim_trades holdings]. unfold trade.
    destruct (signal _ _ _); cbn [push_benchmark holdings];
      [destruct (Number.strict_eq (holdings st) 0)
      |destruct (Number.gtb (holdings st) 0)|]; auto.
Qed.

(** While the log tells FLAT, the holdings are 0. *)
Lemma sim_upto_flat data s k :
  (s < length data)%nat → (k ≤ length data)%nat →
  ∃ st, sim_upto data s k = Some st
    ∧ (position_of (sim_trades st) = FLAT → holdings st = 0%float).
Proof.
  intros Hs Hk.
  apply (sim_upto_invariant
           (λ _ st, position_of (sim_trades st) = FLAT → holdings st = 0%float)
           data s Hs); [done| |done].
  intros i d d0 st st' Hd _ Hstep Hinv.
  destruct (strategy_step_log _ _ _ _ _ _ _ Hd Hstep)
    as [[-> ->]|[(_ & ->)|(_ & -> & ->)]]; [done| |done].
  by rewrite position_of_snoc.
Qed.

(** In a run whose buys leave holdings other than 0, the sides alternate in
    every log the loop reaches. *)
Lemma sim_upto_alternates data s k :
  start_index data = Some s → (s < length data)%nat → buys_fill data →
  (k ≤ length data)%nat →
  ∃ st, sim_upto data s k = Some st ∧ alternates (sim_trades st).
Proof.
  intros Hs Hlt Hfill.
  destruct (lookup_lt_is_Some_2 data s Hlt) as [d0 Hd0].
  induction k as [|k IH]; intros Hk.
  - exists initial_sim. split; [unfold sim_upto; by rewrite Hd0|].
    by intros i a b Ha.
  - destruct IH as (st & Hst & Halt); [lia|].
    destruct (sim_upto_flat data s k) as (st0 & Hst0 & Hflat); [lia..|].
    assert (st0 = st) as -> by congruence.
    destruct (lookup_lt_is_Some_2 data k) as [d Hd]; [lia|].
    destruct (strategy_step_inv data (ma10_of data) (ma100_of data) s
                (close d0) k st) as (st' & Hst' & _); [lia|].
    exists st'. split; [by rewrite (sim_upto_S data s k st d0 Hd0 Hst)|].
    destruct (strategy_step_log _ _ _ _ _ _ _ Hd Hst')
      as [[-> _]|[(Hzero & ->)|(Hpos & -> & _)]]; [done| |].
    + apply alternates_snoc; [done|]. intros l Hl Htype. simpl in Htype.
      assert (position_of (sim_trades st) = LONG) as Hlong.
      { unfold position_of. by rewrite Hl, Htype. }
      rewrite (Hfill s k st Hs ltac:(lia) Hst Hlong) in Hzero. done.
    + apply alternates_snoc; [done|]. intros l Hl Htype. simpl in Htype.
      assert (position_of (sim_trades st) = FLAT) as Hpos0.
      { unfold position_of. by rewrite Hl, Htype. }
      rewrite (Hflat Hpos0) in Hpos. by vm_compute in Hpos.
Qed.

(** The log of the result is the log the loop ends with, and empty when the
    loop does not run. *)
Lemma runStrategy_log data :
  ∃ r s, runStrategy data = Some r
    ∧ start_index data = Some s
    ∧ ((length data ≤ s)%nat → trades r = [])
    ∧ ((s < length data)%nat →
       ∃ final, sim_upto data s (length data) = Some final
         ∧ trades r = sim_trades final).
Proof.
  destruct (start_index_spec data) as (s & Hs & _).
  destruct (Nat.le_gt_cases (length data) s) as [Hle|Hlt].
  - exists neutral_result, s. rewrite runStrategy_unfold, Hs. simpl.
    replace (length data <=? s)%nat with true
      by (symmetry; apply Nat.leb_le; lia).
    split_and!; [done|done|done|intros; lia].
  - destruct (runStrategy_final data s Hs Hlt) as (st & r & Hst & Hr & Htr & _).
    exists r, s. split_and!; [done|done|intros; lia|eauto].
Qed.

(** ** C10: the shape of the trade log *)

(** C10 (amended). Every run of [runStrategy] returns a result; in its trade
    log the first trade, if any, is a buy, every sell is immediately preceded
    by a buy, and no two sells are consecutive, so that the win-rate lookup of
    the trade before a sell is always in bounds and finds a buy; and in every
    run whose buys leave holdings other than 0 no two buys are consecutive
    either: the sides alternate strictly. *)
Theorem runStrategy_sells_follow_buys data :
  ∃ r, runStrategy data = Some r
    ∧ (∀ t, trades r !! 0%nat = Some t → type t = buy)
    ∧ (∀ i t, trades r !! i = Some t → type t = sell →
         (1 ≤ i)%nat ∧ ∃ p, trades r !! (i - 1)%nat = Some p ∧ type p = buy)
    ∧ (∀ i a b, trades r !! i = Some a → trades r !! S i = Some b →
         ¬ (type a = sell ∧ type b = sell))
    ∧ (buys_fill data →
       ∀ i a b, trades r !! i = Some a → trades r !! S i = Some b →
         type a ≠ type b)
    ∧ is_Some (filter_indexed (is_win (trades r)) (trades r) 0).
Proof.
  destruct (runStrategy_result data) as (r & Hr & Hlog & _).
  exists r. split_and!; [done| |done| | |].
  - intros t Ht. destruct (type t) eqn:Htype; [done|].
    destruct (Hlog 0%nat t Ht Htype) as [? _]. lia.
  - intros i a b Ha Hb [Hsa Hsb].
    destruct (Hlog (S i) b Hb Hsb) as (_ & p & Hp & Hbuy).
    simpl in Hp. rewrite Nat.sub_0_r, Ha in Hp. congruence.
  - intros Hfill.
    destruct (runStrategy_log data) as (r' & s & Hr' & Hs & Hnone & Hsome).
    assert (r' = r) as -> by congruence.
    destruct (Nat.le_gt_cases (length data) s) as [Hle|Hlt].
    + rewrite (Hnone Hle). by intros i a b Ha.
    + destruct (Hsome Hlt) as (final & Hfinal & ->).
      destruct (sim_upto_alternates data s (length data) Hs Hlt Hfill)
        as (st & Hst & Halt); [done|].
      by assert (st = final) as -> by congruence.
  - destruct (filter_indexed_wins_all _ Hlog) as (ws & -> & _). eauto.
Qed.

(** Every buy of the sample run on rising closes leaves positive holdings. *)
Lemma rising_data_buys_fill : buys_fill BacktestExamples.rising_data.
Proof.
  assert (length BacktestExamples.rising_data = 115%nat) as Hlen
    by (vm_compute; reflexivity).
  intros s k st Hs Hk Hst Hpos. rewrite Hlen in Hk.
  vm_compute in Hs. injection Hs as <-.
  do 116 (destruct k as [|k];
          [vm_compute in Hst; injection Hst as <-;
           first [by vm_compute in Hpos|by vm_compute]|]).
  lia.
Qed.

Lemma runStrategy_sells_follow_buys_witness :
  buys_fill BacktestExamples.rising_data
  ∧ ∃ r, runStrategy BacktestExamples.rising_data = Some r
      ∧ type <$> trades r = [buy; sell; buy; sell; buy; sell; buy]
      ∧ ∀ i a b, trades r !! i = Some a → trades r !! S i = Some b →
          type a ≠ type b.
Proof.
  split; [exact rising_data_buys_fill|].
  destruct (runStrategy_sells_follow_buys BacktestExamples.rising_data)
    as (r & Hr & _ & _ & _ & Halt & _).
  exists r. split_and!;
    [done| |by apply Halt, rising_data_buys_fill].
  vm_compute in Hr. by injection Hr as <-.
Defined.

(** ** C9: win rate and trade count *)

(** C9. Every run of [runStrategy] returns a result whose log is the log the
    loop recorded (empty when no index is usable as a start); [winRate] is
    "0" when the log holds no sell, and otherwise the 0-decimal text of
    (wins / sells) * 100, where the wins are the sells priced above the trade
    immediately before them in the log; [tradeCount] is the length of the
    log. *)
Theorem runStrategy_winRate data :
  ∃ r s, runStrategy data = Some r
    ∧ start_index data = Some s
    ∧ ((length data ≤ s)%nat → trades r = [])
    ∧ ((s < length data)%nat →
       ∃ final, sim_upto data s (length data) = Some final
         ∧ trades r = sim_trades final)
    ∧ (let sells := length (List.filter is_sell (trades r)) in
       let wins := length (sell_wins (trades r)) in
       winRate r =
         if (sells =? 0)%nat then "0"%string
         else Number.toFixed 0
                (Number.of_nat wins / Number.of_nat sells * 100))
    ∧ sell_wins (trades r)
      = List.filter
          (λ pt, is_sell pt.2 && Number.gtb (price pt.2) (price pt.1))
          (zip (trades r) (drop 1 (trades r)))
    ∧ tradeCount r = length (trades r).
Proof.
  destruct (runStrategy_result data) as (r & Hr & _ & Hcount & Hrate).
  destruct (runStrategy_log data) as (r' & s & Hr' & Hs & Hnone & Hsome).
  assert (r' = r) as -> by congruence.
  exists r, s. split_and!; [done|done|done|done| |done|done].
  simpl. rewrite Hrate.
  by destruct (length (List.filter is_sell (trades r))).
Qed.

Lemma runStrategy_winRate_witness :
  ∃ r final,
    runStrategy BacktestExamples.rising_data = Some r
    ∧ sim_upto BacktestExamples.rising_data 100 115 = Some final
    ∧ trades r = sim_trades final
    ∧ (λ t, (type t, price t)) <$> trades r
      = [(buy, 5); (sell, 7); (buy, 8); (sell, 8); (buy, 8); (sell, 8);
         (buy, 9)]%float
    ∧ winRate r = "33"%string
    ∧ tradeCount r = 7%nat.
Proof.
  destruct (runStrategy_winRate BacktestExamples.rising_data)
    as (r & s & Hr & Hs & _ & Hlog & Hrate & _ & Hcount).
  vm_compute in Hs. injection Hs as <-.
  destruct Hlog as (final & Hfinal & Htr); [vm_compute; lia|].
  exists r, final.
  assert ((λ t, (type t, price t)) <$> trades r
          = [(buy, 5); (sell, 7); (buy, 8); (sell, 8); (buy, 8); (sell, 8);
             (buy, 9)]%float) as Hts.
  { vm_compute in Hr. by injection Hr as <-. }
  split_and!; [done|exact Hfinal|done|done| |].
  - cbv zeta in Hrate. rewrite Hrate.
    vm_compute in Hr. injection Hr as <-. vm_compute. reflexivity.
  - rewrite Hcount, <- (length_fmap (λ t, (type t, price t))), Hts. reflexivity.
Defined.

(** ** C3: the crossover rule, index by index *)

(** The trading branch on a signal made of the two crosses. *)
Lemma trade_rule (golden death : bool) d st :
  golden && death = false →
  let st' :=
    trade (if golden then ABuy else if death then ASell else AHold)
      (date d) (close d) st in
  (sim_trades st', cash st', holdings st', position_of (sim_trades st'))
  = if golden && Number.strict_eq (holdings st) 0
    then (sim_trades st ++ [buy_trade d], 0%float,
          (cash st / close d)%float, LONG)
    else if death && Number.gtb (holdings st) 0
    then (sim_trades st ++ [sell_trade d], (holdings st * close d)%float,
          0%float, FLAT)
    else (sim_trades st, cash st, holdings st, position_of (sim_trades st)).
Proof.
  intros Hex. unfold trade.
  destruct golden, death; try done; cbn [andb];
    destruct (Number.strict_eq (holdings st) 0),
      (Number.gtb (holdings st) 0);
    cbn [sim_trades cash holdings]; by rewrite ?position_of_snoc.
Qed.

(** C3 (amended). In a run that starts trading at [s], at every index [i]
    from [s] to the end the four average values are available and the loop
    does one of three things: it records a buy at [close_i], turning all cash
    into holdings and the position to LONG; it records a sell at [close_i],
    turning all holdings into cash and the position to FLAT; or it leaves
    cash, holdings and log as they are. While the position is FLAT (no trade
    yet, or the latest trade a sell) the holdings are 0 and it buys exactly
    when a golden cross of the 10- and 100-period volume averages occurs.
    While the position is LONG (the latest trade a buy) with positive
    holdings it sells exactly when a death cross occurs. Whatever the log,
    the position the code tests is the holdings: it buys exactly at a golden
    cross with holdings 0, and sells exactly at a death cross with positive
    holdings. The two crosses exclude each other, and at any index at which
    one of the four average values is not available the signal is none. The
    log of the result is the log the loop ends with. *)
Theorem runStrategy_crossover_rule data s i :
  start_index data = Some s →
  (s ≤ i < length data)%nat →
  calculateMA 10 data FVolume = Some (ma10_of data)
  ∧ calculateMA 100 data FVolume = Some (ma100_of data)
  ∧ (∃ r final, runStrategy data = Some r
       ∧ sim_upto data s (length data) = Some final
       ∧ trades r = sim_trades final)
  ∧ (∀ j, averages_available (ma10_of data) (ma100_of data) j = false →
          signal (ma10_of data) (ma100_of data) j = AHold)
  ∧ averages_available (ma10_of data) (ma100_of data) i = true
  ∧ ∃ d st st',
      data !! i = Some d
      ∧ sim_upto data s i = Some st
      ∧ sim_upto data s (S i) = Some st'
      ∧ let golden := golden_cross (ma10_of data) (ma100_of data) i in
        let death := death_cross (ma10_of data) (ma100_of data) i in
        let after :=
          (sim_trades st', cash st', holdings st',
           position_of (sim_trades st')) in
        let bought :=
          (sim_trades st ++ [buy_trade d], 0%float,
           (cash st / close d)%float, LONG) in
        let sold :=
          (sim_trades st ++ [sell_trade d], (holdings st * close d)%float,
           0%float, FLAT) in
        let same :=
          (sim_trades st, cash st, holdings st,
           position_of (sim_trades st)) in
        golden && death = false
        ∧ after = (if golden && Number.strict_eq (holdings st) 0 then bought
                   else if death && Number.gtb (holdings st) 0 then sold
                   else same)
        ∧ (position_of (sim_trades st) = FLAT →
           holdings st = 0%float
           ∧ after = (if golden then bought else same))
        ∧ (position_of (sim_trades st) = LONG →
           Number.gtb (holdings st) 0 = true →
           after = (if death then sold else same)).
Proof.
  intros Hs Hi.
  destruct (start_index_spec data) as (s0 & Hs0 & Hle & _).
  assert (s0 = s) as -> by congruence.
  split_and!; [apply calculateMA_entries..| | | |].
  - destruct (runStrategy_final data s Hs) as (st & r & Hst & Hr & Htr & _);
      [lia|]. eauto.
  - intros j. apply signal_unavailable.
  - apply averages_available_from. lia.
  - destruct (lookup_lt_is_Some_2 data i) as [d Hd]; [lia|].
    destruct (sim_upto_flat data s i) as (st & Hst & Hflat); [lia..|].
    destruct (lookup_lt_is_Some_2 data s) as [d0 Hd0]; [lia|].
    destruct (strategy_step_inv data (ma10_of data) (ma100_of data) s
                (close d0) i st) as (st' & Hst' & _); [lia|].
    exists d, st, st'. rewrite (sim_upto_S data s i st d0 Hd0 Hst).
    split_and!; [done|done|done|]. cbv zeta.
    pose proof (crosses_exclusive (ma10_of data) (ma100_of data) i) as Hex.
    assert ((sim_trades st', cash st', holdings st',
             position_of (sim_trades st'))
            = if golden_cross (ma10_of data) (ma100_of data) i
                 && Number.strict_eq (holdings st) 0
              then (sim_trades st ++ [buy_trade d], 0%float,
                    (cash st / close d)%float, LONG)
              else if death_cross (ma10_of data) (ma100_of data) i
                      && Number.gtb (holdings st) 0
              then (sim_trades st ++ [sell_trade d],
                    (holdings st * close d)%float, 0%float, FLAT)
              else (sim_trades st, cash st, holdings st,
                    position_of (sim_trades st))) as Hrule.
    { rewrite (strategy_step_trading _ _ _ _ _ _ _ Hd (proj1 Hi) Hst').
      cbn [push_capital sim_trades cash holdings].
      rewrite signal_spec;
        [|lia|unfold ma10_of|unfold ma100_of];
        [|rewrite length_fmap, length_seq; lia..].
      by rewrite (trade_rule _ _ d _ Hex). }
    split_and!; [done|done| |].
    + intros Hpos. specialize (Hflat Hpos). split; [done|].
      rewrite Hrule.
      assert (Number.strict_eq (holdings st) 0 = true) as ->
        by (by rewrite Hflat).
      assert (Number.gtb (holdings st) 0 = false) as ->
        by (by rewrite Hflat).
      by rewrite andb_true_r, andb_false_r.
    + intros _ Hpos. rewrite Hrule, Hpos, (positive_not_zero _ Hpos).
      by rewrite andb_true_r, andb_false_r.
Qed.

(** C3, as stated, fails: after a sell at a close of 0 the buy of day 103
    leaves the holdings at 0; the position is LONG, yet the death cross of
    day 110 records no sell, and the golden cross of day 112 records a second
    buy. *)
Lemma runStrategy_crossover_counterexample :
  let data := BacktestExamples.zero_close_data in
  start_index data = Some 100%nat
  ∧ ∃ st110 st111 st112 st113 d112,
      sim_upto data 100 110 = Some st110
      ∧ sim_upto data 100 111 = Some st111
      ∧ sim_upto data 100 112 = Some st112
      ∧ sim_upto data 100 113 = Some st113
      ∧ data !! 112%nat = Some d112
      ∧ (λ t, (type t, price t)) <$> sim_trades st110
        = [(buy, 5); (sell, 0); (buy, 7)]%float
      ∧ position_of (sim_trades st110) = LONG
      ∧ death_cross (ma10_of data) (ma100_of data) 110 = true
      ∧ sim_trades st111 = sim_trades st110
      ∧ position_of (sim_trades st112) = LONG
      ∧ golden_cross (ma10_of data) (ma100_of data) 112 = true
      ∧ sim_trades st113 = sim_trades st112 ++ [buy_trade d112].
Proof.
  intros data. split; [vm_compute; reflexivity|].
  do 5 eexists.
  split_and!; [vm_compute; reflexivity..].
Qed.

Lemma runStrategy_crossover_rule_witness :
  averages_available (ma10_of BacktestExamples.rising_data)
    (ma100_of BacktestExamples.rising_data) 50 = false
  ∧ signal (ma10_of BacktestExamples.rising_data)
      (ma100_of BacktestExamples.rising_data) 50 = AHold
  ∧ ∃ d st st',
      BacktestExamples.rising_data !! 102%nat = Some d
      ∧ sim_upto BacktestExamples.rising_data 100 102 = Some st
      ∧ sim_upto BacktestExamples.rising_data 100 103 = Some st'
      ∧ position_of (sim_trades st) = LONG
      ∧ Number.gtb (holdings st) 0 = true
      ∧ (sim_trades st', cash st', holdings st', position_of (sim_trades st'))
        = (sim_trades st ++ [sell_trade d], (holdings st * close d)%float,
           0%float, FLAT).
Proof.
  destruct (runStrategy_crossover_rule BacktestExamples.rising_data 100 102)
    as (_ & _ & _ & Hnone & _ & d & st & st' & Hd & Hst & Hst' & _ & _ & _
        & Hlong).
  - vm_compute. reflexivity.
  - change (100 ≤ 102 < 115)%nat. lia.
  - assert (averages_available (ma10_of BacktestExamples.rising_data)
              (ma100_of BacktestExamples.rising_data) 50 = false) as Hna
      by (vm_compute; reflexivity).
    split_and!; [done|by apply Hnone|].
    assert (position_of (sim_trades st) = LONG
            ∧ Number.gtb (holdings st) 0 = true) as [Hpos Hgt].
    { vm_compute in Hst. injection Hst as <-. split; vm_compute; reflexivity. }
    exists d, st, st'. split_and!; [exact Hd|exact Hst|exact Hst'|done|done|].
    rewrite (Hlong Hpos Hgt).
    assert (death_cross (ma10_of BacktestExamples.rising_data)
              (ma100_of BacktestExamples.rising_data) 102 = true) as ->
      by (vm_compute; reflexivity).
    reflexivity.
Defined.

(** ** The cache store across a sync (services: syncData) *)

(** X6. Whatever happens, a call of [syncData] touches only its own key: it
    reads the key once, first, and then writes it at most once; the other
    keys of the store are left as they were, and the store changes only by a
    successful write. *)
Theorem syncData_store_calls sto key fetchFn items r items' ops :
  syncData sto key fetchFn items = (r, items', ops) →
  (∀ k, k ≠ key → items' !! k = items !! k)
  ∧ (∃ ok rest,
       ops = OpGet key ok :: rest
       ∧ (rest = [] ∨ ∃ v ok', rest = [OpSet key v ok']))
  ∧ (items' = items
     ∨ ∃ v, OpSet key v true ∈ ops ∧ items' = <[key := v]> items).
Proof.
  sync_cases; intros [= <- <- <-];
    (split_and!;
     [intros k Hk; by rewrite ?lookup_insert_ne
     |do 2 eexists; split; [done|]; eauto
     |first [by left|right; eexists; split; [|done]; set_solver]]).
Qed.

Lemma syncData_store_calls_witness :
  ∃ r items' ops,
    syncData SyncExamples.sto_ok "volume_data_v2" SyncExamples.fetch_overlap
      SyncExamples.items10 = (r, items', ops)
    ∧ (∀ k, k ≠ "volume_data_v2"%string → items' !! k = SyncExamples.items10 !! k)
    ∧ (∃ ok rest,
         ops = OpGet "volume_data_v2" ok :: rest
         ∧ (rest = [] ∨ ∃ v ok', rest = [OpSet "volume_data_v2" v ok']))
    ∧ (items' = SyncExamples.items10
       ∨ ∃ v, OpSet "volume_data_v2" v true ∈ ops
              ∧ items' = <["volume_data_v2"%string := v]> SyncExamples.items10).
Proof.
  destruct (syncData SyncExamples.sto_ok "volume_data_v2"
              SyncExamples.fetch_overlap SyncExamples.items10)
    as [[r items'] ops] eqn:Hrun.
  exists r, items', ops. split; [done|].
  exact (syncData_store_calls SyncExamples.sto_ok "volume_data_v2"
           SyncExamples.fetch_overlap SyncExamples.items10 r items' ops Hrun).
Defined.

(** X7. When neither the store nor the fetch from the cached last date
    fails, the store holds under the key exactly the sequence the call
    returns. *)
Theorem syncData_store_matches sto key fetchFn items newData r items' ops :
  getItem_fails sto key = false → setItem_fails sto key = false →
  fetchFn (last_date (default [] (items !! key))) = Resolved newData →
  syncData sto key fetchFn items = (r, items', ops) →
  r = Resolved (default [] (items' !! key)).
Proof.
  intros Hget Hset Hfetch.
  sync_cases; intros [= <- <- <-]; try congruence;
    by rewrite ?lookup_insert_eq.
Qed.

Lemma syncData_store_matches_witness :
  ∃ items' ops,
    syncData SyncExamples.sto_ok "volume_data_v2" SyncExamples.fetch_overlap
      SyncExamples.items10
    = (Resolved (default [] (items' !! "volume_data_v2"%string)), items', ops).
Proof.
  destruct (syncData SyncExamples.sto_ok "volume_data_v2"
              SyncExamples.fetch_overlap SyncExamples.items10)
    as [[r items'] ops] eqn:Hrun.
  exists items', ops.
  by rewrite (syncData_store_matches SyncExamples.sto_ok "volume_data_v2"
                SyncExamples.fetch_overlap SyncExamples.items10
                SyncExamples.fetched8 r items' ops eq_refl eq_refl eq_refl Hrun)
    at 1.
Defined.

Lemma falsy_last_date_empty cached :
  last_date cached ≠ Some ""%string → truthy_date (last_date cached) = false →
  cached = [].
Proof.
  destruct (last_date cached) as [d|] eqn:Hlast; simpl.
  - destruct (String.eqb_spec d ""); [by subst|done].
  - intros _ _. by apply last_date_nil_iff.
Qed.

(** X8. The cache only grows: unless the cached last date is the empty
    string, the sequence stored under the key after a call, failed or not,
    starts with the sequence cached before it. *)
Theorem syncData_append_only sto key fetchFn items r items' ops :
  last_date (default [] (items !! key)) ≠ Some ""%string →
  syncData sto key fetchFn items = (r, items', ops) →
  default [] (items !! key) `prefix_of` default [] (items' !! key).
Proof.
  intros Hdate.
  sync_cases; intros [= <- <- <-]; rewrite ?lookup_insert_eq; simpl;
    try done.
  - by apply prefix_app_r.
  - rewrite (falsy_last_date_empty _ Hdate) by done. apply prefix_nil.
Qed.

Lemma syncData_append_only_witness :
  ∃ r items' ops,
    syncData SyncExamples.sto_ok "volume_data_v2" SyncExamples.fetch_overlap
      SyncExamples.items10 = (r, items', ops)
    ∧ SyncExamples.cached10
      `prefix_of` default [] (items' !! "volume_data_v2"%string).
Proof.
  destruct (syncData SyncExamples.sto_ok "volume_data_v2"
              SyncExamples.fetch_overlap SyncExamples.items10)
    as [[r items'] ops] eqn:Hrun.
  exists r, items', ops. split; [done|].
  apply (syncData_append_only SyncExamples.sto_ok "volume_data_v2"
           SyncExamples.fetch_overlap SyncExamples.items10 r items' ops);
    [|done].
  unfold SyncExamples.items10. rewrite lookup_singleton_eq. by vm_compute.
Defined.

(** ** Edge windows and growing series (utils: calculateMA, calculateHDY) *)

(** X9. With a window of 0 bars the sum is empty and the mean is 0 / 0:
    [calculateMA] returns NaN at every index. *)
Theorem calculateMA_zero_window data field :
  calculateMA 0 data field = Some (replicate (length data) (Some nan)).
Proof.
  rewrite calculateMA_entries. f_equal.
  apply list_eq. intros i.
  rewrite list_lookup_fmap.
  destruct (Nat.lt_ge_cases i (length data)) as [Hlt|Hge].
  - rewrite lookup_seq_lt, lookup_replicate_2 by done. reflexivity.
  - rewrite lookup_seq_ge by done. simpl. symmetry.
    apply lookup_replicate_None. lia.
Qed.

(** X10. A series shorter than the window has no full window: every entry
    is [null]. *)
Theorem calculateMA_short_series w data field :
  (length data < w)%nat →
  calculateMA w data field = Some (replicate (length data) None).
Proof.
  intros Hw. rewrite calculateMA_entries. f_equal.
  apply list_eq. intros i.
  rewrite list_lookup_fmap.
  destruct (Nat.lt_ge_cases i (length data)) as [Hlt|Hge].
  - rewrite lookup_seq_lt, lookup_replicate_2 by done. simpl.
    unfold ma_entry.
    by replace (i <? w - 1)%nat with true by (symmetry; apply Nat.ltb_lt; lia).
  - rewrite lookup_seq_ge by done. simpl. symmetry.
    apply lookup_replicate_None. lia.
Qed.

Lemma calculateMA_short_series_witness :
  calculateMA 100 SyncExamples.cached10 FVolume = Some (replicate 10 None).
Proof.
  apply (calculateMA_short_series 100 SyncExamples.cached10 FVolume).
  vm_compute. lia.
Defined.

(** The window ending at [i] is the same in a series and in every extension
    of it. *)
Lemma window_app {A} (data more : list A) k n :
  (k + n ≤ length data)%nat →
  take n (drop k (data ++ more)) = take n (drop k data).
Proof.
  intros Hlen. rewrite drop_app_le by lia.
  rewrite take_app_le; [done|]. rewrite length_drop. lia.
Qed.

Lemma ma_entry_app w data more field i :
  (i < length data)%nat →
  ma_entry w (data ++ more) field i = ma_entry w data field i.
Proof.
  intros Hi. unfold ma_entry.
  destruct (Nat.ltb_spec i (w - 1)) as [|Hge]; [done|].
  unfold window_values.
  destruct (decide (w = 0%nat)) as [->|Hw]; [by rewrite !take_0|].
  by rewrite window_app by lia.
Qed.

(** X11. Appending bars to a series leaves the averages already computed as
    they are: the moving average of the shorter series is the beginning of
    the moving average of the longer one. *)
Theorem calculateMA_prefix w data more field :
  ∃ ma ma',
    calculateMA w data field = Some ma
    ∧ calculateMA w (data ++ more) field = Some ma'
    ∧ ma = take (length data) ma'.
Proof.
  do 2 eexists. split_and!; [apply calculateMA_entries..|].
  rewrite length_app, seq_app, fmap_app, take_app_length'
    by (by rewrite length_fmap, length_seq).
  apply list_eq. intros i. rewrite !list_lookup_fmap.
  destruct (Nat.lt_ge_cases i (length data)) as [Hlt|Hge].
  - rewrite lookup_seq_lt by done. simpl. by rewrite ma_entry_app.
  - by rewrite lookup_seq_ge by done.
Qed.

Lemma rsv_at_app data more k :
  (34 ≤ k < length data)%nat → rsv_at (data ++ more) k = rsv_at data k.
Proof.
  intros Hk. unfold rsv_at, window_range.
  rewrite lookup_app_l by lia. by rewrite window_app by lia.
Qed.

Lemma ema_upto_app data more i :
  (i ≤ length data)%nat → ema_upto (data ++ more) i = ema_upto data i.
Proof.
  induction i as [|i IH]; intros Hi; [done|]. cbn [ema_upto].
  rewrite IH by lia.
  destruct (Nat.ltb_spec i HDY_N) as [|Hge]; [done|].
  unfold HDY_N in Hge. by rewrite rsv_at_app by lia.
Qed.

(** X12. Appending bars to a series leaves the oscillator values already
    computed as they are: the HDY sequence of the shorter series is the
    beginning of the HDY sequence of the longer one. *)
Theorem calculateHDY_prefix data more :
  ∃ h h',
    calculateHDY data = Some h
    ∧ calculateHDY (data ++ more) = Some h'
    ∧ h = take (length data) h'.
Proof.
  do 2 eexists. split_and!; [apply calculateHDY_entries..|].
  rewrite length_app, seq_app, fmap_app, take_app_length'
    by (by rewrite length_fmap, length_seq).
  apply list_eq. intros i. rewrite !list_lookup_fmap.
  destruct (Nat.lt_ge_cases i (length data)) as [Hlt|Hge].
  - rewrite lookup_seq_lt by done. simpl. unfold hdy_entry.
    by rewrite ema_upto_app by lia.
  - by rewrite lookup_seq_ge by done.
Qed.

(** * Market data services (services) *)

(** [s.split(sep)] for a one-character separator: at least one part, the
    empty string giving one empty part. *)
Fixpoint split_on (sep : ascii) (s : string) : list string :=
  match s with
  | EmptyString => [EmptyString]
  | String c s' =>
      if Ascii.eqb c sep then EmptyString :: split_on sep s'
      else
        match split_on sep s' with
        | p :: ps => String c p :: ps
        | [] => [String c EmptyString]
        end
  end.

(** [startDate.replace(/-/g, '')]. *)
Fixpoint remove_dashes (s : string) : string :=
  match s with
  | EmptyString => EmptyString
  | String c s' =>
      if Ascii.eqb c "-" then remove_dashes s' else String c (remove_dashes s')
  end.

Definition API_BASE : string :=
  "https://push2his.eastmoney.com/api/qt/stock/kline/get".
Definition BASE_PARAMS : string :=
  "fields1=f1,f2,f3,f4,f5,f6&fields2=f51,f52,f53,f54,f55,f57&klt=101&fqt=1".

(** The part of a JSONP response the code looks at: [res], [res.data] and
    [res.data.klines], each possibly missing or falsy. The code is typed
    [Promise<any>] and hands on whatever truthy [klines] it gets; the model
    covers the responses of the documented shape, in which [klines], when
    present, is an array of strings. A truthy [klines] of another shape, on
    which [forEach] or [split] would throw, is outside it. *)
Record KlineData := { klines : option (list string) }.
Record KlineResponse := { res_data : option KlineData }.

(** [.then] on settled promises. *)
Definition and_then {A B} (p : Outcome A) (k : A → Outcome B) : Outcome B :=
  match p with
  | Resolved a => k a
  | Rejected e => Rejected e
  end.

Section Services.

(** [parseFloat] on strings, as the language defines it. *)
Variable parseFloat : string → float.

(** [jsonp(url)]: how the request for a URL settles. A request that never
    settles is not modelled. *)
Variable jsonp : string → Outcome (option KlineResponse).

(** [parseFloat(p[i])]; a missing part reads as [undefined], which parses to
    NaN. *)
Definition parse_part (p : list string) (i : nat) : float :=
  match p !! i with
  | Some s => parseFloat s
  | None => nan
  end.

(** [p[0]] where the guard on [p.length] makes it a string. *)
Definition part0 (p : list string) : string := default EmptyString (p !! 0%nat).

Definition kline_url (secid beg : string) : string :=
  (API_BASE ++ "?" ++ BASE_PARAMS ++ "&secid=" ++ secid ++ "&beg=" ++ beg
   ++ "&end=20500101&lmt=100000")%string.

(** [fetchRawKlines]: the request is wrapped in [try]/[catch], and every
    path that does not return the klines ends in [return []]. *)
Definition fetchRawKlines (secid : string) (startDate : option string)
  : Outcome (list string) :=
  let beg :=
    if truthy_date startDate
    then remove_dashes (default EmptyString startDate)
    else "20050101"%string in
  let url := kline_url secid beg in
  match jsonp url with
  | Resolved (Some res) =>
      match res_data res with
      | Some d =>
          match klines d with
          | Some ks => Resolved ks
          | None => Resolved []
          end
      | None => Resolved []
      end
  | Resolved None => Resolved []
  | Rejected _ => Resolved []
  end.

(** The callback of [lines.forEach] in [fetchBacktestData], on the result
    array. *)
Definition backtest_line (result : list StockDataPoint) (line : string)
  : list StockDataPoint :=
  let p := split_on "," line in
  if (5 <? length p)%nat then
    let date := part0 p in
    let open := parse_part p 1 in
    let close := parse_part p 2 in
    let high := parse_part p 3 in
    let low := parse_part p 4 in
    let volume := parse_part p 5 in
    if negb (Number.isNaN close) && negb (Number.isNaN high)
       && negb (Number.isNaN low)
    then result ++
         [{| date := date; close := close; open := Some open;
             high := Some high; low := Some low; volume := volume;
             index := None; bondPrice := None; maShort := None;
             maLong := None; maCustom := None; hdy := None |}]
    else result
  else result.

Definition backtest_bars (lines : list string) : list StockDataPoint :=
  foldl backtest_line [] lines.

(** [linesSZ.forEach] in [fetchVolumeData]: the Shenzhen volume by date. *)
Definition sz_line (szMap : gmap string float) (line : string)
  : gmap string float :=
  let p := split_on "," line in
  if (5 <? length p)%nat then
    let vol := parse_part p 5 in
    if negb (Number.isNaN vol) then <[part0 p := vol]> szMap else szMap
  else szMap.

(** [szMap.get(date) || 0]. *)
Definition get_or_0 (m : gmap string float) (date : string) : float :=
  match m !! date with
  | Some v => if Number.truthy v then v else 0%float
  | None => 0%float
  end.

(** [linesSH.forEach] in [fetchVolumeData]. *)
Definition sh_line (szMap : gmap string float) (result : list StockDataPoint)
    (line : string) : list StockDataPoint :=
  let p := split_on "," line in
  if (5 <? length p)%nat then
    let date := part0 p in
    let close := parse_part p 2 in
    let shVol := parse_part p 5 in
    let szVol := get_or_0 szMap date in
    if negb (Number.isNaN close) && negb (Number.isNaN shVol)
    then result ++
         [{| date := date; close := close; open := None; high := None;
             low := None;
             volume := Number.round_to 4 ((shVol + szVol) / 1000000000000);
             index := None; bondPrice := None; maShort := None;
             maLong := None; maCustom := None; hdy := None |}]
    else result
  else result.

Definition volume_bars (linesSH linesSZ : list string) : list StockDataPoint :=
  if (length linesSH =? 0)%nat then []
  else
    let szMap := foldl sz_line ∅ linesSZ in
    foldl (sh_line szMap) [] linesSH.

(** [linesBond.forEach] in [fetchBondData]: the bond ETF close by date. *)
Definition bond_line (etfMap : gmap string float) (l : string)
  : gmap string float :=
  let p := split_on "," l in
  if (2 <? length p)%nat then
    let val := parse_part p 2 in
    if negb (Number.isNaN val) then <[part0 p := val]> etfMap else etfMap
  else etfMap.

(** [linesStock.forEach] in [fetchBondData]. *)
Definition stock_line (etfMap : gmap string float)
    (result : list StockDataPoint) (line : string) : list StockDataPoint :=
  let p := split_on "," line in
  if (2 <? length p)%nat then
    let date := part0 p in
    let stockIdx := parse_part p 2 in
    if negb (Number.isNaN stockIdx)
    then result ++
         [{| date := date; close := stockIdx; open := None; high := None;
             low := None; volume := 0;
             index := None; bondPrice := Some (get_or_0 etfMap date);
             maShort := None; maLong := None; maCustom := None; hdy := None |}]
    else result
  else result.

Definition bond_bars (linesStock linesBond : list string)
  : list StockDataPoint :=
  let etfMap := foldl bond_line ∅ linesBond in
  foldl (stock_line etfMap) [] linesStock.

(** The three services: [syncData] on a key, with the fetch function that
    downloads and parses the lines. *)
Definition fetchBacktestData (sto : Storage) (secid : string)
  : Async (list StockDataPoint) :=
  syncData sto ("backtest_" ++ secid ++ "_v2")
    (λ startDate,
       and_then (fetchRawKlines secid startDate)
         (λ lines, Resolved (backtest_bars lines))).

Definition fetchVolumeData (sto : Storage) : Async (list StockDataPoint) :=
  syncData sto "volume_data_v2"
    (λ startDate,
       and_then (fetchRawKlines "1.000001" startDate) (λ linesSH,
       and_then (fetchRawKlines "0.399001" startDate) (λ linesSZ,
       Resolved (volume_bars linesSH linesSZ)))).

Definition fetchBondData (sto : Storage) : Async (list StockDataPoint) :=
  syncData sto "bond_data_v2"
    (λ startDate,
       and_then (fetchRawKlines "1.000001" startDate) (λ linesStock,
       and_then (fetchRawKlines "1.511090" startDate) (λ linesBond,
       Resolved (bond_bars linesStock linesBond)))).

End Services.

(** ** Parsing the downloaded lines *)

(** A loop that pushes at most one entry per element collects the entries in
    order. *)
Lemma foldl_push {A B} (f : B → option A) (step : list A → B → list A) :
  (∀ r x, step r x = r ++ option_list (f x)) →
  ∀ xs acc, foldl step acc xs = acc ++ omap f xs.
Proof.
  intros Hstep xs. induction xs as [|x xs IH]; intros acc; simpl.
  - by rewrite app_nil_r.
  - rewrite IH, Hstep, <- app_assoc. by destruct (f x).
Qed.

Lemma omap_length_le {A B} (f : A → option B) (xs : list A) :
  (length (omap f xs) ≤ length xs)%nat.
Proof.
  induction xs as [|x xs IH]; simpl in *; [done|].
  destruct (f x); simpl; change (list_omap A B f xs) with (omap f xs); lia.
Qed.

(** The date of a line: its first comma-separated part. *)
Definition line_date (line : string) : string :=
  default EmptyString (split_on "," line !! 0%nat).

(** Entries parsed from lines in order, each dated like its line, are in
    date order when the lines are. *)
Lemma omap_strictly_increasing (f : string → option StockDataPoint) lines :
  (∀ line d, f line = Some d → date d = line_date line) →
  StronglySorted (λ a b, String.ltb a b = true) (line_date <$> lines) →
  strictly_increasing (omap f lines).
Proof.
  intros Hdate. induction lines as [|line lines IH]; simpl; [constructor|].
  intros Hsorted. apply StronglySorted_inv in Hsorted as [Hs Hall].
  destruct (f line) as [d|] eqn:Hd; [|by apply IH].
  constructor; [by apply IH|].
  apply Forall_forall. intros d' (line' & Hin & Hd')%list_elem_of_omap.
  unfold bar_lt. rewrite (Hdate _ _ Hd), (Hdate _ _ Hd').
  rewrite Forall_forall in Hall. apply Hall. by apply list_elem_of_fmap_2.
Qed.

Section Parsing.

Variable parseFloat : string → float.

(** The bar [fetchBacktestData] makes of one line, if it keeps the line. *)
Definition backtest_bar (line : string) : option StockDataPoint :=
  head (backtest_line parseFloat [] line).

Lemma backtest_line_push result line :
  backtest_line parseFloat result line
  = result ++ option_list (backtest_bar line).
Proof.
  unfold backtest_bar, backtest_line.
  destruct (5 <? length _)%nat; [|by rewrite app_nil_r].
  destruct (negb _ && negb _ && negb _); [done|by rewrite app_nil_r].
Qed.

Lemma backtest_bars_omap lines :
  backtest_bars parseFloat lines = omap backtest_bar lines.
Proof.
  exact (foldl_push backtest_bar (backtest_line parseFloat) backtest_line_push
           lines []).
Qed.

Lemma backtest_bar_Some line d :
  backtest_bar line = Some d →
  (5 < length (split_on "," line))%nat
  ∧ date d = line_date line
  ∧ Number.isNaN (close d) = false
  ∧ (∃ h, high d = Some h ∧ Number.isNaN h = false)
  ∧ (∃ l, low d = Some l ∧ Number.isNaN l = false)
  ∧ is_Some (open d).
Proof.
  unfold backtest_bar, backtest_line.
  destruct (Nat.ltb_spec 5 (length (split_on "," line))) as [Hlen|]; [|done].
  destruct (negb _ && negb _ && negb _) eqn:Hvalid; [|done].
  apply andb_true_iff in Hvalid as [[Hc Hh]%andb_true_iff Hl].
  apply negb_true_iff in Hc, Hh, Hl.
  intros [= <-]. simpl. split_and!; eauto.
Qed.

(** X13. Every bar [fetchBacktestData] parses comes from a line with more
    than 5 comma-separated parts, is dated by the first part, has a close, a
    high and a low that are not NaN, and carries open, high and low; no line
    gives more than one bar. *)
Theorem backtest_bars_valid lines :
  (length (backtest_bars parseFloat lines) ≤ length lines)%nat
  ∧ ∀ d, d ∈ backtest_bars parseFloat lines →
      (∃ line, line ∈ lines ∧ (5 < length (split_on "," line))%nat
               ∧ date d = line_date line)
      ∧ Number.isNaN (close d) = false
      ∧ (∃ h, high d = Some h ∧ Number.isNaN h = false)
      ∧ (∃ l, low d = Some l ∧ Number.isNaN l = false)
      ∧ is_Some (open d).
Proof.
  rewrite backtest_bars_omap. split; [apply omap_length_le|].
  intros d (line & Hin & Hd)%list_elem_of_omap.
  destruct (backtest_bar_Some line d Hd) as (Hlen & Hdate & Hrest).
  split; [|done]. eauto.
Qed.

(** The bar [fetchVolumeData] makes of one Shanghai line. *)
Definition volume_bar (szMap : gmap string float) (line : string)
  : option StockDataPoint :=
  head (sh_line parseFloat szMap [] line).

Lemma sh_line_push szMap result line :
  sh_line parseFloat szMap result line
  = result ++ option_list (volume_bar szMap line).
Proof.
  unfold volume_bar, sh_line.
  destruct (5 <? length _)%nat; [|by rewrite app_nil_r].
  destruct (negb _ && negb _); [done|by rewrite app_nil_r].
Qed.

Lemma volume_bars_omap linesSH linesSZ :
  volume_bars parseFloat linesSH linesSZ
  = omap (volume_bar (foldl (sz_line parseFloat) ∅ linesSZ)) linesSH.
Proof.
  unfold volume_bars. destruct linesSH as [|line linesSH]; [done|].
  cbn [length Nat.eqb].
  exact (foldl_push (volume_bar _) (sh_line parseFloat _) (sh_line_push _)
           (line :: linesSH) []).
Qed.

(** The bar [fetchBondData] makes of one index line. *)
Definition bond_bar (etfMap : gmap string float) (line : string)
  : option StockDataPoint :=
  head (stock_line parseFloat etfMap [] line).

Lemma stock_line_push etfMap result line :
  stock_line parseFloat etfMap result line
  = result ++ option_list (bond_bar etfMap line).
Proof.
  unfold bond_bar, stock_line.
  destruct (2 <? length _)%nat; [|by rewrite app_nil_r].
  destruct (negb _); [done|by rewrite app_nil_r].
Qed.

Lemma bond_bars_omap linesStock linesBond :
  bond_bars parseFloat linesStock linesBond
  = omap (bond_bar (foldl (bond_line parseFloat) ∅ linesBond)) linesStock.
Proof.
  exact (foldl_push (bond_bar _) (stock_line parseFloat _) (stock_line_push _)
           linesStock []).
Qed.

Lemma volume_bar_date szMap line d :
  volume_bar szMap line = Some d → date d = line_date line.
Proof.
  unfold volume_bar, sh_line.
  destruct (5 <? length _)%nat; [|done].
  destruct (negb _ && negb _); [|done]. by intros [= <-].
Qed.

Lemma bond_bar_date etfMap line d :
  bond_bar etfMap line = Some d → date d = line_date line.
Proof.
  unfold bond_bar, stock_line.
  destruct (2 <? length _)%nat; [|done].
  destruct (negb _); [|done]. by intros [= <-].
Qed.

Lemma backtest_bars_sorted lines :
  StronglySorted (λ a b, String.ltb a b = true) (line_date <$> lines) →
  strictly_increasing (backtest_bars parseFloat lines).
Proof.
  intros Hsorted. rewrite backtest_bars_omap.
  apply omap_strictly_increasing; [|done].
  intros line d Hd. by apply backtest_bar_Some in Hd as (_ & ? & _).
Qed.

Lemma volume_bars_sorted lines others :
  StronglySorted (λ a b, String.ltb a b = true) (line_date <$> lines) →
  strictly_increasing (volume_bars parseFloat lines others).
Proof.
  intros Hsorted. rewrite volume_bars_omap.
  apply omap_strictly_increasing; [|done].
  intros line d. apply volume_bar_date.
Qed.

Lemma bond_bars_sorted lines others :
  StronglySorted (λ a b, String.ltb a b = true) (line_date <$> lines) →
  strictly_increasing (bond_bars parseFloat lines others).
Proof.
  intros Hsorted. rewrite bond_bars_omap.
  apply omap_strictly_increasing; [|done].
  intros line d. apply bond_bar_date.
Qed.

(** X14. The three parsers keep the order of their primary lines: when the
    dates of the lines (of the Shanghai lines, of the index lines) increase
    strictly, so do the dates of the bars returned, which is what [syncData]
    expects of a fetch result. *)
Theorem parsed_bars_strictly_increasing lines others :
  StronglySorted (λ a b, String.ltb a b = true) (line_date <$> lines) →
  strictly_increasing (backtest_bars parseFloat lines)
  ∧ strictly_increasing (volume_bars parseFloat lines others)
  ∧ strictly_increasing (bond_bars parseFloat lines others).
Proof.
  intros Hsorted. split_and!.
  - by apply backtest_bars_sorted.
  - by apply volume_bars_sorted.
  - by apply bond_bars_sorted.
Qed.

End Parsing.

Section SecondaryLines.

Variable parseFloat : string → float.

Lemma volume_bar_other szMap szMap' line :
  match volume_bar parseFloat szMap line, volume_bar parseFloat szMap' line with
  | Some a, Some b => date a = date b ∧ close a = close b
  | None, None => True
  | _, _ => False
  end.
Proof.
  unfold volume_bar, sh_line.
  destruct (5 <? length _)%nat; [|done].
  by destruct (negb _ && negb _).
Qed.

Lemma bond_bar_other etfMap etfMap' line :
  match bond_bar parseFloat etfMap line, bond_bar parseFloat etfMap' line with
  | Some a, Some b => date a = date b ∧ close a = close b ∧ volume a = volume b
  | None, None => True
  | _, _ => False
  end.
Proof.
  unfold bond_bar, stock_line.
  destruct (2 <? length _)%nat; [|done].
  by destruct (negb _).
Qed.

Lemma omap_Forall2 {A B} (R : B → B → Prop) (f g : A → option B) xs :
  (∀ x, match f x, g x with
        | Some a, Some b => R a b
        | None, None => True
        | _, _ => False
        end) →
  Forall2 R (omap f xs) (omap g xs).
Proof.
  intros Hfg. induction xs as [|x xs IH]; simpl; [constructor|].
  specialize (Hfg x).
  destruct (f x), (g x); try done. by constructor.
Qed.

(** X15. The secondary download only fills in one field: whatever the
    Shenzhen lines are, [fetchVolumeData] returns bars with the same dates
    and closes, in the same order, decided by the Shanghai lines alone; and
    whatever the bond lines are, [fetchBondData] returns bars with the same
    dates, closes and volumes. *)
Theorem secondary_lines_fill_one_field lines others others' :
  Forall2 (λ a b, date a = date b ∧ close a = close b)
    (volume_bars parseFloat lines others)
    (volume_bars parseFloat lines others')
  ∧ Forall2 (λ a b, date a = date b ∧ close a = close b ∧ volume a = volume b)
      (bond_bars parseFloat lines others)
      (bond_bars parseFloat lines others').
Proof.
  split.
  - rewrite !volume_bars_omap. apply omap_Forall2. intros line.
    apply volume_bar_other.
  - rewrite !bond_bars_omap. apply omap_Forall2. intros line.
    apply bond_bar_other.
Qed.

End SecondaryLines.

(** ** The services and the network *)

(** With a fetch function that always resolves, so does [syncData]: the
    fallback of a failed store is that fetch function. *)
Lemma syncData_resolves sto key fetchFn items :
  (∀ since, ∃ bars, fetchFn since = Resolved bars) →
  ∃ bars items' ops, syncData sto key fetchFn items = (Resolved bars, items', ops).
Proof.
  intros Htotal. destruct (Htotal None) as [bars0 Hnone].
  sync_cases; rewrite ?Hnone; eauto.
Qed.

Section Network.

Variable parseFloat : string → float.
Variable jsonp : string → Outcome (option KlineResponse).

Hypothesis offline : ∀ url, ∃ e, jsonp url = Rejected e.

Lemma fetchRawKlines_offline secid startDate :
  fetchRawKlines jsonp secid startDate = Resolved [].
Proof.
  unfold fetchRawKlines. cbv zeta.
  match goal with |- context [jsonp ?url] => by destruct (offline url) as [e ->] end.
Qed.

(** What a sync returns when the fetch brings nothing. *)
Definition cached_or_empty (sto : Storage) (key : string)
    (items : gmap string (list StockDataPoint))
  : Outcome (list StockDataPoint) * gmap string (list StockDataPoint)
    * list CacheOp :=
  (Resolved (if getItem_fails sto key then [] else default [] (items !! key)),
   items, [OpGet key (negb (getItem_fails sto key))]).

Lemma syncData_nothing_fetched sto key fetchFn items :
  (∀ since, fetchFn since = Resolved []) →
  syncData sto key fetchFn items = cached_or_empty sto key items.
Proof.
  intros Hnone. unfold cached_or_empty.
  rewrite syncData_unfold. cbv zeta. rewrite !Hnone. by destruct (getItem_fails sto key).
Qed.

(** X17. With the network down (every request rejected) each service
    returns the cached series when the store can be read and the empty
    series when it cannot; it reads the store once and writes nothing. *)
Theorem services_offline sto secid items :
  fetchBacktestData parseFloat jsonp sto secid items
  = cached_or_empty sto ("backtest_" ++ secid ++ "_v2") items
  ∧ fetchVolumeData parseFloat jsonp sto items
    = cached_or_empty sto "volume_data_v2" items
  ∧ fetchBondData parseFloat jsonp sto items
    = cached_or_empty sto "bond_data_v2" items.
Proof.
  split_and!; apply syncData_nothing_fetched; intros since;
    by rewrite !fetchRawKlines_offline.
Qed.

End Network.

Module ServiceExamples.

(** A stand-in for [parseFloat] that reads unsigned decimal integers, which
    is all the sample lines hold; anything else reads as NaN. *)
Fixpoint unsigned_value (s : string) (acc : Z) : option Z :=
  match s with
  | EmptyString => Some acc
  | String c s' =>
      let n := Z.of_nat (nat_of_ascii c) in
      if (48 <=? n) && (n <=? 57) then unsigned_value s' (10 * acc + (n - 48))
      else None
  end.

Definition parse_unsigned (s : string) : float :=
  match s with
  | EmptyString => nan
  | _ => from_option Number.of_Z nan (unsigned_value s 0)
  end.

(** Three daily lines: date, open, close, high, low, volume; the second one
    is cut short. *)
Definition lines : list string :=
  ["2024-01-02,10,11,12,9,1000"; "2024-01-03,11"; "2024-01-04,11,12,13,10,2000"]%string.

(** A network that rejects every request. *)
Definition network_down (url : string) : Outcome (option KlineResponse) :=
  Rejected FetchFailed.

End ServiceExamples.

Lemma parsed_bars_strictly_increasing_witness :
  strictly_increasing
    (backtest_bars ServiceExamples.parse_unsigned ServiceExamples.lines)
  ∧ strictly_increasing
      (volume_bars ServiceExamples.parse_unsigned ServiceExamples.lines [])
  ∧ strictly_increasing
      (bond_bars ServiceExamples.parse_unsigned ServiceExamples.lines []).
Proof.
  apply (parsed_bars_strictly_increasing ServiceExamples.parse_unsigned
           ServiceExamples.lines []).
  by apply (bool_decide_unpack _).
Defined.

Lemma services_offline_witness :
  fetchBacktestData ServiceExamples.parse_unsigned ServiceExamples.network_down
    SyncExamples.sto_ok "1.000001" SyncExamples.items10
  = cached_or_empty SyncExamples.sto_ok "backtest_1.000001_v2" SyncExamples.items10
  ∧ fetchVolumeData ServiceExamples.parse_unsigned ServiceExamples.network_down
      SyncExamples.sto_ok SyncExamples.items10
    = cached_or_empty SyncExamples.sto_ok "volume_data_v2" SyncExamples.items10
  ∧ fetchBondData ServiceExamples.parse_unsigned ServiceExamples.network_down
      SyncExamples.sto_ok SyncExamples.items10
    = cached_or_empty SyncExamples.sto_ok "bond_data_v2" SyncExamples.items10.
Proof.
  apply (services_offline ServiceExamples.parse_unsigned
           ServiceExamples.network_down).
  intros url. by exists FetchFailed.
Defined.

(** * Volume view (components/VolumeView: processedData, signals) *)

(** A row of the chart: the bar with its three averages filled in, and the
    marker ['buy'], ['sell'] or [null]. *)
Record VolumeRow := {
  row_bar : StockDataPoint;
  row_signal : option TradeType
}.

(** [v || 0] for [v : number | null | undefined]. *)
Definition or_0 (v : JSValue) : float :=
  match v with
  | Num x => if Number.truthy x then x else 0%float
  | _ => 0%float
  end.

(** The [signal] field of row [i]. *)
Definition view_signal (showSignals : bool) (ma10 ma100 : list (option float))
    (i : nat) : option TradeType :=
  if showSignals && (100 <? i)%nat then
    let pShort := or_0 (ma_at ma10 (Z.of_nat i - 1)) in
    let pLong := or_0 (ma_at ma100 (Z.of_nat i - 1)) in
    let cShort := or_0 (ma_at ma10 (Z.of_nat i)) in
    let cLong := or_0 (ma_at ma100 (Z.of_nat i)) in
    if (pShort <=? pLong)%float && Number.gtb cShort cLong then Some buy
    else if Number.geb pShort pLong && (cShort <? cLong)%float then Some sell
    else None
  else None.

(** [processedData], for a custom window that is a natural number. *)
Definition processedData (customMADays : nat) (showSignals : bool)
    (data : list StockDataPoint) : option (list VolumeRow) :=
  if (length data =? 0)%nat then Some []
  else
    ma100 ← calculateMA 100 data FVolume;
    maCustom ← calculateMA customMADays data FVolume;
    ma10 ← calculateMA 10 data FVolume;
    Some (imap
            (λ i d,
               {| row_bar :=
                    {| date := date d; close := close d; open := open d;
                       high := high d; low := low d; volume := volume d;
                       index := index d; bondPrice := bondPrice d;
                       maShort := ma10 !! i; maLong := ma100 !! i;
                       maCustom := maCustom !! i; hdy := hdy d |};
                  row_signal := view_signal showSignals ma10 ma100 i |})
            data).

(** [signals]: the rows with a truthy marker. *)
Definition signals (showSignals : bool) (rows : list VolumeRow)
  : list VolumeRow :=
  if negb showSignals then []
  else List.filter (λ r, match row_signal r with Some _ => true | None => false end)
         rows.

(** ** Markers and the backtest signal *)

Lemma is_zero_spec x : is_zero x = true → ∃ s, Prim2SF x = S754_zero s.
Proof.
  unfold is_zero. rewrite FloatAxioms.eqb_spec.
  change (Prim2SF PrimFloat.zero) with (S754_zero false).
  destruct (Prim2SF x) as [s|s| |s m e]; [eauto|by destruct s|done|].
  unfold SFeqb, SFcompare. by destruct s.
Qed.

(** Replacing a number that is not NaN by [x || 0] changes no comparison. *)
Lemma or_0_compare x y :
  Number.isNaN x = false →
  SFcompare (Prim2SF (or_0 (Num x))) y = SFcompare (Prim2SF x) y
  ∧ SFcompare y (Prim2SF (or_0 (Num x))) = SFcompare y (Prim2SF x).
Proof.
  intros Hnan. unfold or_0, Number.truthy. unfold Number.isNaN in Hnan.
  rewrite Hnan, orb_false_r.
  destruct (is_zero x) eqn:Hz; [|done]. simpl.
  destruct (is_zero_spec x Hz) as [s ->].
  change (Prim2SF 0) with (S754_zero false).
  by destruct y as [sy|sy| |sy my ey].
Qed.

Lemma or_0_leb x y :
  Number.isNaN x = false → Number.isNaN y = false →
  (or_0 (Num x) <=? or_0 (Num y))%float = (x <=? y)%float.
Proof.
  intros Hx Hy. rewrite !leb_spec. unfold SFleb.
  rewrite (proj1 (or_0_compare x _ Hx)). by rewrite (proj2 (or_0_compare y _ Hy)).
Qed.

Lemma or_0_ltb x y :
  Number.isNaN x = false → Number.isNaN y = false →
  (or_0 (Num x) <? or_0 (Num y))%float = (x <? y)%float.
Proof.
  intros Hx Hy. rewrite !ltb_spec. unfold SFltb.
  rewrite (proj1 (or_0_compare x _ Hx)). by rewrite (proj2 (or_0_compare y _ Hy)).
Qed.

(** The marker a backtest action would be drawn as. *)
Definition marker_of (a : Action) : option TradeType :=
  match a with
  | ABuy => Some buy
  | ASell => Some sell
  | AHold => None
  end.

(** X18. From index 101 on, the marker the volume view computes is the
    action the backtest derives at the same index, provided none of the four
    average values involved is NaN (the view reads a NaN average as 0). *)
Theorem view_signal_agrees ma10 ma100 i ps pl cs cl :
  (100 < i)%nat → (i < length ma10)%nat → (i < length ma100)%nat →
  cross_values ma10 ma100 i = Some (ps, pl, cs, cl) →
  Number.isNaN ps = false → Number.isNaN pl = false →
  Number.isNaN cs = false → Number.isNaN cl = false →
  view_signal true ma10 ma100 i = marker_of (signal ma10 ma100 i).
Proof.
  intros Hi H10 H100 Hcross Hps Hpl Hcs Hcl.
  rewrite signal_spec by lia.
  pose proof (crosses_exclusive ma10 ma100 i) as Hex. revert Hex.
  unfold golden_cross, death_cross. rewrite Hcross.
  unfold view_signal.
  replace (100 <? i)%nat with true by (symmetry; apply Nat.ltb_lt; lia).
  cbn [andb]. cbv zeta.
  replace (Z.of_nat i - 1) with (Z.of_nat (i - 1)) by lia.
  rewrite !ma_at_nat.
  revert Hcross. unfold cross_values.
  destruct (ma10 !! (i - 1)%nat) as [[ps'|]|]; try done;
    destruct (ma100 !! (i - 1)%nat) as [[pl'|]|]; try done;
    destruct (ma10 !! i) as [[cs'|]|]; try done;
    destruct (ma100 !! i) as [[cl'|]|]; try done.
  cbn. intros [= -> -> -> ->].
  unfold Number.gtb, Number.geb.
  change (if Number.truthy ps then ps else 0%float) with (or_0 (Num ps)).
  change (if Number.truthy pl then pl else 0%float) with (or_0 (Num pl)).
  change (if Number.truthy cs then cs else 0%float) with (or_0 (Num cs)).
  change (if Number.truthy cl then cl else 0%float) with (or_0 (Num cl)).
  rewrite !or_0_leb, !or_0_ltb by done.
  destruct ((ps <=? pl)%float && (cl <? cs)%float); [done|].
  by destruct ((pl <=? ps)%float && (cs <? cl)%float).
Qed.

Lemma view_signal_agrees_witness :
  view_signal true (ma10_of BacktestExamples.rising_data)
    (ma100_of BacktestExamples.rising_data) 102
  = marker_of (signal (ma10_of BacktestExamples.rising_data)
                 (ma100_of BacktestExamples.rising_data) 102).
Proof.
  eapply (view_signal_agrees _ _ 102);
    [vm_compute; lia|vm_compute; lia|vm_compute; lia
    |vm_compute; reflexivity
    |vm_compute; reflexivity..].
Defined.

(** ** Rows and markers *)

Lemma processedData_rows customMADays showSignals data :
  processedData customMADays showSignals data
  = Some (imap
            (λ i d,
               {| row_bar :=
                    {| date := date d; close := close d; open := open d;
                       high := high d; low := low d; volume := volume d;
                       index := index d; bondPrice := bondPrice d;
                       maShort := ma10_of data !! i;
                       maLong := ma100_of data !! i;
                       maCustom :=
                         (ma_entry customMADays data FVolume
                            <$> seq 0 (length data)) !! i;
                       hdy := hdy d |};
                  row_signal :=
                    view_signal showSignals (ma10_of data) (ma100_of data) i |})
            data).
Proof.
  unfold processedData. rewrite !calculateMA_entries.
  by destruct data.
Qed.

(** X19. [processedData] returns one row per bar, in order, each carrying
    the date, close and volume of its bar and the 10- and 100-bar volume
    averages at its index; the markers drawn ([signals]) all sit at indices
    above 100, and there is none when signals are switched off or the series
    has at most 101 bars. *)
Theorem processedData_markers customMADays showSignals data :
  ∃ rows,
    processedData customMADays showSignals data = Some rows
    ∧ length rows = length data
    ∧ (∀ i d, data !! i = Some d →
         ∃ r, rows !! i = Some r
           ∧ date (row_bar r) = date d ∧ close (row_bar r) = close d
           ∧ volume (row_bar r) = volume d
           ∧ maShort (row_bar r) = Some (ma_entry 10 data FVolume i)
           ∧ maLong (row_bar r) = Some (ma_entry 100 data FVolume i))
    ∧ (∀ r, r ∈ signals showSignals rows →
         showSignals = true ∧ ∃ i, (100 < i)%nat ∧ rows !! i = Some r)
    ∧ ((length data ≤ 101)%nat → signals showSignals rows = []).
Proof.
  eexists. split; [apply processedData_rows|].
  set (rows := imap _ data).
  assert (∀ r, r ∈ signals showSignals rows →
            showSignals = true ∧ ∃ i, (100 < i)%nat ∧ rows !! i = Some r)
    as Hmarkers.
  { intros r. unfold signals. destruct showSignals; simpl; [|by intros ?%elem_of_nil].
    intros [Hr Hsig]%list_elem_of_In%filter_In. split; [done|].
    apply list_elem_of_In, list_elem_of_lookup_1 in Hr as [i Hi].
    exists i. split; [|done].
    subst rows. rewrite list_lookup_imap in Hi.
    destruct (data !! i) as [d|]; [|done]. simpl in Hi. injection Hi as <-.
    simpl in Hsig. unfold view_signal in Hsig. simpl in Hsig.
    destruct (Nat.ltb_spec 100 i); [done|done]. }
  split_and!.
  - subst rows. by rewrite length_imap.
  - intros i d Hd. eexists. subst rows. rewrite list_lookup_imap, Hd. simpl.
    split; [done|]. simpl. unfold ma10_of, ma100_of.
    rewrite !ma_of_lookup by (by eapply lookup_lt_Some). done.
  - done.
  - intros Hlen. destruct (signals showSignals rows) as [|r rs] eqn:Hs; [done|].
    destruct (Hmarkers r) as (_ & i & Hi & Hr); [by left|].
    apply lookup_lt_Some in Hr. subst rows. rewrite length_imap in Hr. lia.
Qed.

(** * Backtest view (components/BacktestView: chartData) *)

(** A row of the backtest chart. [price] and [volume] are [undefined] when no
    bar carries the date; the averages are numbers, [null] or [undefined]. *)
Record ChartRow := {
  chart_date : string;
  chart_strategy : float;
  chart_benchmark : option float;
  chart_price : option float;
  chart_volume : option float;
  chart_maShort : option (option float);
  chart_maLong : option (option float)
}.

(** [xs.find((x, idx) => p(x, idx))] for a callback that may throw:
    [Some None] is [undefined]. *)
Fixpoint find_indexed {A} (p : A → nat → option bool) (xs : list A) (idx : nat)
  : option (option A) :=
  match xs with
  | [] => Some None
  | x :: xs' =>
      b ← p x idx;
      if (b : bool) then Some (Some x) else find_indexed p xs' (S idx)
  end.

(** [xs.map((x, i) => f(x, i))] for a callback that may throw. *)
Fixpoint map_indexed {A B} (f : A → nat → option B) (xs : list A) (i : nat)
  : option (list B) :=
  match xs with
  | [] => Some []
  | x :: xs' =>
      y ← f x i;
      ys ← map_indexed f xs' (S i);
      Some (y :: ys)
  end.

(** [data.find(d => d.date === date)]. *)
Definition find_by_date (data : list StockDataPoint) (date0 : string)
  : option StockDataPoint :=
  List.find (λ d, String.eqb (date d) date0) data.

(** [ma.find((_, idx) => data[idx].date === date)]; reading [.date] of a
    missing bar throws. *)
Definition find_ma_by_date (data : list StockDataPoint)
    (ma : list (option float)) (date0 : string) : option (option (option float)) :=
  find_indexed (λ _ idx, d ← data !! idx; Some (String.eqb (date d) date0)) ma 0.

Definition chartData (data : list StockDataPoint) (r : BacktestResult)
  : option (list ChartRow) :=
  ma10 ← calculateMA 10 data FVolume;
  ma100 ← calculateMA 100 data FVolume;
  map_indexed
    (λ c i,
       maShort ← find_ma_by_date data ma10 (point_date c);
       maLong ← find_ma_by_date data ma100 (point_date c);
       Some {| chart_date := point_date c;
               chart_strategy := value c;
               chart_benchmark := value <$> benchmarkCurve r !! i;
               chart_price := close <$> find_by_date data (point_date c);
               chart_volume := volume <$> find_by_date data (point_date c);
               chart_maShort := maShort;
               chart_maLong := maLong |})
    (capitalCurve r) 0.

(** ** Rows of the backtest chart *)

Lemma map_indexed_pointwise {A B} (f : A → nat → option B)
    (P : nat → A → B → Prop) xs : ∀ k,
  (∀ i x, xs !! i = Some x → ∃ y, f x (k + i)%nat = Some y ∧ P (k + i)%nat x y) →
  ∃ ys, map_indexed f xs k = Some ys
    ∧ length ys = length xs
    ∧ ∀ i x, xs !! i = Some x → ∃ y, ys !! i = Some y ∧ P (k + i)%nat x y.
Proof.
  induction xs as [|x xs IH]; intros k Hf; simpl.
  - exists []. split_and!; [done|done|]. intros i x Hx. by destruct i.
  - destruct (Hf 0%nat x eq_refl) as (y & Hy & HP).
    rewrite Nat.add_0_r in Hy, HP. rewrite Hy. simpl.
    destruct (IH (S k)) as (ys & -> & Hlen & Hys).
    { intros i x' Hx'. destruct (Hf (S i) x' Hx') as (y' & Hy' & HP').
      replace (S k + i)%nat with (k + S i)%nat by lia. eauto. }
    simpl. exists (y :: ys). split_and!; [done|simpl; lia|].
    intros [|i] x' Hx'; simpl in *.
    + injection Hx' as <-. rewrite Nat.add_0_r. eauto.
    + destruct (Hys i x' Hx') as (y' & Hy' & HP').
      replace (k + S i)%nat with (S k + i)%nat by lia. eauto.
Qed.

Lemma NoDup_dates_lookup data i j a b :
  NoDup (date <$> data) → data !! i = Some a → data !! j = Some b →
  date a = date b → i = j.
Proof.
  intros Hnd Ha Hb Heq.
  apply (NoDup_lookup (date <$> data) i j (date a) Hnd).
  - by rewrite list_lookup_fmap, Ha.
  - by rewrite list_lookup_fmap, Hb, Heq.
Qed.

Lemma string_eqb_false a b : a ≠ b → String.eqb a b = false.
Proof. intros Hne. by destruct (String.eqb_spec a b). Qed.

(** With distinct dates, the first bar found under the date of bar [i] is
    bar [i]. *)
Lemma find_by_date_NoDup data i d :
  NoDup (date <$> data) → data !! i = Some d →
  find_by_date data (date d) = Some d.
Proof.
  unfold find_by_date. revert i. induction data as [|x data IH]; intros i Hnd Hd.
  - done.
  - simpl. destruct i as [|i]; simpl in Hd.
    + injection Hd as ->. by rewrite String.eqb_refl.
    + rewrite string_eqb_false.
      * apply (IH i); [|done]. by apply NoDup_cons in Hnd as [_ ?].
      * intros Heq.
        by pose proof (NoDup_dates_lookup (x :: data) 0 (S i) x d Hnd eq_refl Hd Heq).
Qed.

Lemma find_ma_by_date_NoDup data ma i d :
  NoDup (date <$> data) → length ma = length data → data !! i = Some d →
  find_ma_by_date data ma (date d) = Some (ma !! i).
Proof.
  intros Hnd Hlen Hd. unfold find_ma_by_date.
  assert (∀ n k, i = (k + n)%nat →
            find_indexed
              (λ _ idx, d' ← data !! idx; Some (String.eqb (date d') (date d)))
              (drop k ma) k = Some (ma !! i)) as Haux.
  { induction n as [|n IH]; intros k Hk.
    - rewrite Nat.add_0_r in Hk. subst k.
      destruct (lookup_lt_is_Some_2 ma i) as [v Hv];
        [rewrite Hlen; by eapply lookup_lt_Some|].
      rewrite (drop_S _ _ _ Hv). simpl. rewrite Hd. simpl.
      by rewrite String.eqb_refl, Hv.
    - pose proof (lookup_lt_Some _ _ _ Hd) as Hi.
      destruct (lookup_lt_is_Some_2 ma k) as [v Hv]; [lia|].
      destruct (lookup_lt_is_Some_2 data k) as [dk Hdk]; [lia|].
      rewrite (drop_S _ _ _ Hv). simpl. rewrite Hdk. simpl.
      rewrite string_eqb_false.
      + apply IH. lia.
      + intros Heq.
        pose proof (NoDup_dates_lookup data k i dk d Hnd Hdk Hd Heq). lia. }
  apply (Haux i 0%nat). lia.
Qed.

(** X20. When the bars have distinct dates and the run has a usable start
    index, the backtest chart has one row per bar, and row [i] shows bar
    [i]: its date, close and volume, its point of the capital and of the
    benchmark curve, and the 10- and 100-bar volume averages at [i]. *)
Theorem chartData_rows data s :
  NoDup (date <$> data) →
  start_index data = Some s → (s < length data)%nat →
  ∃ r rows,
    runStrategy data = Some r
    ∧ chartData data r = Some rows
    ∧ length rows = length data
    ∧ ∀ i d, data !! i = Some d →
        ∃ row c b,
          rows !! i = Some row
          ∧ capitalCurve r !! i = Some c ∧ benchmarkCurve r !! i = Some b
          ∧ chart_date row = date d
          ∧ chart_strategy row = value c
          ∧ chart_benchmark row = Some (value b)
          ∧ chart_price row = Some (close d)
          ∧ chart_volume row = Some (volume d)
          ∧ chart_maShort row = Some (ma_entry 10 data FVolume i)
          ∧ chart_maLong row = Some (ma_entry 100 data FVolume i).
Proof.
  intros Hnd Hs Hlt.
  destruct (curves_upto_final data s Hs Hlt)
    as (st & r & _ & Hr & Hc & Hb & _ & Hcap & _ & Hbench).
  destruct (lookup_lt_is_Some_2 data s Hlt) as [d0 Hd0].
  specialize (Hbench d0 Hd0). rewrite firstn_all in Hcap, Hbench.
  rewrite <- Hc in Hcap. rewrite <- Hb in Hbench.
  assert (length (capitalCurve r) = length data) as Hlen.
  { by rewrite <- (length_fmap point_date), Hcap, length_fmap. }
  assert (∀ i c, capitalCurve r !! i = Some c →
            ∃ d, data !! i = Some d ∧ point_date c = date d) as Hdates.
  { intros i c Hi.
    destruct (lookup_lt_is_Some_2 data i) as [d Hd];
      [rewrite <- Hlen; by eapply lookup_lt_Some|].
    exists d. split; [done|].
    assert ((point_date <$> capitalCurve r) !! i = (date <$> data) !! i) as Heq
      by (by rewrite Hcap).
    rewrite !list_lookup_fmap, Hi, Hd in Heq. by injection Heq. }
  unfold chartData. rewrite !calculateMA_entries. simpl.
  destruct (map_indexed_pointwise
              (λ c i,
                 maShort ← find_ma_by_date data
                             (ma_entry 10 data FVolume <$> seq 0 (length data))
                             (point_date c);
                 maLong ← find_ma_by_date data
                            (ma_entry 100 data FVolume <$> seq 0 (length data))
                            (point_date c);
                 Some {| chart_date := point_date c;
                         chart_strategy := value c;
                         chart_benchmark := value <$> benchmarkCurve r !! i;
                         chart_price := close <$> find_by_date data (point_date c);
                         chart_volume := volume <$> find_by_date data (point_date c);
                         chart_maShort := maShort;
                         chart_maLong := maLong |})
              (λ i c row,
                 ∃ d b, data !! i = Some d ∧ benchmarkCurve r !! i = Some b
                   ∧ chart_date row = date d
                   ∧ chart_strategy row = value c
                   ∧ chart_benchmark row = Some (value b)
                   ∧ chart_price row = Some (close d)
                   ∧ chart_volume row = Some (volume d)
                   ∧ chart_maShort row = Some (ma_entry 10 data FVolume i)
                   ∧ chart_maLong row = Some (ma_entry 100 data FVolume i))
              (capitalCurve r) 0%nat) as (rows & Hrows & Hlenr & Hrow).
  { intros i c Hi. simpl. destruct (Hdates i c Hi) as (d & Hd & Hdate).
    pose proof (lookup_lt_Some _ _ _ Hd) as Hil.
    rewrite Hdate.
    rewrite !(find_ma_by_date_NoDup data _ i d Hnd) by
      (done || by rewrite length_fmap, length_seq).
    rewrite !ma_of_lookup by done. simpl.
    rewrite (find_by_date_NoDup data i d Hnd Hd). simpl.
    eexists. split; [done|]. simpl.
    exists d, (benchmark_point s d0 i d).
    assert (benchmarkCurve r !! i = Some (benchmark_point s d0 i d)) as Hbi
      by (by rewrite Hbench, list_lookup_imap, Hd).
    rewrite Hbi. by split_and!. }
  exists r, rows. split_and!; [done|done|lia|].
  intros i d Hd.
  destruct (lookup_lt_is_Some_2 (capitalCurve r) i) as [c Hci];
    [rewrite Hlen; by eapply lookup_lt_Some|].
  destruct (Hrow i c Hci) as (row & Hri & d' & b & Hd' & Hbi & Hrest).
  simpl in Hd', Hbi, Hrest. replace d' with d in * by congruence.
  destruct Hrest as (? & ? & ? & ? & ? & ? & ?).
  exists row, c, b. by split_and!.
Qed.

Lemma chartData_rows_witness :
  ∃ r rows,
    runStrategy BacktestExamples.rising_data = Some r
    ∧ chartData BacktestExamples.rising_data r = Some rows
    ∧ length rows = length BacktestExamples.rising_data
    ∧ ∀ i d, BacktestExamples.rising_data !! i = Some d →
        ∃ row c b,
          rows !! i = Some row
          ∧ capitalCurve r !! i = Some c ∧ benchmarkCurve r !! i = Some b
          ∧ chart_date row = date d
          ∧ chart_strategy row = value c
          ∧ chart_benchmark row = Some (value b)
          ∧ chart_price row = Some (close d)
          ∧ chart_volume row = Some (volume d)
          ∧ chart_maShort row
            = Some (ma_entry 10 BacktestExamples.rising_data FVolume i)
          ∧ chart_maLong row
            = Some (ma_entry 100 BacktestExamples.rising_data FVolume i).
Proof.
  apply (chartData_rows BacktestExamples.rising_data 100).
  - apply (bool_decide_unpack _). vm_compute. reflexivity.
  - vm_compute. reflexivity.
  - vm_compute. lia.
Defined.

(** X21. Without a usable start index the run is neutral and the backtest
    chart has no row at all, however many bars there are. *)
Theorem chartData_neutral data s :
  start_index data = Some s → (length data ≤ s)%nat →
  ∃ r, runStrategy data = Some r ∧ chartData data r = Some [].
Proof.
  intros Hs Hle. rewrite runStrategy_unfold, Hs. simpl.
  replace (length data <=? s)%nat with true by (symmetry; apply Nat.leb_le; lia).
  eexists. split; [done|].
  unfold chartData. by rewrite !calculateMA_entries.
Qed.

Lemma chartData_neutral_witness :
  ∃ r, runStrategy SyncExamples.cached10 = Some r
    ∧ chartData SyncExamples.cached10 r = Some [].
Proof.
  apply (chartData_neutral SyncExamples.cached10 100).
  - vm_compute. reflexivity.
  - vm_compute. lia.
Defined.

(** * Bond view (components/BondView: areas) *)

Inductive HighlightMode := ModeNone | ModeKill | ModeBull.

Record Region := {
  x1 : string;
  x2 : string;
  region_type : HighlightMode
}.

(** The literals [0.01] and [0.001] as the binary64 values they denote. *)
Definition one_percent : float := 0x1.47ae147ae147bp-7%float.
Definition one_per_mille : float := 0x1.0624dd2f1a9fcp-10%float.

Definition WINDOW : nat := 20.

(** Truthiness of [bondPrice?: number] and of [start: string | null]. *)
Definition truthy_price (p : option float) : bool :=
  match p with
  | Some x => Number.truthy x
  | None => false
  end.

Definition truthy_start (start : option string) : bool :=
  match start with
  | Some s => negb (String.eqb s "")
  | None => false
  end.

(** [isMatch] for the current and the previous bar, 20 bars apart. *)
Definition isMatch (highlightMode : HighlightMode) (curr prev : StockDataPoint)
  : bool :=
  let stockChg := ((close curr - close prev) / close prev)%float in
  let bondChg :=
    ((to_number (of_optional (bondPrice curr))
      - to_number (of_optional (bondPrice prev)))
     / to_number (of_optional (bondPrice prev)))%float in
  match highlightMode with
  | ModeKill =>
      (stockChg <? - one_percent)%float && (bondChg <? - one_per_mille)%float
  | ModeBull =>
      Number.gtb stockChg one_percent && Number.gtb bondChg one_per_mille
  | ModeNone => false
  end.

(** The body of the loop, on [regions] and [start]. *)
Definition areas_step (highlightMode : HighlightMode)
    (data : list StockDataPoint) (i : nat)
    (st : list Region * option string) : option (list Region * option string) :=
  let '(regions, start) := st in
  curr ← data !! i;
  prev ← at_index data (Z.of_nat i - Z.of_nat WINDOW);
  if negb (truthy_price (bondPrice curr)) || negb (truthy_price (bondPrice prev))
  then Some (regions, start)
  else if isMatch highlightMode curr prev then
    Some (regions, if negb (truthy_start start) then Some (date curr) else start)
  else if truthy_start start then
    before ← at_index data (Z.of_nat i - 1);
    Some (regions ++
            [{| x1 := default EmptyString start; x2 := date before;
                region_type := highlightMode |}],
          None)
  else Some (regions, start).

Definition areas (highlightMode : HighlightMode) (data : list StockDataPoint)
  : option (list Region) :=
  match highlightMode with
  | ModeNone => Some []
  | _ =>
      if (length data <? 20)%nat then Some []
      else
        '(regions, start) ← for_range (length data - WINDOW) WINDOW
                              (areas_step highlightMode data) ([], None);
        if truthy_start start then
          lastBar ← at_index data (Z.of_nat (length data) - 1);
          Some (regions ++
                  [{| x1 := default EmptyString start; x2 := date lastBar;
                      region_type := highlightMode |}])
        else Some regions
  end.

(** ** The two highlight modes *)

Lemma not_below_and_above x c m e :
  Prim2SF c = S754_finite false m e →
  (x <? - c)%float && (c <? x)%float = false.
Proof.
  intros Hc. rewrite !ltb_spec, opp_spec, Hc. simpl SFopp.
  destruct (Prim2SF x) as [s|s| |s mx ex]; try done.
  - by destruct s.
  - destruct s; [|done]. by rewrite andb_false_r.
Qed.

(** X22. No pair of bars matches both highlight modes: a 20-bar change
    cannot be below -1% and above 1% at once. *)
Theorem isMatch_modes_exclusive curr prev :
  isMatch ModeKill curr prev && isMatch ModeBull curr prev = false.
Proof.
  unfold isMatch, Number.gtb.
  set (stockChg := ((close curr - close prev) / close prev)%float).
  pose proof (not_below_and_above stockChg one_percent _ _ eq_refl) as Hex.
  destruct (stockChg <? - one_percent)%float; [|done].
  simpl in Hex. rewrite Hex. simpl. by rewrite andb_false_r.
Qed.

(** ** Shape of the highlighted regions *)

(** Bar [i] and the bar 20 places before it both carry a bond price and match
    the mode. *)
Definition bar_matches (highlightMode : HighlightMode)
    (data : list StockDataPoint) (i : nat) : Prop :=
  ∃ curr prev,
    data !! i = Some curr ∧ data !! (i - 20)%nat = Some prev
    ∧ truthy_price (bondPrice curr) = true
    ∧ truthy_price (bondPrice prev) = true
    ∧ isMatch highlightMode curr prev = true.

(** Region [r] spans the bars [span.1 .. span.2] and opens at a match. *)
Definition region_spans (highlightMode : HighlightMode)
    (data : list StockDataPoint) (span : nat * nat) (r : Region) : Prop :=
  ∃ b0 bj,
    data !! span.1 = Some b0 ∧ data !! span.2 = Some bj
    ∧ x1 r = date b0 ∧ x2 r = date bj ∧ region_type r = highlightMode
    ∧ bar_matches highlightMode data span.1.

(** Invariant of the loop before index [k]: the regions pushed so far span
    disjoint index ranges below [k], in order, and an open [start] is the date
    of a matching bar after all of them. *)
Definition areas_inv (highlightMode : HighlightMode)
    (data : list StockDataPoint) (k : nat)
    (st : list Region * option string) : Prop :=
  ∃ spans,
    Forall2 (region_spans highlightMode data) spans st.1
    ∧ StronglySorted (λ a b, (a.2 < b.1)%nat) spans
    ∧ Forall (λ a, (20 ≤ a.1 ≤ a.2)%nat ∧ (a.2 < k)%nat) spans
    ∧ (truthy_start st.2 = true →
       ∃ i0 b0, (20 ≤ i0 < k)%nat ∧ data !! i0 = Some b0
         ∧ st.2 = Some (date b0)
         ∧ bar_matches highlightMode data i0
         ∧ Forall (λ a, (a.2 < i0)%nat) spans).

Lemma spans_weaken (k : nat) (spans : list (nat * nat)) :
  Forall (λ a, (20 ≤ a.1 ≤ a.2)%nat ∧ (a.2 < k)%nat) spans →
  Forall (λ a : nat * nat, (20 ≤ a.1 ≤ a.2)%nat ∧ (a.2 < S k)%nat) spans.
Proof. intros H. eapply Forall_impl; [done|]. simpl. lia. Qed.

Lemma areas_step_inv highlightMode data i st :
  (20 ≤ i < length data)%nat →
  areas_inv highlightMode data i st →
  ∃ st', areas_step highlightMode data i st = Some st'
    ∧ areas_inv highlightMode data (S i) st'.
Proof.
  intros [Hlo Hhi] (spans & Hspans & Hsorted & Hrange & Hopen).
  destruct st as [regions start]. simpl in *.
  destruct (lookup_lt_is_Some_2 data i Hhi) as [curr Hcurr].
  destruct (lookup_lt_is_Some_2 data (i - 20)) as [prev Hprev]; [lia|].
  unfold WINDOW. rewrite Hcurr. simpl.
  rewrite (at_index_nat data i 20) by lia. rewrite Hprev. simpl.
  pose proof (spans_weaken i spans Hrange) as Hrange'.
  assert (truthy_start start = true →
          ∃ i0 b0, (20 ≤ i0 < S i)%nat ∧ data !! i0 = Some b0
            ∧ start = Some (date b0)
            ∧ bar_matches highlightMode data i0
            ∧ Forall (λ a : nat * nat, (a.2 < i0)%nat) spans) as Hopen'.
  { intros Ht. destruct (Hopen Ht) as (i0 & b0 & Hi0 & Hrest).
    exists i0, b0. split; [lia|done]. }
  destruct (negb (truthy_price (bondPrice curr))
            || negb (truthy_price (bondPrice prev))) eqn:Hskip.
  { eexists. split; [done|]. exists spans. by split_and!. }
  apply orb_false_iff in Hskip as [Hpc Hpp].
  apply negb_false_iff in Hpc, Hpp.
  destruct (isMatch highlightMode curr prev) eqn:Hmatch.
  - eexists. split; [done|]. exists spans. simpl. split_and!; [done..|].
    destruct (truthy_start start) eqn:Hstart; simpl; [by auto|].
    intros _. exists i, curr. split_and!; [lia|lia|done|done| |].
    + exists curr, prev. by split_and!.
    + eapply Forall_impl; [exact Hrange|]. simpl. lia.
  - destruct (truthy_start start) eqn:Hstart.
    + destruct (Hopen eq_refl) as (i0 & b0 & Hi0 & Hb0 & -> & Hm0 & Hbefore).
      replace (Z.of_nat i - 1) with (Z.of_nat i - Z.of_nat 1) by lia.
      rewrite (at_index_nat data i 1) by lia.
      destruct (lookup_lt_is_Some_2 data (i - 1)) as [before Hbefore']; [lia|].
      rewrite Hbefore'. simpl.
      eexists. split; [done|]. exists (spans ++ [(i0, (i - 1)%nat)]). simpl.
      split_and!.
      * apply Forall2_app; [done|]. repeat constructor.
        exists b0, before. by split_and!.
      * apply StronglySorted_app_2; [|done|repeat constructor].
        intros a b Ha ->%list_elem_of_singleton. simpl.
        rewrite Forall_forall in Hbefore. by apply Hbefore.
      * apply Forall_app. split; [done|]. apply Forall_singleton. simpl. lia.
      * done.
    + eexists. split; [done|]. exists spans. split_and!; [done..|].
      simpl. by rewrite Hstart.
Qed.

(** X23. [areas] never fails; it returns no region in mode none or for at
    most 20 bars; otherwise the regions it returns span disjoint ranges of
    bar indices from 20 on, in increasing order, each region opening at a bar
    that matches the mode and carrying the dates of the first and the last bar
    of its range. *)
Theorem areas_regions highlightMode data :
  ∃ regions spans,
    areas highlightMode data = Some regions
    ∧ Forall2 (region_spans highlightMode data) spans regions
    ∧ StronglySorted (λ a b, (a.2 < b.1)%nat) spans
    ∧ Forall (λ a, (20 ≤ a.1 ≤ a.2)%nat ∧ (a.2 < length data)%nat) spans
    ∧ (highlightMode = ModeNone ∨ (length data ≤ 20)%nat → regions = []).
Proof.
  assert (∀ mode, mode ≠ ModeNone →
            ∃ regions spans,
              (if (length data <? 20)%nat then Some []
               else
                 '(regions, start) ← for_range (length data - WINDOW) WINDOW
                                       (areas_step mode data) ([], None);
                 if truthy_start start then
                   lastBar ← at_index data (Z.of_nat (length data) - 1);
                   Some (regions ++
                           [{| x1 := default EmptyString start;
                               x2 := date lastBar; region_type := mode |}])
                 else Some regions) = Some regions
              ∧ Forall2 (region_spans mode data) spans regions
              ∧ StronglySorted (λ a b, (a.2 < b.1)%nat) spans
              ∧ Forall (λ a, (20 ≤ a.1 ≤ a.2)%nat ∧ (a.2 < length data)%nat)
                  spans
              ∧ ((length data ≤ 20)%nat → regions = [])) as Hmode.
  { intros mode _.
    destruct (Nat.ltb_spec (length data) 20) as [Hshort|Hlong].
    { exists [], []. split_and!; [done|constructor|constructor|constructor|done]. }
    destruct (for_range_invariant (areas_inv mode data) (length data - WINDOW)
                WINDOW (areas_step mode data) ([], None))
      as ([regions start] & Hrun & spans & Hspans & Hsorted & Hrange & Hopen).
    { exists []. split_and!; [constructor|constructor|constructor|done]. }
    { intros i st Hi. apply areas_step_inv. unfold WINDOW in Hi. lia. }
    rewrite Hrun. cbn [fst snd mbind option_bind] in *.
    replace (WINDOW + (length data - WINDOW))%nat with (length data) in *
      by (unfold WINDOW; lia).
    destruct (truthy_start start) eqn:Hstart.
    - destruct (Hopen eq_refl) as (i0 & b0 & Hi0 & Hb0 & -> & Hm0 & Hbefore).
      replace (Z.of_nat (length data) - 1)
        with (Z.of_nat (length data) - Z.of_nat 1) by lia.
      rewrite (at_index_nat data (length data) 1) by lia.
      destruct (lookup_lt_is_Some_2 data (length data - 1)) as [lastBar Hlast];
        [lia|].
      rewrite Hlast. simpl.
      eexists. exists (spans ++ [(i0, (length data - 1)%nat)]).
      split_and!; [done| | | |].
      + apply Forall2_app; [done|]. repeat constructor.
        exists b0, lastBar. by split_and!.
      + apply StronglySorted_app_2; [|done|repeat constructor].
        intros a b Ha ->%list_elem_of_singleton. simpl.
        rewrite Forall_forall in Hbefore. by apply Hbefore.
      + apply Forall_app. split; [done|]. apply Forall_singleton. simpl. lia.
      + intros Hlen. lia.
    - exists regions, spans. split_and!; [done..|].
      intros Hlen. assert (length data = 20%nat) as H20 by lia.
      revert Hrun. rewrite H20. unfold WINDOW. simpl. by intros [= <- _]. }
  destruct highlightMode.
  - exists [], []. split_and!; [done|constructor|constructor|constructor|done].
  - destruct (Hmode ModeKill) as (regions & spans & Hrun & H1 & H2 & H3 & H4);
      [done|].
    exists regions, spans. split_and!; [done..|]. intros [[=]|Hlen]. auto.
  - destruct (Hmode ModeBull) as (regions & spans & Hrun & H1 & H2 & H3 & H4);
      [done|].
    exists regions, spans. split_and!; [done..|]. intros [[=]|Hlen]. auto.
Qed.

(** * End to end: sorted lines give a sorted series *)

(** A sync over a sorted cache with a fetch function that returns sorted
    series returns a sorted series, on every path. *)
Lemma syncData_sorted sto key fetchFn items merged items' ops :
  (∀ cached, items !! key = Some cached → strictly_increasing cached) →
  (∀ since bars, fetchFn since = Resolved bars → strictly_increasing bars) →
  syncData sto key fetchFn items = (Resolved merged, items', ops) →
  strictly_increasing merged.
Proof.
  intros Hcache Hfetch.
  assert (strictly_increasing (default [] (items !! key))) as Hc.
  { destruct (items !! key) as [cached|] eqn:Hk; simpl; [eauto|constructor]. }
  sync_cases; intros [= Hr _ _]; subst; eauto.
  apply strictly_increasing_merge; eauto.
Qed.

Section SortedLines.

Variable parseFloat : string → float.
Variable jsonp : string → Outcome (option KlineResponse).

(** Every response lists its lines in strictly increasing date order. *)
Hypothesis sorted_lines : ∀ url res d ks,
  jsonp url = Resolved (Some res) → res_data res = Some d → klines d = Some ks →
  StronglySorted (λ a b, String.ltb a b = true) (line_date <$> ks).

Lemma fetchRawKlines_sorted secid startDate ks :
  fetchRawKlines jsonp secid startDate = Resolved ks →
  StronglySorted (λ a b, String.ltb a b = true) (line_date <$> ks).
Proof.
  unfold fetchRawKlines. cbv zeta.
  match goal with |- context [jsonp ?url] =>
    pose proof (sorted_lines url) as Hsorted; destruct (jsonp url) as [[res|]|e]
  end; try (intros [= <-]; constructor).
  destruct (res_data res) as [d|] eqn:Hd; [|intros [= <-]; constructor].
  destruct (klines d) as [ks'|] eqn:Hks; [|intros [= <-]; constructor].
  intros [= <-]. by eapply Hsorted.
Qed.

(** X24. When the cached series is in strictly increasing date order and
    every response of the server lists its lines in strictly increasing date
    order, each of the three services returns a series in strictly increasing
    date order, hence with distinct dates. *)
Theorem services_strictly_increasing sto secid items bars items' ops :
  (∀ key cached, items !! key = Some cached → strictly_increasing cached) →
  fetchBacktestData parseFloat jsonp sto secid items = (Resolved bars, items', ops)
  ∨ fetchVolumeData parseFloat jsonp sto items = (Resolved bars, items', ops)
  ∨ fetchBondData parseFloat jsonp sto items = (Resolved bars, items', ops) →
  strictly_increasing bars ∧ NoDup (date <$> bars).
Proof.
  intros Hcache Hrun.
  assert (strictly_increasing bars) as Hs;
    [|split; [done|by apply strictly_increasing_NoDup]].
  destruct Hrun as [Hrun|[Hrun|Hrun]];
    (eapply syncData_sorted; [by apply Hcache| |exact Hrun]);
    intros since fetched; simpl.
  - destruct (fetchRawKlines jsonp secid since) as [ks|e] eqn:Hks; [|done].
    simpl. intros [= <-].
    by apply backtest_bars_sorted, (fetchRawKlines_sorted secid since).
  - destruct (fetchRawKlines jsonp "1.000001" since) as [ks|e] eqn:Hks; [|done].
    simpl. destruct (fetchRawKlines jsonp "0.399001" since) as [ks'|e]; [|done].
    simpl. intros [= <-].
    by apply volume_bars_sorted, (fetchRawKlines_sorted "1.000001" since).
  - destruct (fetchRawKlines jsonp "1.000001" since) as [ks|e] eqn:Hks; [|done].
    simpl. destruct (fetchRawKlines jsonp "1.511090" since) as [ks'|e]; [|done].
    simpl. intros [= <-].
    by apply bond_bars_sorted, (fetchRawKlines_sorted "1.000001" since).
Qed.

End SortedLines.

Module ServerExamples.

(** A server that answers every request with the three sample lines. *)
Definition server (url : string) : Outcome (option KlineResponse) :=
  Resolved (Some {| res_data := Some {| klines := Some ServiceExamples.lines |} |}).

End ServerExamples.

Lemma services_strictly_increasing_witness :
  ∃ bars items' ops,
    fetchBacktestData ServiceExamples.parse_unsigned ServerExamples.server
      SyncExamples.sto_ok "1.000001" ∅ = (Resolved bars, items', ops)
    ∧ strictly_increasing bars ∧ NoDup (date <$> bars).
Proof.
  destruct (syncData_resolves SyncExamples.sto_ok "backtest_1.000001_v2"
              (λ startDate,
                 and_then
                   (fetchRawKlines ServerExamples.server "1.000001" startDate)
                   (λ lines,
                      Resolved (backtest_bars ServiceExamples.parse_unsigned lines)))
              ∅) as (bars & items' & ops & Hrun).
  { intros since. eexists. reflexivity. }
  exists bars, items', ops. split; [exact Hrun|].
  apply (services_strictly_increasing ServiceExamples.parse_unsigned
           ServerExamples.server) with
    (sto := SyncExamples.sto_ok) (secid := "1.000001"%string)
    (items := ∅) (items' := items') (ops := ops).
  - intros url res d ks [= <-] [= <-] [= <-]. by apply (bool_decide_unpack _).
  - intros key cached. by rewrite lookup_empty.
  - left. exact Hrun.
Defined.

(** * Further edge behaviour *)

(** X25. The [try] block of [syncData] covers the fetch as well: when the
    store can be read but the fetch from the cached last date is rejected,
    the call ends like the full fetch [fetchFn(undefined)], leaves the store
    as it was and writes nothing, even though the cached series was read. *)
Theorem syncData_fetch_rejected sto key fetchFn items e :
  getItem_fails sto key = false →
  fetchFn (last_date (default [] (items !! key))) = Rejected e →
  syncData sto key fetchFn items = (fetchFn None, items, [OpGet key true]).
Proof.
  intros Hget Hfetch. rewrite syncData_unfold, Hget. cbv zeta.
  by rewrite Hfetch.
Qed.

Module RejectExamples.

(** A source that fails on incremental requests only. *)
Definition fetch_full_only (since : option string)
  : Outcome (list StockDataPoint) :=
  match since with
  | Some _ => Rejected FetchFailed
  | None => Resolved SyncExamples.fetched8
  end.

End RejectExamples.

Lemma syncData_fetch_rejected_witness :
  syncData SyncExamples.sto_ok "volume_data_v2" RejectExamples.fetch_full_only
    SyncExamples.items10
  = (Resolved SyncExamples.fetched8, SyncExamples.items10,
     [OpGet "volume_data_v2" true]).
Proof.
  apply (syncData_fetch_rejected SyncExamples.sto_ok "volume_data_v2"
           RejectExamples.fetch_full_only SyncExamples.items10 FetchFailed).
  - reflexivity.
  - unfold SyncExamples.items10. rewrite lookup_singleton_eq. reflexivity.
Defined.

Lemma last_value_or_1_truthy curve :
  Number.truthy (last_value_or_1 curve) = true.
Proof.
  unfold last_value_or_1. destruct (last curve) as [p|]; [|reflexivity].
  destruct (Number.truthy (value p)) eqn:Ht; [done|reflexivity].
Qed.

(** X26. The final net value a run reports is never 0 and never NaN: where
    the capital curve ends at such a value (or is empty), [finalNetValue] is 1
    instead, and the return rate is computed from that 1. *)
Theorem runStrategy_finalNetValue_truthy data :
  ∃ r, runStrategy data = Some r
    ∧ Number.truthy (finalNetValue r) = true
    ∧ finalNetValue r = last_value_or_1 (capitalCurve r)
    ∧ returnRate r = Number.toFixed 2 ((finalNetValue r - 1) * 100).
Proof.
  destruct (start_index_spec data) as (s & Hs & _).
  destruct (Nat.le_gt_cases (length data) s) as [Hle|Hlt].
  - rewrite runStrategy_unfold, Hs. simpl.
    replace (length data <=? s)%nat with true
      by (symmetry; apply Nat.leb_le; lia).
    eexists. split; [done|]. by split_and!.
  - destruct (runStrategy_final data s Hs Hlt)
      as (st & r & _ & Hr & _ & Hcap & _ & Hnet & Hret & _).
    exists r. rewrite Hnet, Hret, Hcap.
    split_and!; [done|apply last_value_or_1_truthy|done|done].
Qed.

(** A run that ends with nothing left: the capital curve ends at 0, yet the
    result reports a net value of 1 and a return of 0.00. *)
Lemma runStrategy_total_loss_example :
  (λ r, (value <$> last (capitalCurve r), finalNetValue r, returnRate r))
    <$> runStrategy BacktestExamples.zero_close_data
  = Some (Some 0%float, 1%float, "0.00"%string).
Proof. vm_compute. reflexivity. Qed.

Section SecondaryMaps.

Variable parseFloat : string → float.

(** The volume a Shenzhen line contributes for [date0], if any. *)
Definition sz_entry (date0 : string) (line : string) : option float :=
  let p := split_on "," line in
  if (5 <? length p)%nat && negb (Number.isNaN (parse_part parseFloat p 5))
     && String.eqb (line_date line) date0
  then Some (parse_part parseFloat p 5)
  else None.

(** The close a bond line contributes for [date0], if any. *)
Definition bond_entry (date0 : string) (line : string) : option float :=
  let p := split_on "," line in
  if (2 <? length p)%nat && negb (Number.isNaN (parse_part parseFloat p 2))
     && String.eqb (line_date line) date0
  then Some (parse_part parseFloat p 2)
  else None.

Lemma omap_snoc {A B} (f : A → option B) xs x :
  omap f (xs ++ [x]) = omap f xs ++ option_list (f x).
Proof. rewrite omap_app. simpl. by destruct (f x). Qed.

Lemma last_app_option_list {A} (xs : list A) (o : option A) :
  last (xs ++ option_list o) = match o with Some y => Some y | None => last xs end.
Proof. destruct o; simpl; [apply last_snoc|by rewrite app_nil_r]. Qed.

(** X27. The maps built from the secondary lines keep, for every date, the
    value of the last line of that date that has enough parts and a value
    that is not NaN; earlier lines of the same date are overwritten, and
    lines that are too short or not numeric are ignored. *)
Theorem secondary_maps_last_wins lines date0 :
  foldl (sz_line parseFloat) ∅ lines !! date0
  = last (omap (sz_entry date0) lines)
  ∧ foldl (bond_line parseFloat) ∅ lines !! date0
    = last (omap (bond_entry date0) lines).
Proof.
  split.
  - induction lines as [|line lines IH] using rev_ind; [done|].
    rewrite foldl_snoc, omap_snoc, last_app_option_list, <- IH.
    unfold sz_line, sz_entry, line_date, part0.
    destruct (5 <? length (split_on "," line))%nat; [|done].
    destruct (negb (Number.isNaN _)); [|done]. simpl.
    destruct (String.eqb_spec
                (default EmptyString (split_on "," line !! 0%nat)) date0)
      as [->|Hne].
    + by rewrite lookup_insert_eq.
    + by rewrite lookup_insert_ne.
  - induction lines as [|line lines IH] using rev_ind; [done|].
    rewrite foldl_snoc, omap_snoc, last_app_option_list, <- IH.
    unfold bond_line, bond_entry, line_date, part0.
    destruct (2 <? length (split_on "," line))%nat; [|done].
    destruct (negb (Number.isNaN _)); [|done]. simpl.
    destruct (String.eqb_spec
                (default EmptyString (split_on "," line !! 0%nat)) date0)
      as [->|Hne].
    + by rewrite lookup_insert_eq.
    + by rewrite lookup_insert_ne.
Qed.

End SecondaryMaps.
